(** * Google Ads API playground: OAuth code capture, setup prompts, menu loop,
    the 90-day collector and the archived menu of example queries

  A shallow embedding of [src/googleAdsQueryTool.ts] and
  [src/clickViewFeb2025.ts] (the two scripts share the configuration
  prompts, the capture listener and the token exchange verbatim), of the
  date generator and the collection loop of [src/clickViewFeb2025.ts], and
  of the authorization request and the recursive menu of
  [src/archive/googleAdsPlayground.ts].

  The asynchronous program is embedded as a state machine: a state is the
  control point at which the [async] code is suspended together with the
  mutable world (configuration object, listener, promises, timers,
  console); an event is what the event loop delivers next. *)

From Stdlib Require Import ZArith List String Ascii Bool Lia.
From stdpp Require Import prelude strings gmap.

Open Scope Z_scope.

(** ** JavaScript string primitives used by the scripts *)

Module Js.

(** Truthiness of a string value: only the empty string is falsy. *)
Definition truthy (s : string) : bool := negb (String.eqb s "").

(** Truthiness of a value that is a string or [null]/[undefined]. *)
Definition truthy_opt (o : option string) : bool :=
  match o with
  | Some s => truthy s
  | None => false
  end.

Definition digit (d : Z) : ascii := ascii_of_nat (48 + Z.to_nat d).

(** Decimal digits of a non-negative integer, most significant first. *)
Fixpoint digits (fuel : nat) (n : Z) (acc : string) : string :=
  match fuel with
  | O => acc
  | S fuel' =>
      let acc' := String (digit (n mod 10)) acc in
      if n / 10 =? 0 then acc' else digits fuel' (n / 10) acc'
  end.

(** [String(n)] for an integer [n]. *)
Definition String_of_number (n : Z) : string :=
  if n <? 0 then String "-" (digits (Z.to_nat (- n)) (- n) "")
  else digits (S (Z.to_nat n)) n "".

(** The filler of [padStart]: [pad] repeated and cut to [n] characters. *)
Fixpoint fill (n : nat) (cur pad : string) : string :=
  match n with
  | O => ""
  | S n' =>
      match cur with
      | String c rest => String c (fill n' rest pad)
      | EmptyString =>
          match pad with
          | String c rest => String c (fill n' rest pad)
          | EmptyString => ""
          end
      end
  end.

(** [s.padStart(targetLength, padString)]. *)
Definition padStart (s : string) (targetLength : nat) (padString : string)
  : string :=
  let len := String.length s in
  if (targetLength <=? len)%nat then s
  else if String.eqb padString "" then s
  else (fill (targetLength - len) padString padString +:+ s)%string.

Definition lower_ascii (c : ascii) : ascii :=
  let n := nat_of_ascii c in
  if ((65 <=? n) && (n <=? 90))%nat then ascii_of_nat (n + 32) else c.

(** [s.toLowerCase()] on the ASCII letters; the answers the scripts
    compare against are ["yes"] and ["y"]. *)
Fixpoint toLowerCase (s : string) : string :=
  match s with
  | EmptyString => EmptyString
  | String c rest => String (lower_ascii c) (toLowerCase rest)
  end.

(** [arr.join(sep)] on an array of strings. *)
Fixpoint join (sep : string) (l : list string) : string :=
  match l with
  | [] => ""
  | [x] => x
  | x :: rest => (x +:+ sep +:+ join sep rest)%string
  end.

End Js.

(** ** The [Date] object

  A [Date] holds a time value: milliseconds since the epoch, in UTC.  The
  scripts read and write the calendar fields of local time, so the time
  zone of the process is part of the model.  The definitions are the
  abstract operations of ECMA-262, section 21.4.1 (Day Number, Year Number,
  Month Number, Date Number, MakeDay, MakeDate, LocalTime, UTC).  The
  calendar operations are written on day numbers: [YearFromTime d] here is
  the standard's YearFromTime of any time value of day [d], and likewise
  for the month and the date.  [TimeClip] is left out: it is the identity
  on the time values of the years the statements speak of, and a
  [new Date()] is never invalid. *)

Module JsDate.

Definition Date := Z.

Definition DaysInYear (y : Z) : Z :=
  if negb (y mod 4 =? 0) then 365
  else if negb (y mod 100 =? 0) then 366
  else if negb (y mod 400 =? 0) then 365
  else 366.

Definition DayFromYear (y : Z) : Z :=
  365 * (y - 1970) + (y - 1969) / 4 - (y - 1901) / 100 + (y - 1601) / 400.

(** Search upwards for the last year that starts on or before day [t]. *)
Fixpoint year_up (fuel : nat) (y t : Z) : Z :=
  match fuel with
  | O => y
  | S fuel' => if DayFromYear (y + 1) <=? t then year_up fuel' (y + 1) t else y
  end.

(** Search downwards for the last year that starts on or before day [t]. *)
Fixpoint year_down (fuel : nat) (y t : Z) : Z :=
  match fuel with
  | O => y
  | S fuel' => if DayFromYear y <=? t then y else year_down fuel' (y - 1) t
  end.

(** The largest [y] with [DayFromYear y <= t]. *)
Definition YearFromTime (t : Z) : Z :=
  if 0 <=? t then year_up (S (Z.to_nat (t / 365))) 1970 t
  else year_down (S (Z.to_nat ((- t) / 365))) 1969 t.

Definition InLeapYear (t : Z) : Z :=
  if DaysInYear (YearFromTime t) =? 366 then 1 else 0.

Definition DayWithinYear (t : Z) : Z := t - DayFromYear (YearFromTime t).

(** Day within the year on which month [m] (0-based) starts. *)
Definition month_start (m leap : Z) : Z :=
  if m =? 0 then 0
  else if m =? 1 then 31
  else if m =? 2 then 59 + leap
  else if m =? 3 then 90 + leap
  else if m =? 4 then 120 + leap
  else if m =? 5 then 151 + leap
  else if m =? 6 then 181 + leap
  else if m =? 7 then 212 + leap
  else if m =? 8 then 243 + leap
  else if m =? 9 then 273 + leap
  else if m =? 10 then 304 + leap
  else 334 + leap.

Definition MonthFromTime (t : Z) : Z :=
  let d := DayWithinYear t in
  let l := InLeapYear t in
  if d <? 31 then 0
  else if d <? 59 + l then 1
  else if d <? 90 + l then 2
  else if d <? 120 + l then 3
  else if d <? 151 + l then 4
  else if d <? 181 + l then 5
  else if d <? 212 + l then 6
  else if d <? 243 + l then 7
  else if d <? 273 + l then 8
  else if d <? 304 + l then 9
  else if d <? 334 + l then 10
  else 11.

Definition DateFromTime (t : Z) : Z :=
  let d := DayWithinYear t in
  let l := InLeapYear t in
  let m := MonthFromTime t in
  if m =? 0 then d + 1
  else if m =? 1 then d - 30
  else if m =? 2 then d - 58 - l
  else if m =? 3 then d - 89 - l
  else if m =? 4 then d - 119 - l
  else if m =? 5 then d - 150 - l
  else if m =? 6 then d - 180 - l
  else if m =? 7 then d - 211 - l
  else if m =? 8 then d - 242 - l
  else if m =? 9 then d - 272 - l
  else if m =? 10 then d - 303 - l
  else d - 333 - l.

(** [MakeDay(year, month, date)]: the day number of the first of the month
    plus [date - 1]; [month] outside 0..11 carries into the year. *)
Definition MakeDay (year month date : Z) : Z :=
  let ym := year + month / 12 in
  let mn := month mod 12 in
  let leap := if DaysInYear ym =? 366 then 1 else 0 in
  DayFromYear ym + month_start mn leap + date - 1.

Definition msPerDay : Z := 86400000.

Definition Day (t : Z) : Z := t / msPerDay.

Definition TimeWithinDay (t : Z) : Z := t mod msPerDay.

Definition MakeDate (day time : Z) : Z := day * msPerDay + time.

(** The time zone of the process.  [LocalTZA t true] is the offset of local
    time from UTC at the time value [t]; [LocalTZA t false] is the offset at
    the local time [t], which is the offset before the transition for a
    local time that a transition skips. *)
Record TimeZone := { LocalTZA : Z -> bool -> Z }.

Definition LocalTime (tz : TimeZone) (t : Z) : Z := t + LocalTZA tz t true.

Definition UTC (tz : TimeZone) (t : Z) : Z := t - LocalTZA tz t false.

Definition getFullYear (tz : TimeZone) (d : Date) : Z :=
  YearFromTime (Day (LocalTime tz d)).

Definition getMonth (tz : TimeZone) (d : Date) : Z :=
  MonthFromTime (Day (LocalTime tz d)).

Definition getDate (tz : TimeZone) (d : Date) : Z :=
  DateFromTime (Day (LocalTime tz d)).

(** [d.setDate(n)]: the local year, month and time of day of [d] with the
    day of the month [n], read as a local time; [n] outside the month rolls
    over into neighbouring months. *)
Definition setDate (tz : TimeZone) (d : Date) (n : Z) : Date :=
  let t := LocalTime tz d in
  let newDate :=
    MakeDate (MakeDay (YearFromTime (Day t)) (MonthFromTime (Day t)) n)
      (TimeWithinDay t) in
  UTC tz newDate.

(** *** Time zones of the statements *)

(** Local time is UTC. *)
Definition utc : TimeZone := {| LocalTZA := fun _ _ => 0 |}.

(** The offset of local time never changes. *)
Definition fixed_offset (tz : TimeZone) : Prop :=
  exists offset, forall t isUTC, LocalTZA tz t isUTC = offset.

(** Pacific/Apia around the end of 2011: ten hours behind UTC until the end
    of 29 December, fourteen hours ahead from then on, so that local time
    has no 30 December 2011. *)
Definition apia_2011 : TimeZone :=
  let hour := 3600000 in
  let dec_30 := MakeDay 2011 11 30 in
  {| LocalTZA := fun t isUTC =>
       if isUTC then
         if t <? MakeDate dec_30 (10 * hour) then -10 * hour else 14 * hour
       else
         if t <? MakeDate (dec_30 + 1) 0 then -10 * hour else 14 * hour |}.

End JsDate.

(** ** [generateLast90DaysDates] (clickViewFeb2025.ts)

  Every [new Date()] reads the system clock.  [now k] is the time value
  returned by the [k]-th read of one call: read 0 is [today], read [i + 1]
  is the [date] object of loop iteration [i].  [tz] is the time zone of the
  process. *)

Module ClickView.
Import Js JsDate.

(** The template literal [`${year}-${month}-${day}`] of one iteration. *)
Definition format_date (tz : TimeZone) (date : Date) : string :=
  let year := getFullYear tz date in
  let month := padStart (String_of_number (getMonth tz date + 1)) 2 "0" in
  let day := padStart (String_of_number (getDate tz date)) 2 "0" in
  (String_of_number year +:+ "-" +:+ month +:+ "-" +:+ day)%string.

(** The body of the [for] loop for a given [i]. *)
Definition loop_body (tz : TimeZone) (today : Date) (fresh : Date) (i : Z)
  : string :=
  let date := setDate tz fresh (getDate tz today - i) in
  format_date tz date.

(** [for (let i = ...; i < 90; i++) { ...; dates.push(...) }], with [n]
    iterations left. *)
Fixpoint loop (tz : TimeZone) (now : nat -> Date) (today : Date) (n : nat)
  (i : nat) (dates : list string) : list string :=
  match n with
  | O => dates
  | S n' =>
      loop tz now today n' (S i)
        (dates ++ [loop_body tz today (now (S i)) (Z.of_nat i)])
  end.

Definition generateLast90DaysDates (tz : TimeZone) (now : nat -> Date)
  : list string :=
  let today := now 0%nat in
  loop tz now today 90 0 [].

(** *** Vocabulary of the statement about the generated dates *)

(** (y, m, d) is a date of the Gregorian calendar, [m] counted from 1. *)
Definition days_in_month (y m : Z) : Z :=
  if m =? 2 then (if DaysInYear y =? 366 then 29 else 28)
  else if (m =? 4) || (m =? 6) || (m =? 9) || (m =? 11) then 30
  else 31.

Definition valid_date (y m d : Z) : Prop :=
  1 <= m <= 12 /\ 1 <= d <= days_in_month y m.

(** Day number of the calendar date (y, m, d). *)
Definition day_number (y m d : Z) : Z := MakeDay y (m - 1) d.

(** The local day number of a time value. *)
Definition local_day (tz : TimeZone) (t : Z) : Z := Day (LocalTime tz t).

(** The ten decimal digits. *)
Definition decimal (n : Z) : ascii :=
  match n with
  | 0 => "0" | 1 => "1" | 2 => "2" | 3 => "3" | 4 => "4"
  | 5 => "5" | 6 => "6" | 7 => "7" | 8 => "8" | _ => "9"
  end%char.

Definition two_digits (n : Z) : string :=
  String (decimal (n / 10)) (String (decimal (n mod 10)) "").

(** The text YYYY-MM-DD of a calendar date, every field zero-padded. *)
Definition yyyy_mm_dd (y m d : Z) : string :=
  (two_digits (y / 100) +:+ two_digits (y mod 100) +:+ "-"
     +:+ two_digits m +:+ "-" +:+ two_digits d)%string.

Definition is_digit (c : ascii) : bool :=
  let n := nat_of_ascii c in ((48 <=? n) && (n <=? 57))%nat.

(** Ten characters: four digits, a dash, two digits, a dash, two digits. *)
Definition is_yyyy_mm_dd (s : string) : bool :=
  match s with
  | String y1 (String y2 (String y3 (String y4 (String h1
      (String m1 (String m2 (String h2 (String d1 (String d2 "")))))))))
    => is_digit y1 && is_digit y2 && is_digit y3 && is_digit y4
       && Ascii.eqb h1 "-" && is_digit m1 && is_digit m2
       && Ascii.eqb h2 "-" && is_digit d1 && is_digit d2
  | _ => false
  end.

End ClickView.

(** ** OAuth2 client (google-auth-library) *)

Module OAuth2.

Record OAuth2Client := {
  _clientId : string;
  _clientSecret : string;
  redirectUri : string;
}.

Record GenerateAuthUrlOpts := {
  access_type : string;
  scope : list string;
  prompt : string;
}.

(** A URL as its endpoint and the decoded name-value pairs of its query. *)
Record Url := {
  base : string;
  searchParams : list (string * string);
}.

(** [url.searchParams.get(name)]: the value of the first pair called
    [name], [null] when there is none. *)
Fixpoint searchParams_get (name : string) (params : list (string * string))
  : option string :=
  match params with
  | [] => None
  | (k, v) :: rest =>
      if String.eqb k name then Some v else searchParams_get name rest
  end.

(** Modelled from the spec: [OAuth2Client.generateAuthUrl] belongs to
    google-auth-library, which is not under src/.  The authorization URL
    carries the options it is given together with the client id and the
    redirect target of the client it is called on; an array of scopes is
    joined with spaces. *)
Definition generateAuthUrl (c : OAuth2Client) (opts : GenerateAuthUrlOpts)
  : Url :=
  {| base := "https://accounts.google.com/o/oauth2/v2/auth";
     searchParams :=
       [ ("access_type", access_type opts);
         ("scope", Js.join " " (scope opts));
         ("prompt", prompt opts);
         ("response_type", "code");
         ("client_id", _clientId c);
         ("redirect_uri", redirectUri c) ]%string |}.

End OAuth2.

(** ** googleAdsQueryTool.ts (and the identical setup and capture code of
       clickViewFeb2025.ts) *)

Module QueryTool.
Import Js.

(** *** Configuration *)

Record GoogleAdsConfig := {
  developer_token : string;
  client_id : string;
  client_secret : string;
  refresh_token : string;
  customer_id : string;
  login_customer_id : string;
}.

(** [keyof GoogleAdsConfig]. *)
Inductive Key :=
| K_developer_token
| K_client_id
| K_client_secret
| K_refresh_token
| K_customer_id
| K_login_customer_id.

(** [config[key]]. *)
Definition config_get (k : Key) (c : GoogleAdsConfig) : string :=
  match k with
  | K_developer_token => developer_token c
  | K_client_id => client_id c
  | K_client_secret => client_secret c
  | K_refresh_token => refresh_token c
  | K_customer_id => customer_id c
  | K_login_customer_id => login_customer_id c
  end.

(** [config[key] = v]. *)
Definition config_set (k : Key) (v : string) (c : GoogleAdsConfig)
  : GoogleAdsConfig :=
  match k with
  | K_developer_token =>
      {| developer_token := v; client_id := client_id c;
         client_secret := client_secret c; refresh_token := refresh_token c;
         customer_id := customer_id c;
         login_customer_id := login_customer_id c |}
  | K_client_id =>
      {| developer_token := developer_token c; client_id := v;
         client_secret := client_secret c; refresh_token := refresh_token c;
         customer_id := customer_id c;
         login_customer_id := login_customer_id c |}
  | K_client_secret =>
      {| developer_token := developer_token c; client_id := client_id c;
         client_secret := v; refresh_token := refresh_token c;
         customer_id := customer_id c;
         login_customer_id := login_customer_id c |}
  | K_refresh_token =>
      {| developer_token := developer_token c; client_id := client_id c;
         client_secret := client_secret c; refresh_token := v;
         customer_id := customer_id c;
         login_customer_id := login_customer_id c |}
  | K_customer_id =>
      {| developer_token := developer_token c; client_id := client_id c;
         client_secret := client_secret c; refresh_token := refresh_token c;
         customer_id := v; login_customer_id := login_customer_id c |}
  | K_login_customer_id =>
      {| developer_token := developer_token c; client_id := client_id c;
         client_secret := client_secret c; refresh_token := refresh_token c;
         customer_id := customer_id c; login_customer_id := v |}
  end.

(** The name of a key in the environment and in the [.env] file,
    [`GOOGLE_ADS_${key.toUpperCase()}`]. *)
Definition env_name (k : Key) : string :=
  match k with
  | K_developer_token => "GOOGLE_ADS_DEVELOPER_TOKEN"
  | K_client_id => "GOOGLE_ADS_CLIENT_ID"
  | K_client_secret => "GOOGLE_ADS_CLIENT_SECRET"
  | K_refresh_token => "GOOGLE_ADS_REFRESH_TOKEN"
  | K_customer_id => "GOOGLE_ADS_CUSTOMER_ID"
  | K_login_customer_id => "GOOGLE_ADS_LOGIN_CUSTOMER_ID"
  end.

(** [field.replace(/_/g, " ")]. *)
Definition key_words (k : Key) : string :=
  match k with
  | K_developer_token => "developer token"
  | K_client_id => "client id"
  | K_client_secret => "client secret"
  | K_refresh_token => "refresh token"
  | K_customer_id => "customer id"
  | K_login_customer_id => "login customer id"
  end.

(** [process.env.X || ""]. *)
Definition env_or_empty (o : option string) : string :=
  match o with
  | Some s => if truthy s then s else ""
  | None => ""
  end.

(** The module-level [config] object, from the environment. *)
Definition default_config (env : Key -> option string) : GoogleAdsConfig :=
  {| developer_token := env_or_empty (env K_developer_token);
     client_id := env_or_empty (env K_client_id);
     client_secret := env_or_empty (env K_client_secret);
     refresh_token := env_or_empty (env K_refresh_token);
     customer_id := env_or_empty (env K_customer_id);
     login_customer_id := env_or_empty (env K_login_customer_id) |}.

Definition requiredFields : list Key :=
  [K_developer_token; K_client_id; K_client_secret].

Definition all_keys : list Key :=
  [K_developer_token; K_client_id; K_client_secret; K_refresh_token;
   K_customer_id; K_login_customer_id].

(** *** Collaborators: Ads API client and customer *)

Record GoogleAdsApi := {
  api_client_id : string;
  api_client_secret : string;
  api_developer_token : string;
}.

Record Customer := {
  cust_customer_id : string;
  cust_refresh_token : string;
  cust_login_customer_id : option string;
}.

Definition initializeClient (c : GoogleAdsConfig) : GoogleAdsApi :=
  {| api_client_id := client_id c;
     api_client_secret := client_secret c;
     api_developer_token := developer_token c |}.

Definition createCustomerInstance (c : GoogleAdsConfig) : Customer :=
  {| cust_customer_id := customer_id c;
     cust_refresh_token := refresh_token c;
     cust_login_customer_id :=
       if truthy (login_customer_id c) then Some (login_customer_id c)
       else None |}.

(** *** The world the script mutates *)

Definition LF : string := String (ascii_of_nat 10) "".

(** A double quote. *)
Definition DQ : string := String (ascii_of_nat 34) "".

(** What the script writes.  The rows of a response are not modelled:
    [console_table n] stands for a table of [n] rows and [console_log_each n]
    for the [n] lines of a [forEach] over them. *)
Inductive Output :=
| console_log (s : string)
| console_log_url (u : OAuth2.Url)
| console_error (s : string) (detail : string)
| console_table (rows : nat)
| console_log_each (lines : nat)
| question (prompt : string)
| http_response (status : Z) (content_type : string) (body : string)
| writeFileSync (file : string) (content : string).

Record World := {
  config : GoogleAdsConfig;
  (** milliseconds on the event loop's clock *)
  clock : Z;
  (** one [authCodePromise] per server created, by server number:
      [None] while pending, [Some code] once resolved *)
  promises : list (option string);
  (** the server of this process that is bound to [port], if any *)
  port_owner : option nat;
  (** pending [setTimeout] callbacks: due time and the server to close *)
  timers : list (Z * nat);
  (** what the script has written, newest first *)
  out : list Output;
}.

Definition set_config (c : GoogleAdsConfig) (w : World) : World :=
  {| config := c; clock := clock w; promises := promises w;
     port_owner := port_owner w; timers := timers w; out := out w |}.

Definition set_clock (t : Z) (w : World) : World :=
  {| config := config w; clock := t; promises := promises w;
     port_owner := port_owner w; timers := timers w; out := out w |}.

Definition set_promises (ps : list (option string)) (w : World) : World :=
  {| config := config w; clock := clock w; promises := ps;
     port_owner := port_owner w; timers := timers w; out := out w |}.

Definition set_port_owner (o : option nat) (w : World) : World :=
  {| config := config w; clock := clock w; promises := promises w;
     port_owner := o; timers := timers w; out := out w |}.

Definition set_timers (ts : list (Z * nat)) (w : World) : World :=
  {| config := config w; clock := clock w; promises := promises w;
     port_owner := port_owner w; timers := ts; out := out w |}.

Definition emit (o : Output) (w : World) : World :=
  {| config := config w; clock := clock w; promises := promises w;
     port_owner := port_owner w; timers := timers w; out := o :: out w |}.

Definition log (s : string) (w : World) : World := emit (console_log s) w.

(** The world in which [main] starts. *)
Definition initial_world (env : Key -> option string) : World :=
  {| config := default_config env; clock := 0; promises := [];
     port_owner := None; timers := []; out := [] |}.

(** *** Control points and events *)

(** [appAnalyticsProviderId]: the default parameter or [Number(providerId)]
    of the line the operator typed. *)
Inductive ProviderId :=
| default_provider
| provider_of (line : string).

(** Where the [async] code is suspended. *)
Inductive Phase :=
| P_Field (field : Key) (rest : list Key)
| P_AskGenerate
| P_AwaitCode (server : nat)
| P_AwaitToken (authCode : string)
| P_AskRetry
| P_AskManual
| P_AskCustomerId
| P_AskUseLoginId
| P_AskLoginId
| P_Menu
| P_ListCustomers
| P_AskQuery
| P_RunQuery
| P_ListConversions (before_update : bool)
| P_AskConversionId
| P_UpdateConversion
| P_AskUseDefaultProvider
| P_AskProviderId
| P_AccessToken (provider : ProviderId)
| P_Fetch
| P_ResponseText (status : Z)
| P_ResponseJson
| P_Exited
| P_Crashed (why : string).

Definition State : Type := Phase * World.

(** What [oauth2Client.getToken] settles with. *)
Inductive TokenResult :=
| token_response (refresh : option string)
| token_error (e : string).

(** What an awaited call of the Ads API, of the token endpoint or of [fetch]
    resolves with; each caller reads the fields of its own response. *)
Record ApiValue := {
  v_length : nat;
  v_token : option string;
  v_ok : bool;
  v_status : Z;
  v_text : string;
}.

Inductive ApiResult :=
| api_ok (v : ApiValue)
| api_error (instanceof_Error : bool) (message : string).

(** What the event loop delivers. *)
Inductive Event :=
| EvRequest (url : string)
| EvElapse (ms : Z)
| EvLine (answer : string)
| EvToken (r : TokenResult)
| EvApi (r : ApiResult).

Definition port : Z := 8080.

Definition is_yes (answer : string) : bool :=
  String.eqb answer "yes" || String.eqb answer "y".

Definition ask (prompt : string) (ph : Phase) (w : World) : State :=
  (ph, emit (question prompt) w).

(** *** The capture listener *)

Definition success_page : string :=
  (LF +:+ "                <html>"
   +:+ LF +:+ "                    <body>"
   +:+ LF +:+ "                        <h1>Authentication Successful</h1>"
   +:+ LF +:+ "                        <p>You have successfully authenticated with Google Ads API.</p>"
   +:+ LF +:+ "                        <p>You can close this window and return to the application.</p>"
   +:+ LF +:+ "                    </body>"
   +:+ LF +:+ "                </html>"
   +:+ LF +:+ "            ")%string.

Definition failure_page : string :=
  (LF +:+ "                <html>"
   +:+ LF +:+ "                    <body>"
   +:+ LF +:+ "                        <h1>Authentication Failed</h1>"
   +:+ LF +:+ "                        <p>No authorization code was received.</p>"
   +:+ LF +:+ "                        <p>Please try again.</p>"
   +:+ LF +:+ "                    </body>"
   +:+ LF +:+ "                </html>"
   +:+ LF +:+ "            ")%string.

(** [resolveAuthCodePromise(code)] of server [sid]: settles the promise if
    it is pending, and does nothing to a settled one. *)
Definition resolveAuthCodePromise (sid : nat) (code : string) (w : World)
  : World :=
  match promises w !! sid with
  | Some None => set_promises (<[sid := Some code]> (promises w)) w
  | _ => w
  end.

(** [setTimeout(() => server.close(), delay)]. *)
Definition setTimeout_close (delay : Z) (sid : nat) (w : World) : World :=
  set_timers ((clock w + delay, sid) :: timers w) w.

(** [server.close()]: the server stops listening; nothing happens when it
    is not listening. *)
Definition server_close (sid : nat) (w : World) : World :=
  match port_owner w with
  | Some owner => if Nat.eqb owner sid then set_port_owner None w else w
  | None => w
  end.

(** [ok] holds of every event of a run, in the state it arrives in. *)
Fixpoint all_along {S E : Type} (step : S -> E -> S) (ok : S -> E -> Prop)
  (st : S) (events : list E) : Prop :=
  match events with
  | [] => True
  | ev :: rest => ok st ev /\ all_along step ok (step st ev) rest
  end.

Section Listener.

(** [new URL(req.url, `http://localhost:${port}`).searchParams], by the URL
    parser of the platform; [None] when the constructor throws. *)
Variable parse_url : string -> option (list (string * string)).

(** The ["request"] handler of server [sid]; [None] when it throws. *)
Definition handler (sid : nat) (req_url : string) (w : World) : option World :=
  match parse_url req_url with
  | None => None
  | Some params =>
      let code := OAuth2.searchParams_get "code" params in
      if truthy_opt code then
        let w1 := emit (http_response 200 "text/html" success_page) w in
        let w2 := resolveAuthCodePromise sid (default ""%string code) w1 in
        Some (setTimeout_close 1000 sid w2)
      else
        Some (emit (http_response 400 "text/html" failure_page) w)
  end.

(** *** Setup: [promptForMissingConfig] and [generateAuthUrl] *)

Definition menu_text : list string :=
  [ LF +:+ "========================================";
    "Main Menu";
    "========================================";
    "1. List accessible customer accounts";
    "2. Run GAQL query";
    "3. List conversion actions";
    "4. Update conversion action status (HIDDEN → ENABLED)";
    "5. Create Third-Party App Analytics Link";
    "6. Exit" ]%string.

(** The top of the [while (!exitProgram)] loop, up to the question. *)
Definition main_menu (w : World) : State :=
  ask (LF +:+ "Select an option (1-6): ") P_Menu
    (fold_left (fun w s => log s w) menu_text w).

(** [`GOOGLE_ADS_${key.toUpperCase()}=${value}`], joined by newlines. *)
Definition envContent (c : GoogleAdsConfig) : string :=
  join LF (map (fun k => env_name k +:+ "=" +:+ config_get k c) all_keys).

(** The end of [promptForMissingConfig] and the return into [main]. *)
Definition save_config (w : World) : State :=
  let w1 := emit (writeFileSync ".env" (envContent (config w))) w in
  let w2 := log (LF +:+ "Configuration saved to .env file.") w1 in
  main_menu (log (LF +:+ "✅ Authentication completed successfully!") w2).

Definition login_section (w : World) : State :=
  if negb (truthy (login_customer_id (config w))) then
    ask "Do you want to specify a login customer ID? (yes/no): "
      P_AskUseLoginId w
  else save_config w.

Definition customer_section (w : World) : State :=
  if negb (truthy (customer_id (config w))) then
    ask "Please enter the customer ID you want to query (without dashes): "
      P_AskCustomerId w
  else login_section w.

Definition scopes : list string := ["https://www.googleapis.com/auth/adwords"]%string.

Definition redirect_target : string :=
  ("http://localhost:" +:+ String_of_number port)%string.

(** The URL the operator is told to open. *)
Definition authorizeUrl (c : GoogleAdsConfig) : OAuth2.Url :=
  let oauth2Client :=
    {| OAuth2._clientId := client_id c;
       OAuth2._clientSecret := client_secret c;
       OAuth2.redirectUri := redirect_target |} in
  OAuth2.generateAuthUrl oauth2Client
    {| OAuth2.access_type := "offline";
       OAuth2.scope := scopes;
       OAuth2.prompt := "consent" |}.

Definition instructions (c : GoogleAdsConfig) (w : World) : World :=
  let w1 := log (LF +:+ "==================== AUTHORIZATION INSTRUCTIONS ====================") w in
  let w2 := log (LF +:+ "1. Open this URL in your browser:") w1 in
  let w3 := emit (console_log_url (authorizeUrl c)) w2 in
  let w4 := log (LF +:+ "2. Sign in with your Google account") w3 in
  let w5 := log "3. Grant permissions requested by the application" w4 in
  let w6 := log "4. You will be redirected to localhost where the code will be automatically captured" w5 in
  log (LF +:+ "=====================================================================") w6.

(** [generateAuthUrl] up to [await authCodePromise].  A new server and its
    promise are created and the server is told to listen on [port]; when a
    server of the process still holds the port, the new server emits an
    ['error'] event (EADDRINUSE) that nothing listens for, which ends the
    process. *)
Definition generateAuthUrl (w : World) : State :=
  let sid := length (promises w) in
  let w1 := set_promises (promises w ++ [None]) w in
  let w2 := instructions (config w1) w1 in
  let w3 := log (LF +:+ "Waiting for authentication in browser...") w2 in
  match port_owner w3 with
  | Some _ => (P_Crashed "listen EADDRINUSE: address already in use :::8080", w3)
  | None =>
      let w4 := set_port_owner (Some sid) w3 in
      (P_AwaitCode sid,
       log "Local authentication server started on port 8080" w4)
  end.

Definition ask_retry (w : World) : State :=
  ask "Would you like to try again? (yes/no): " P_AskRetry w.

(** [generateAuthUrl] after [authCodePromise] has resolved, up to
    [await oauth2Client.getToken(authCode)]. *)
Definition code_received (authCode : string) (w : World) : State :=
  (P_AwaitToken authCode,
   log (LF +:+ "Authorization code received! Exchanging for refresh token...") w).

(** [generateAuthUrl] after [getToken] has settled. *)
Definition on_token (r : TokenResult) (w : World) : State :=
  match r with
  | token_response refresh =>
      if truthy_opt refresh then
        let w1 :=
          set_config
            (config_set K_refresh_token (default ""%string refresh) (config w)) w in
        customer_section (log (LF +:+ "✅ Successfully obtained refresh token!") w1)
      else
        ask_retry
          (emit (console_error
                   (LF +:+ "❌ No refresh token returned. Please ensure you set prompt: "
                    +:+ DQ +:+ "consent" +:+ DQ +:+ " and try again.") "") w)
  | token_error e =>
      ask_retry (emit (console_error (LF +:+ "❌ Error during authentication:") e) w)
  end.

(** The answer to the retry question, already in lower case. *)
Definition on_retry (retry : string) (w : World) : State :=
  if is_yes retry then generateAuthUrl w else customer_section w.

Definition refresh_section (w : World) : State :=
  if negb (truthy (refresh_token (config w))) then
    let w1 := log (LF +:+ "You need to obtain a refresh token for Google Ads API authentication.") w in
    let w2 := log "Would you like to generate an authorization URL to get a refresh token? (yes/no)" w1 in
    ask "> " P_AskGenerate w2
  else customer_section w.

(** The [for (const field of requiredFields)] loop from [fields] on. *)
Fixpoint prompt_required (fields : list Key) (w : World) : State :=
  match fields with
  | [] => refresh_section w
  | field :: rest =>
      if negb (truthy (config_get field (config w))) then
        ask ("Please enter your " +:+ key_words field +:+ ": ")
          (P_Field field rest) w
      else prompt_required rest w
  end.

Definition promptForMissingConfig (w : World) : State :=
  prompt_required requiredFields w.

(** [main] up to its first suspension. *)
Definition main (w : World) : State :=
  let w1 := log "========================================" w in
  let w2 := log "Google Ads API Query Tool" w1 in
  promptForMissingConfig (log "========================================" w2).

(** *** The operations of the menu *)

Definition using_ids (w : World) : World :=
  let w1 := log ("Using customer ID: " +:+ customer_id (config w)) w in
  if truthy (login_customer_id (config w1)) then
    log ("Using login customer ID: " +:+ login_customer_id (config w1)) w1
  else w1.

(** [console.error(msg, error)] of a [catch] block, followed by the
    [Error details] line of the blocks that print it. *)
Definition report_error (msg : string) (details : bool) (is_Error : bool)
  (message : string) (w : World) : World :=
  let w1 := emit (console_error msg message) w in
  if details && is_Error then
    emit (console_error ("Error details: " +:+ message) "") w1
  else w1.

(** [listAccessibleCustomers] up to its [await]. *)
Definition listAccessibleCustomers (w : World) : State :=
  (P_ListCustomers, log (LF +:+ "Listing accessible customer accounts...") w).

Definition listAccessibleCustomers_resume (r : ApiResult) (w : World) : World :=
  match r with
  | api_ok response =>
      if (0 <? v_length response)%nat then
        let w1 := log (LF +:+ "✅ Found "
                         +:+ String_of_number (Z.of_nat (v_length response))
                         +:+ " accessible customer accounts:") w in
        emit (console_log_each (v_length response)) w1
      else log (LF +:+ "⚠️ No accessible customer accounts found.") w
  | api_error _ e =>
      emit (console_error (LF +:+ "❌ Error listing accessible customers:") e) w
  end.

(** [runGaqlQuery] up to its [await]. *)
Definition runGaqlQuery (gaqlQuery : string) (w : World) : State :=
  (P_RunQuery, using_ids (log (LF +:+ "Running query...") w)).

Definition runGaqlQuery_resume (r : ApiResult) (w : World) : World :=
  match r with
  | api_ok results =>
      if (0 <? v_length results)%nat then
        let w1 := log (LF +:+ "✅ Query returned "
                         +:+ String_of_number (Z.of_nat (v_length results))
                         +:+ " results:") w in
        let w2 := emit (console_table (v_length results)) w1 in
        let w3 := log (LF +:+ "Raw results (for reference):") w2 in
        log (v_text results) w3
      else log (LF +:+ "⚠️ Query returned no results.") w
  | api_error _ e =>
      emit (console_error (LF +:+ "❌ Error running GAQL query:") e) w
  end.

(** [listConversionActions] up to its [await]. *)
Definition listConversionActions (before_update : bool) (w : World) : State :=
  let w1 := log (LF +:+ "Listing conversion actions...") w in
  (P_ListConversions before_update,
   log ("Using customer ID: " +:+ customer_id (config w1)) w1).

Definition listConversionActions_resume (r : ApiResult) (w : World) : World :=
  match r with
  | api_ok results =>
      if (0 <? v_length results)%nat then
        let w1 := log (LF +:+ "✅ Found "
                         +:+ String_of_number (Z.of_nat (v_length results))
                         +:+ " conversion actions:") w in
        emit (console_table (v_length results)) w1
      else log (LF +:+ "⚠️ No conversion actions found.") w
  | api_error _ e =>
      emit (console_error (LF +:+ "❌ Error listing conversion actions:") e) w
  end.

(** [updateConversionActionStatus] up to its [await]. *)
Definition updateConversionActionStatus (conversionActionId : string)
  (w : World) : State :=
  (P_UpdateConversion,
   using_ids (log (LF +:+ "Updating conversion action status...") w)).

Definition updateConversionActionStatus_resume (r : ApiResult) (w : World)
  : World :=
  match r with
  | api_ok response =>
      if (0 <? v_length response)%nat then
        let w1 := log (LF +:+ "✅ Successfully updated conversion action status to ENABLED:") w in
        log ("Resource Name: " +:+ v_text response) w1
      else log (LF +:+ "⚠️ Update operation completed but no results returned.") w
  | api_error is_Error e =>
      report_error (LF +:+ "❌ Error updating conversion action status:")
        true is_Error e w
  end.

(** The [catch] block of [createThirdPartyAppAnalyticsLink]. *)
Definition thirdParty_catch (is_Error : bool) (e : string) (w : World) : World :=
  report_error (LF +:+ "❌ Error creating Third-Party App Analytics Link:")
    true is_Error e w.

(** [createThirdPartyAppAnalyticsLink] up to [await getAccessToken()]. *)
Definition createThirdPartyAppAnalyticsLink (provider : ProviderId)
  (w : World) : State :=
  (P_AccessToken provider,
   using_ids (log (LF +:+ "Creating Third-Party App Analytics Link...") w)).

(** *** One turn of the event loop *)

(** The timers that are due fire: each closes its server. *)
Definition fire_timers (w : World) : World :=
  let due := filter (fun t => fst t <= clock w) (timers w) in
  let rest := filter (fun t => ~ (fst t <= clock w)) (timers w) in
  fold_right (fun t w => server_close (snd t) w) (set_timers rest w) due.

Definition elapse (ms : Z) (w : World) : World :=
  fire_timers (set_clock (clock w + Z.max 0 ms) w).

(** An inbound request: it reaches the server that is bound to the port and
    runs its handler; afterwards the code that awaits the promise of that
    server resumes if the promise is resolved. *)
Definition deliver (req_url : string) (ph : Phase) (w : World) : State :=
  match port_owner w with
  | None => (ph, w)
  | Some sid =>
      match handler sid req_url w with
      | None => (P_Crashed "TypeError: Invalid URL", w)
      | Some w' =>
          match ph with
          | P_AwaitCode awaited =>
              match promises w' !! awaited with
              | Some (Some authCode) => code_received authCode w'
              | _ => (ph, w')
              end
          | _ => (ph, w')
          end
      end
  end.

(** A line typed by the operator resolves the pending question, if any. *)
Definition on_line (ph : Phase) (answer : string) (w : World) : State :=
  match ph with
  | P_Field field rest =>
      prompt_required rest
        (set_config (config_set field answer (config w)) w)
  | P_AskGenerate =>
      if is_yes (toLowerCase answer) then generateAuthUrl w
      else ask "Please enter your refresh token manually: " P_AskManual w
  | P_AskManual =>
      customer_section
        (set_config (config_set K_refresh_token answer (config w)) w)
  | P_AskRetry => on_retry (toLowerCase answer) w
  | P_AskCustomerId =>
      login_section
        (set_config (config_set K_customer_id answer (config w)) w)
  | P_AskUseLoginId =>
      if is_yes (toLowerCase answer) then
        ask "Please enter the login customer ID: " P_AskLoginId w
      else save_config w
  | P_AskLoginId =>
      save_config
        (set_config (config_set K_login_customer_id answer (config w)) w)
  | P_Menu =>
      if String.eqb answer "1" then listAccessibleCustomers w
      else if String.eqb answer "2" then
        let w1 := log (LF +:+ "Enter your GAQL query:") w in
        let w2 := log "Example: SELECT campaign.id, campaign.name, metrics.impressions FROM campaign" w1 in
        ask "> " P_AskQuery w2
      else if String.eqb answer "3" then listConversionActions false w
      else if String.eqb answer "4" then listConversionActions true w
      else if String.eqb answer "5" then
        ask (LF +:+ "Use default App Analytics Provider ID (8650286658)? (yes/no): ")
          P_AskUseDefaultProvider w
      else if String.eqb answer "6" then
        (P_Exited, log (LF +:+ "Thank you for using Google Ads API Query Tool!") w)
      else
        main_menu
          (log (LF +:+ "⚠️ Invalid option. Please select a number between 1 and 6.") w)
  | P_AskQuery => runGaqlQuery answer w
  | P_AskConversionId =>
      if truthy answer then updateConversionActionStatus answer w
      else
        main_menu
          (log (LF +:+ "⚠️ No conversion action ID provided. Operation cancelled.") w)
  | P_AskUseDefaultProvider =>
      if is_yes (toLowerCase answer) then
        createThirdPartyAppAnalyticsLink default_provider w
      else ask (LF +:+ "Enter the App Analytics Provider ID: ") P_AskProviderId w
  | P_AskProviderId =>
      if truthy answer then
        createThirdPartyAppAnalyticsLink (provider_of answer) w
      else
        createThirdPartyAppAnalyticsLink default_provider
          (log (LF +:+ "⚠️ No provider ID provided. Using default (8650286658).") w)
  | _ => (ph, w)
  end.

(** The awaited call settles and the operation runs to its end, or to its
    next [await]. *)
Definition on_api (ph : Phase) (r : ApiResult) (w : World) : State :=
  match ph with
  | P_ListCustomers => main_menu (listAccessibleCustomers_resume r w)
  | P_RunQuery => main_menu (runGaqlQuery_resume r w)
  | P_ListConversions before_update =>
      let w1 := listConversionActions_resume r w in
      if before_update then
        ask (LF +:+ "Enter the ID of the conversion action to update from HIDDEN to ENABLED: ")
          P_AskConversionId w1
      else main_menu w1
  | P_UpdateConversion => main_menu (updateConversionActionStatus_resume r w)
  | P_AccessToken provider =>
      match r with
      | api_ok tokenResponse =>
          if negb (truthy_opt (v_token tokenResponse)) then
            main_menu (thirdParty_catch true "Failed to obtain access token" w)
          else (P_Fetch, w)
      | api_error is_Error e => main_menu (thirdParty_catch is_Error e w)
      end
  | P_Fetch =>
      match r with
      | api_ok response =>
          if negb (v_ok response) then (P_ResponseText (v_status response), w)
          else (P_ResponseJson, w)
      | api_error is_Error e => main_menu (thirdParty_catch is_Error e w)
      end
  | P_ResponseText status =>
      match r with
      | api_ok errorText =>
          main_menu
            (thirdParty_catch true
               ("API request failed with status " +:+ String_of_number status
                  +:+ ": " +:+ v_text errorText) w)
      | api_error is_Error e => main_menu (thirdParty_catch is_Error e w)
      end
  | P_ResponseJson =>
      match r with
      | api_ok responseData =>
          if (0 <? v_length responseData)%nat then
            let w1 := log (LF +:+ "✅ Successfully created Third-Party App Analytics Link:") w in
            main_menu (log (v_text responseData) w1)
          else
            let w1 := log (LF +:+ "⚠️ Operation completed but no results returned.") w in
            main_menu (log (v_text responseData) w1)
      | api_error is_Error e => main_menu (thirdParty_catch is_Error e w)
      end
  | _ => (ph, w)
  end.

Definition terminal (ph : Phase) : bool :=
  match ph with
  | P_Exited | P_Crashed _ => true
  | _ => false
  end.

Definition step (st : State) (ev : Event) : State :=
  let (ph, w) := st in
  if terminal ph then st
  else
    match ev with
    | EvRequest req_url => deliver req_url ph w
    | EvElapse ms => (ph, elapse ms w)
    | EvLine answer => on_line ph answer w
    | EvToken r =>
        match ph with
        | P_AwaitToken _ => on_token r w
        | _ => st
        end
    | EvApi r => on_api ph r w
    end.

(** The script runs from a state through a sequence of events. *)
Definition run (st : State) (events : list Event) : State :=
  fold_left step events st.

(** *** Vocabulary of the statements *)

(** The phases in which a call of the Ads API, of the token endpoint or of
    [fetch] is awaited. *)
Definition api_phase (ph : Phase) : bool :=
  match ph with
  | P_ListCustomers | P_RunQuery | P_ListConversions _ | P_UpdateConversion
  | P_AccessToken _ | P_Fetch | P_ResponseText _ | P_ResponseJson => true
  | _ => false
  end.

(** The phases of the menu loop, after [promptForMissingConfig] returned. *)
Definition post_setup (ph : Phase) : bool :=
  match ph with
  | P_Menu | P_AskQuery | P_AskConversionId | P_AskUseDefaultProvider
  | P_AskProviderId => true
  | _ => api_phase ph
  end.

(** The questions whose answer is stored as a credential. *)
Definition credential_prompt (ph : Phase) : bool :=
  match ph with
  | P_Field _ _ | P_AskManual => true
  | _ => false
  end.

(** The operator gives no empty answer to a credential prompt and does not
    decline the retry prompt. *)
Definition event_ok (st : State) (ev : Event) : Prop :=
  match ev with
  | EvLine answer =>
      (credential_prompt (fst st) = true -> answer <> ""%string) /\
      (fst st = P_AskRetry -> is_yes (toLowerCase answer) = true)
  | _ => True
  end.

Definition run_ok (st : State) (events : list Event) : Prop :=
  all_along step event_ok st events.

End Listener.

(** Two worlds that differ at most in what has been written. *)
Definition same_but_out (w w' : World) : Prop :=
  config w' = config w /\ clock w' = clock w /\ promises w' = promises w /\
  port_owner w' = port_owner w /\ timers w' = timers w.

(** Every promise settled in [w] is settled with the same code in [w']. *)
Definition kept (w w' : World) : Prop :=
  forall sid code,
    promises w !! sid = Some (Some code) ->
    promises w' !! sid = Some (Some code).

(** The three credentials every API call needs. *)
Definition required_ready (c : GoogleAdsConfig) : Prop :=
  developer_token c <> ""%string /\ client_id c <> ""%string /\
  client_secret c <> ""%string.

(** What holds of the credentials at each control point of a run in which
    the operator behaves as [event_ok] says. *)
Definition credentials_inv (st : State) : Prop :=
  let c := config (snd st) in
  match fst st with
  | P_Field field rest =>
      forall k, In k requiredFields -> ~ In k (field :: rest) ->
                config_get k c <> ""%string
  | P_AskGenerate | P_AwaitCode _ | P_AwaitToken _ | P_AskRetry | P_AskManual =>
      required_ready c
  | P_Crashed _ => True
  | _ => required_ready c /\ refresh_token c <> ""%string
  end.

(** *** The URL parser of the platform, on request targets

  [new URL(req.url, "http://localhost:8080").searchParams] after the URL
  Standard, as far as a request target exercises it.  A target that starts
  with two slashes (or backslashes) names a host of its own, and the
  constructor throws when that host is missing; the host is not checked any
  further.  The query runs from the first [?] to the first [#]; it is cut
  at every [&], each piece at its first [=], and in names and values [+]
  becomes a space and [%XX] the byte it names.  Strings are sequences of
  bytes: what the bytes of a name or value mean as UTF-8 is left alone. *)

Fixpoint split_at (sep : ascii) (s : string) : string * option string :=
  match s with
  | EmptyString => (EmptyString, None)
  | String c rest =>
      if Ascii.eqb c sep then (EmptyString, Some rest)
      else let (a, b) := split_at sep rest in (String c a, b)
  end.

Fixpoint split_all (fuel : nat) (sep : ascii) (s : string) : list string :=
  match fuel with
  | O => [s]
  | S fuel' =>
      match split_at sep s with
      | (a, None) => [a]
      | (a, Some rest) => a :: split_all fuel' sep rest
      end
  end.

Definition is_slash (c : ascii) : bool :=
  Ascii.eqb c "/" || Ascii.eqb c (ascii_of_nat 92).

(** The text before the first character that [stop] accepts, and the text
    from that character on. *)
Fixpoint span_until (stop : ascii -> bool) (s : string) : string * string :=
  match s with
  | EmptyString => (EmptyString, EmptyString)
  | String c rest =>
      if stop c then (EmptyString, s)
      else let (a, b) := span_until stop rest in (String c a, b)
  end.

Fixpoint skip_slashes (s : string) : string :=
  match s with
  | EmptyString => EmptyString
  | String c rest => if is_slash c then skip_slashes rest else s
  end.

(** The text after the last [sep], when there is one. *)
Fixpoint after_last (sep : ascii) (s : string) : option string :=
  match s with
  | EmptyString => None
  | String c rest =>
      match after_last sep rest with
      | Some t => Some t
      | None => if Ascii.eqb c sep then Some rest else None
      end
  end.

(** The host of an authority: what follows the credentials, up to the
    port. *)
Definition host_of (authority : string) : string :=
  fst (split_at ":" (default authority (after_last "@" authority))).

Definition hex_value (c : ascii) : option nat :=
  let n := nat_of_ascii c in
  if ((48 <=? n) && (n <=? 57))%nat then Some (n - 48)%nat
  else if ((65 <=? n) && (n <=? 70))%nat then Some (n - 55)%nat
  else if ((97 <=? n) && (n <=? 102))%nat then Some (n - 87)%nat
  else None.

(** A name or value of the query, decoded. *)
Fixpoint form_decode (s : string) : string :=
  match s with
  | EmptyString => EmptyString
  | String c rest =>
      if Ascii.eqb c "+" then String " " (form_decode rest)
      else if Ascii.eqb c "%" then
        match rest with
        | String a (String b rest') =>
            match hex_value a, hex_value b with
            | Some h, Some l =>
                String (ascii_of_nat (16 * h + l)) (form_decode rest')
            | _, _ => String c (form_decode rest)
            end
        | _ => String c (form_decode rest)
        end
      else String c (form_decode rest)
  end.

Definition search_pairs (query : string) : list (string * string) :=
  map (fun piece => let (k, v) := split_at "=" piece in
                    (form_decode k, form_decode (default ""%string v)))
    (filter (fun piece => piece <> ""%string)
       (split_all (String.length query) "&" query)).

(** The query of a target: from the first [?] to the first [#]. *)
Definition query_of (s : string) : string :=
  match split_at "?" (fst (split_at "#" s)) with
  | (_, None) => ""
  | (_, Some query) => query
  end.

Definition plain_parse_url (req_url : string) : option (list (string * string)) :=
  match req_url with
  | String c1 (String c2 rest) =>
      if is_slash c1 && is_slash c2 then
        let (authority, tail) :=
          span_until
            (fun c => is_slash c || Ascii.eqb c "?" || Ascii.eqb c "#")
            (skip_slashes rest) in
        if String.eqb (host_of authority) "" then None
        else Some (search_pairs (query_of tail))
      else Some (search_pairs (query_of req_url))
  | _ => Some (search_pairs (query_of req_url))
  end.

(** An environment that provides the three required credentials and
    nothing else. *)
Definition sample_env (k : Key) : option string :=
  match k with
  | K_developer_token => Some "dev-token"%string
  | K_client_id => Some "client-1"%string
  | K_client_secret => Some "secret-1"%string
  | _ => None
  end.

(** An environment in which only the developer token is missing. *)
Definition env_without_developer_token (k : Key) : option string :=
  match k with
  | K_developer_token => None
  | K_client_id => Some "client-1"%string
  | K_client_secret => Some "secret-1"%string
  | K_refresh_token => Some "refresh-1"%string
  | K_customer_id => Some "1234567890"%string
  | K_login_customer_id => Some "9876543210"%string
  end.

(** The script with [sample_env], suspended in [generateAuthUrl] after the
    operator has asked for an authorization URL. *)
Definition awaiting_redirect : State :=
  Eval vm_compute in
    run plain_parse_url (main (initial_world sample_env)) [EvLine "yes"].

(** The exchanges that leave the script without a refresh token. *)
Definition exchange_failed (r : TokenResult) : Prop :=
  match r with
  | token_response refresh => truthy_opt refresh = false
  | token_error _ => True
  end.

End QueryTool.

(** ** archive/googleAdsPlayground.ts: the authorization request *)

Module Archive.

(** The URL printed by [generateAuthUrl] of the archived playground, which
    has the operator paste the code and starts no listener. *)
Definition authorizeUrl (client_id client_secret : string) : OAuth2.Url :=
  let oauth2Client :=
    {| OAuth2._clientId := client_id;
       OAuth2._clientSecret := client_secret;
       OAuth2.redirectUri := "urn:ietf:wg:oauth:2.0:oob" |} in
  OAuth2.generateAuthUrl oauth2Client
    {| OAuth2.access_type := "offline";
       OAuth2.scope := ["https://www.googleapis.com/auth/adwords"]%string;
       OAuth2.prompt := "consent" |}.

End Archive.

(** ** archive/googleAdsPlayground.ts: the menu of example queries

  [showExampleQueriesMenu] calls itself instead of looping.  A call that is
  suspended on the call it made is a frame of the stack; the frame records
  what is left to do in the caller once the callee returns. *)

Module ArchiveMenu.
Import Js.

Inductive Output :=
| log (s : string)
| error (s : string) (detail : string)
| table
| question (prompt : string)
(** a query that is sent and not awaited *)
| query_not_awaited (gaql : string).

Inductive Frame :=
(** the call in [default:]; when it returns, the [switch] is left and the
    call at the end of the function is made *)
| F_again
(** the call at the end of the function; when it returns, so does the
    caller *)
| F_last.

(** The six reports of the menu. *)
Inductive Op :=
| Campaigns | AdGroups | Keywords | Ads | AccountPerformance
| CampaignPerformance.

Inductive Control :=
(** in [showExampleQueriesMenu], at the question for the choice *)
| C_Choice
(** in one of the six report functions, at [await customer.report] *)
| C_Report (op : Op)
(** in [runCustomQuery], at the question for the query *)
| C_CustomLine
(** in [runCustomQuery], at [await customer.query] *)
| C_CustomQuery
(** the first call of [showExampleQueriesMenu] has returned to [main] *)
| C_Returned
(** the process ended on an unhandled rejection *)
| C_Crashed.

Record State := {
  control : Control;
  stack : list Frame;
  out : list Output;
  (** the promises nobody awaits *)
  floating : nat;
}.

(** What an awaited report or query settles with. *)
Inductive Settled :=
| resolved (rows : nat) (json : string)
| rejected (e : string).

Inductive Event :=
| Line (answer : string)
| Report (r : Settled)
(** a promise that nobody awaits is rejected *)
| Unhandled.

Definition LF : string := String (ascii_of_nat 10) "".

Definition emit (o : Output) (st : State) : State :=
  {| control := control st; stack := stack st; out := o :: out st;
     floating := floating st |}.

Definition goto (c : Control) (st : State) : State :=
  {| control := c; stack := stack st; out := out st; floating := floating st |}.

Definition menu_text : list string :=
  [ LF +:+ "Available Example Queries:";
    "1. List Campaigns";
    "2. List Ad Groups";
    "3. List Keywords";
    "4. List Ads";
    "5. Get Account Performance";
    "6. Get Campaign Performance";
    "7. Run Custom GAQL Query";
    "8. Exit" ]%string.

(** A call of [showExampleQueriesMenu] up to its question; [frames] is the
    stack of its callers. *)
Definition showExampleQueriesMenu (frames : list Frame) (st : State) : State :=
  let st1 := fold_left (fun st s => emit (log s) st) menu_text st in
  let st2 := emit (question (LF +:+ "Select an option (1-8): ")) st1 in
  {| control := C_Choice; stack := frames; out := out st2;
     floating := floating st2 |}.

(** A call of [showExampleQueriesMenu] returns to the callers [frames]. *)
Fixpoint return_to (frames : list Frame) (st : State) : State :=
  match frames with
  | [] =>
      {| control := C_Returned; stack := []; out := out st;
         floating := floating st |}
  | F_again :: callers => showExampleQueriesMenu (F_last :: callers) st
  | F_last :: callers => return_to callers st
  end.

(** After the [switch]: [await showExampleQueriesMenu()]. *)
Definition show_again (st : State) : State :=
  showExampleQueriesMenu (F_last :: stack st) st.

Definition report_title (op : Op) : string :=
  match op with
  | Campaigns => LF +:+ "Campaigns:"
  | AdGroups => LF +:+ "Ad Groups:"
  | Keywords => LF +:+ "Keywords:"
  | Ads => LF +:+ "Ads:"
  | AccountPerformance => LF +:+ "Account Performance (Last 30 Days):"
  | CampaignPerformance => LF +:+ "Campaign Performance (Last 30 Days):"
  end%string.

Definition report_failure (op : Op) : string :=
  match op with
  | Campaigns => "Error running campaigns query:"
  | AdGroups => "Error running ad groups query:"
  | Keywords => "Error running keywords query:"
  | Ads => "Error running ads query:"
  | AccountPerformance => "Error running account performance query:"
  | CampaignPerformance => "Error running campaign performance query:"
  end%string.

(** A report function from its [await] to its end. *)
Definition report_resume (op : Op) (r : Settled) (st : State) : State :=
  match r with
  | resolved rows _ =>
      match op with
      | AdGroups =>
          let st1 :=
            emit (query_not_awaited (LF +:+ "            "))
              {| control := control st; stack := stack st; out := out st;
                 floating := S (floating st) |} in
          emit table (emit (log (report_title op)) st1)
      | AccountPerformance =>
          if (0 <? rows)%nat then emit table (emit (log (report_title op)) st)
          else emit (log "No account performance data available") st
      | _ => emit table (emit (log (report_title op)) st)
      end
  | rejected e => emit (error (report_failure op) e) st
  end.

(** [runCustomQuery] up to its question. *)
Definition runCustomQuery (st : State) : State :=
  let st1 := emit (log (LF +:+ "Enter your GAQL query:")) st in
  let st2 :=
    emit (log "Example: SELECT campaign.id, campaign.name, metrics.impressions FROM campaign")
      st1 in
  goto C_CustomLine (emit (question "> ") st2).

Definition runCustomQuery_resume (r : Settled) (st : State) : State :=
  match r with
  | resolved _ json => emit (log json) (emit (log (LF +:+ "Query Results:")) st)
  | rejected e => emit (error "Error running custom query:" e) st
  end.

(** The [switch] of [showExampleQueriesMenu]. *)
Definition on_choice (choice : string) (st : State) : State :=
  if String.eqb choice "1" then goto (C_Report Campaigns) st
  else if String.eqb choice "2" then goto (C_Report AdGroups) st
  else if String.eqb choice "3" then goto (C_Report Keywords) st
  else if String.eqb choice "4" then goto (C_Report Ads) st
  else if String.eqb choice "5" then goto (C_Report AccountPerformance) st
  else if String.eqb choice "6" then goto (C_Report CampaignPerformance) st
  else if String.eqb choice "7" then runCustomQuery st
  else if String.eqb choice "8" then return_to (stack st) st
  else
    showExampleQueriesMenu (F_again :: stack st)
      (emit (log "Invalid option. Please try again.") st).

Definition step (st : State) (ev : Event) : State :=
  match control st, ev with
  | (C_Returned | C_Crashed), _ => st
  | _, Unhandled =>
      if (0 <? floating st)%nat then goto C_Crashed st else st
  | C_Choice, Line choice => on_choice choice st
  | C_Report op, Report r => show_again (report_resume op r st)
  | C_CustomLine, Line gaqlQuery => goto C_CustomQuery st
  | C_CustomQuery, Report r => show_again (runCustomQuery_resume r st)
  | _, _ => st
  end.

Definition run (st : State) (events : list Event) : State :=
  fold_left step events st.

(** [await showExampleQueriesMenu()] of [main]. *)
Definition main_menu : State :=
  showExampleQueriesMenu []
    {| control := C_Choice; stack := []; out := []; floating := 0 |}.

(** *** Vocabulary of the statements *)

(** The answers of a run that were read as choices of the menu. *)
Fixpoint choices (st : State) (events : list Event) : list string :=
  match events with
  | [] => []
  | ev :: rest =>
      match control st, ev with
      | C_Choice, Line choice => choice :: choices (step st ev) rest
      | _, _ => choices (step st ev) rest
      end
  end.

Definition is_exit (choice : string) : bool := String.eqb choice "8".

Definition is_option (choice : string) : bool :=
  existsb (String.eqb choice) ["1"; "2"; "3"; "4"; "5"; "6"; "7"; "8"]%string.

Fixpoint count {A : Type} (p : A -> bool) (l : list A) : nat :=
  match l with
  | [] => 0
  | x :: rest => if p x then S (count p rest) else count p rest
  end.

(** How often Exit was chosen, and how often something that is no option
    of the menu. *)
Definition exits (l : list string) : nat := count is_exit l.

Definition invalid (l : list string) : nat :=
  count (fun c => negb (is_option c)) l.

Definition is_again (f : Frame) : bool :=
  match f with
  | F_again => true
  | F_last => false
  end.

(** How many times Exit has still to be chosen before [main] goes on. *)
Definition owed (st : State) : nat :=
  match control st with
  | C_Returned | C_Crashed => 0
  | _ => S (count is_again (stack st))
  end.

End ArchiveMenu.

(** ** Vocabulary of the statements about whole runs *)

Module Runs.
Import Js QueryTool.

(** The world still holds every value that [c0] holds. *)
Definition keeps (c0 : GoogleAdsConfig) (w : World) : Prop :=
  forall k, config_get k c0 <> ""%string ->
            config_get k (config w) = config_get k c0.

(** What a run keeps of the configuration [c0] it started with: a value
    that was there is still there, and a question about a value is pending
    only while that value is empty. *)
Definition preset_inv (c0 : GoogleAdsConfig) (st : State) : Prop :=
  (forall k, config_get k c0 <> ""%string ->
             config_get k (config (snd st)) = config_get k c0) /\
  match fst st with
  | P_Field field _ => config_get field (config (snd st)) = ""%string
  | P_AskGenerate | P_AwaitCode _ | P_AwaitToken _ | P_AskRetry | P_AskManual =>
      refresh_token (config (snd st)) = ""%string
  | P_AskCustomerId => customer_id (config (snd st)) = ""%string
  | P_AskUseLoginId | P_AskLoginId =>
      login_customer_id (config (snd st)) = ""%string
  | _ => True
  end.

(** The servers of a script that is running: the server bound to the port
    is the newest one; a timer closes a server whose promise is settled; a
    bound server with a settled promise has its close due within a second. *)
Definition servers_ok (w : World) : Prop :=
  (forall sid, port_owner w = Some sid -> S sid = length (promises w)) /\
  (forall due sid, In (due, sid) (timers w) ->
                   exists code, promises w !! sid = Some (Some code)) /\
  (forall sid code,
     port_owner w = Some sid -> promises w !! sid = Some (Some code) ->
     exists due, In (due, sid) (timers w) /\ due <= clock w + 1000).

(** No bound server has a pending promise. *)
Definition no_pending_owner (w : World) : Prop :=
  forall sid, port_owner w = Some sid -> promises w !! sid <> Some None.

(** The script waits for a redirect on a bound server with a pending
    promise, and exchanges the code that its newest promise holds; outside
    that wait no bound server has a pending promise. *)
Definition listener_inv (st : State) : Prop :=
  let w := snd st in
  terminal (fst st) = false ->
  servers_ok w /\
  match fst st with
  | P_AwaitCode sid =>
      port_owner w = Some sid /\ promises w !! sid = Some None
  | P_AwaitToken authCode =>
      (exists sid, S sid = length (promises w) /\
                   promises w !! sid = Some (Some authCode)) /\
      no_pending_owner w
  | _ => no_pending_owner w
  end.

(** The server that holds the port has a timer pending that closes it no
    later than [deadline]. *)
Definition closes_by (deadline : Z) (w : World) : Prop :=
  forall sid, port_owner w = Some sid ->
    exists due, In (due, sid) (timers w) /\ clock w < due <= deadline.

(** The script is past the offer of the authorization URL and past the
    question for a manually entered refresh token. *)
Definition offer_passed (ph : Phase) : bool :=
  match ph with
  | P_Field _ _ | P_AskGenerate | P_AskManual => false
  | _ => true
  end.

(** The questions that come before the first authorization attempt. *)
Definition early (ph : Phase) : bool :=
  match ph with
  | P_Field _ _ | P_AskGenerate => true
  | _ => false
  end.

(** All six values are present in the environment. *)
Definition complete_env (env : Key -> option string) : Prop :=
  forall k, truthy (env_or_empty (env k)) = true.

(** The questions among what has been written. *)
Definition questions (l : list Output) : list string :=
  omap (fun o => match o with question p => Some p | _ => None end) l.

(** The event a control point of the menu loop is suspended on: the answer
    to its question, or the settlement of its awaited call. *)
Definition awaited (st : State) (ev : Event) : Prop :=
  match ev with
  | EvLine _ => post_setup (fst st) = true /\ api_phase (fst st) = false
  | EvApi _ => api_phase (fst st) = true
  | _ => False
  end.

(** At the menu, the question of the menu is the last thing written. *)
Definition menu_shown (st : State) : Prop :=
  fst st = P_Menu ->
  exists rest, out (snd st) = question (LF +:+ "Select an option (1-6): ") :: rest.

(** How many awaited events an operation of the menu can still take before
    the menu is shown again. *)
Definition events_left (ph : Phase) : nat :=
  match ph with
  | P_ListCustomers | P_RunQuery | P_ListConversions false
  | P_UpdateConversion | P_ResponseText _ | P_ResponseJson => 1
  | P_AskQuery | P_AskConversionId | P_Fetch => 2
  | P_ListConversions true | P_AccessToken _ => 3
  | P_AskProviderId => 4
  | P_AskUseDefaultProvider => 5
  | _ => 0
  end.

End Runs.

(** ** Resource names and the [.env] file as text *)

Module Text.
Import Js QueryTool.

(** [s.split(sep)] for a separator of one character. *)
Fixpoint split (sep : ascii) (s : string) : list string :=
  match s with
  | EmptyString => [EmptyString]
  | String c rest =>
      if Ascii.eqb c sep then EmptyString :: split sep rest
      else
        match split sep rest with
        | piece :: pieces => String c piece :: pieces
        | [] => [String c EmptyString]
        end
  end.

(** [s.includes(c)]. *)
Fixpoint has_char (c : ascii) (s : string) : bool :=
  match s with
  | EmptyString => false
  | String c' rest => Ascii.eqb c' c || has_char c rest
  end.

(** [resourceName.split("/")[1]] of [listAccessibleCustomers]; [None] is
    [undefined]. *)
Definition customerId_of (resourceName : string) : option string :=
  split "/" resourceName !! 1%nat.

(** [`customers/${config.customer_id}/conversionActions/${conversionActionId}`]
    of [updateConversionActionStatus]. *)
Definition conversionAction_resourceName (c : GoogleAdsConfig)
  (conversionActionId : string) : string :=
  ("customers/" +:+ customer_id c +:+ "/conversionActions/"
     +:+ conversionActionId)%string.

(** The callback of [response.resource_names.forEach]: the line it prints
    for [resourceName] at [index]; an [undefined] in a template literal
    reads [undefined]. *)
Definition customer_line (resourceName : string) (index : nat) : string :=
  let customerId := customerId_of resourceName in
  (String_of_number (Z.of_nat index + 1) +:+ ". Customer ID: "
     +:+ default "undefined" customerId)%string.

End Text.

(** ** clickViewFeb2025.ts: the collection loop of [main] *)

Module Collector.
Import Js.

Section Collect.

(** A row of a query result. *)
Variable Row : Type.

(** [JSON.stringify(results, null, 2)]. *)
Variable JSON_stringify : list Row -> string.

(** [path.join] and [process.cwd()]. *)
Variable path_join : string -> string -> string.
Variable cwd : string.

(** What [customer.query] settles with. *)
Inductive QueryOutcome :=
| query_resolved (results : list Row)
| query_rejected (e : string).

(** What the loop does to the outside, newest first in [effects]. *)
Inductive Effect :=
| console_log (s : string)
| console_error (s : string) (detail : string)
| customer_query (gaqlQuery : string)
| mkdirSync (dir : string)
| writeFileSync (file : string) (content : string).

Record Collected := {
  (** the directories and the files of the disk *)
  dirs : gset string;
  files : gmap string string;
  effects : list Effect;
  totalResults : nat;
}.

Definition emit (e : Effect) (st : Collected) : Collected :=
  {| dirs := dirs st; files := files st; effects := e :: effects st;
     totalResults := totalResults st |}.

Definition LF : string := String (ascii_of_nat 10) "".

(** The template literal of the query for one date. *)
Definition gaqlQuery (dateStr : string) : string :=
  (LF +:+ "            SELECT "
   +:+ LF +:+ "                click_view.gclid, "
   +:+ LF +:+ "                click_view.page_number, "
   +:+ LF +:+ "                click_view.ad_group_ad, "
   +:+ LF +:+ "                click_view.keyword,"
   +:+ LF +:+ "                click_view.area_of_interest.city,"
   +:+ LF +:+ "                campaign.id, "
   +:+ LF +:+ "                campaign.name, "
   +:+ LF +:+ "                ad_group.id, "
   +:+ LF +:+ "                ad_group.name, "
   +:+ LF +:+ "                segments.date, "
   +:+ LF +:+ "                segments.device, "
   +:+ LF +:+ "                segments.ad_network_type,"
   +:+ LF +:+ "                segments.click_type,"
   +:+ LF +:+ "                metrics.clicks"
   +:+ LF +:+ "            FROM click_view "
   +:+ LF +:+ "            WHERE segments.date = '" +:+ dateStr +:+ "'"
   +:+ LF +:+ "        ")%string.

(** [runClickViewQuery]: the rows it returns and what it did.  The client
    and the customer are records built from the configuration, as in
    [QueryTool]; [o] is what [customer.query] settles with. *)
Definition runClickViewQuery (dateStr : string) (o : QueryOutcome)
  (st : Collected) : list Row * Collected :=
  let st1 := emit (console_log ("Running query for date: " +:+ dateStr +:+ "...")) st in
  let st2 := emit (customer_query (gaqlQuery dateStr)) st1 in
  match o with
  | query_resolved results =>
      (results,
       emit (console_log
               ("✅ Query returned "
                  +:+ String_of_number (Z.of_nat (length results))
                  +:+ " results for " +:+ dateStr)) st2)
  | query_rejected e =>
      ([],
       emit (console_error
               ("❌ Error running GAQL query for " +:+ dateStr +:+ ":") e) st2)
  end.

Definition outputDir : string := path_join cwd "click_view_data".

Definition fileName (date : string) : string :=
  ("click_view_" +:+ date +:+ ".json")%string.

Definition filePath (date : string) : string :=
  path_join outputDir (fileName date).

(** [saveResultsToFile]. *)
Definition saveResultsToFile (date : string) (results : list Row)
  (st : Collected) : Collected :=
  if (length results =? 0)%nat then st
  else
    let st1 :=
      if decide (outputDir ∈ dirs st) then st
      else
        emit (mkdirSync outputDir)
          {| dirs := {[ outputDir ]} ∪ dirs st; files := files st;
             effects := effects st; totalResults := totalResults st |} in
    let st2 :=
      emit (writeFileSync (filePath date) (JSON_stringify results))
        {| dirs := dirs st1;
           files := <[ filePath date := JSON_stringify results ]> (files st1);
           effects := effects st1; totalResults := totalResults st1 |} in
    emit (console_log
            ("✅ Saved " +:+ String_of_number (Z.of_nat (length results))
               +:+ " results to " +:+ filePath date)) st2.

(** One iteration of [for (const date of last90DaysDates)]; the pause of
    100 ms that ends it changes nothing of the state. *)
Definition iteration (date : string) (o : QueryOutcome) (st : Collected)
  : Collected :=
  let (results, st1) := runClickViewQuery date o st in
  let st2 :=
    {| dirs := dirs st1; files := files st1; effects := effects st1;
       totalResults := (totalResults st1 + length results)%nat |} in
  saveResultsToFile date results st2.

(** The loop; [outcome k] is what the [k]-th query of the run settles
    with. *)
Fixpoint collect (dates : list string) (k : nat)
  (outcome : nat -> QueryOutcome) (st : Collected) : Collected :=
  match dates with
  | [] => st
  | date :: rest => collect rest (S k) outcome (iteration date (outcome k) st)
  end.

(** [main] from [generateLast90DaysDates()] on, for the dates that the
    call returned: the loop and the summary. *)
Definition collection (last90DaysDates : list string)
  (outcome : nat -> QueryOutcome) (st : Collected) : Collected :=
  let st1 :=
    emit (console_log
            (LF +:+ "Preparing to collect data for the last "
               +:+ String_of_number (Z.of_nat (length last90DaysDates))
               +:+ " days")) st in
  let st2 :=
    {| dirs := dirs st1; files := files st1; effects := effects st1;
       totalResults := 0 |} in
  let st3 := collect last90DaysDates 0 outcome st2 in
  let st4 := emit (console_log (LF +:+ "========================================")) st3 in
  let st5 := emit (console_log "Data collection complete!") st4 in
  let st6 :=
    emit (console_log
            ("Total records collected: "
               +:+ String_of_number (Z.of_nat (totalResults st5)))) st5 in
  let st7 := emit (console_log ("Data saved to: " +:+ outputDir)) st6 in
  emit (console_log "========================================") st7.

(** *** Vocabulary of the statements *)

(** The rows a query contributed: none when it was rejected. *)
Definition returned (o : QueryOutcome) : list Row :=
  match o with
  | query_resolved results => results
  | query_rejected _ => []
  end.

(** The queries among the effects, oldest first. *)
Definition queries (l : list Effect) : list string :=
  omap (fun e => match e with customer_query q => Some q | _ => None end)
    (rev l).

(** Some query among the [n] queries from the [k]-th on brought rows. *)
Definition any_rows (outcome : nat -> QueryOutcome) (k n : nat) : bool :=
  existsb (fun j => negb (length (returned (outcome j)) =? 0)%nat) (seq k n).

(** How often the output directory was created. *)
Definition mkdirs (l : list Effect) : nat :=
  length (omap (fun e => match e with mkdirSync d => Some d | _ => None end) l).

End Collect.

End Collector.

(** * Properties *)

(** ** Calendar arithmetic *)

Section Calendar.
Import JsDate.

Lemma DayFromYear_succ y : DayFromYear (y + 1) = DayFromYear y + DaysInYear y.
Proof.
  unfold DayFromYear, DaysInYear.
  repeat match goal with
         | |- context [ ?a =? ?b ] => destruct (Z.eqb_spec a b)
         end; simpl; Z.div_mod_to_equations; lia.
Qed.

Lemma DaysInYear_cases y : DaysInYear y = 365 \/ DaysInYear y = 366.
Proof.
  unfold DaysInYear.
  repeat match goal with
         | |- context [ ?a =? ?b ] => destruct (Z.eqb_spec a b)
         end; simpl; auto.
Qed.

Lemma DayFromYear_after (n : nat) y :
  DayFromYear y + 365 * Z.of_nat n <= DayFromYear (y + Z.of_nat n).
Proof.
  induction n as [|n IH].
  - replace (y + Z.of_nat 0) with y by lia. lia.
  - replace (y + Z.of_nat (S n)) with (y + Z.of_nat n + 1) by lia.
    rewrite DayFromYear_succ.
    destruct (DaysInYear_cases (y + Z.of_nat n)); lia.
Qed.

Lemma DayFromYear_before (n : nat) y :
  DayFromYear (y - Z.of_nat n) <= DayFromYear y - 365 * Z.of_nat n.
Proof.
  pose proof (DayFromYear_after n (y - Z.of_nat n)) as H.
  replace (y - Z.of_nat n + Z.of_nat n) with y in H by lia. lia.
Qed.

Lemma DayFromYear_mono y y' : y <= y' -> DayFromYear y <= DayFromYear y'.
Proof.
  intros H. pose proof (DayFromYear_after (Z.to_nat (y' - y)) y) as A.
  replace (y + Z.of_nat (Z.to_nat (y' - y))) with y' in A by lia. lia.
Qed.

Lemma year_up_spec fuel : forall y t,
  DayFromYear y <= t -> t < DayFromYear (y + Z.of_nat fuel) ->
  DayFromYear (year_up fuel y t) <= t < DayFromYear (year_up fuel y t + 1).
Proof.
  induction fuel as [|fuel IH]; intros y t Hlo Hhi; simpl.
  - replace (y + Z.of_nat 0) with y in Hhi by lia. lia.
  - destruct (Z.leb_spec (DayFromYear (y + 1)) t) as [Hle|Hgt].
    + apply IH; [exact Hle|].
      replace (y + 1 + Z.of_nat fuel) with (y + Z.of_nat (S fuel)) by lia.
      exact Hhi.
    + lia.
Qed.

Lemma year_down_spec fuel : forall y t,
  t < DayFromYear (y + 1) -> DayFromYear (y - Z.of_nat fuel) <= t ->
  DayFromYear (year_down fuel y t) <= t < DayFromYear (year_down fuel y t + 1).
Proof.
  induction fuel as [|fuel IH]; intros y t Hhi Hlo; simpl.
  - replace (y - Z.of_nat 0) with y in Hlo by lia. lia.
  - destruct (Z.leb_spec (DayFromYear y) t) as [Hle|Hgt].
    + lia.
    + apply IH.
      * replace (y - 1 + 1) with y by lia. exact Hgt.
      * replace (y - 1 - Z.of_nat fuel) with (y - Z.of_nat (S fuel)) by lia.
        exact Hlo.
Qed.

Lemma DayFromYear_1970 : DayFromYear 1970 = 0.
Proof. reflexivity. Qed.

(** [YearFromTime t] is the year whose days contain [t]. *)
Lemma YearFromTime_spec t :
  DayFromYear (YearFromTime t) <= t < DayFromYear (YearFromTime t + 1).
Proof.
  unfold YearFromTime. destruct (Z.leb_spec 0 t) as [Hpos|Hneg].
  - apply year_up_spec; [rewrite DayFromYear_1970; lia|].
    pose proof (DayFromYear_after (S (Z.to_nat (t / 365))) 1970) as A.
    rewrite DayFromYear_1970 in A.
    assert (t < 365 * Z.of_nat (S (Z.to_nat (t / 365)))).
    { rewrite Nat2Z.inj_succ, Z2Nat.id by (apply Z.div_pos; lia).
      Z.div_mod_to_equations; lia. }
    lia.
  - apply year_down_spec.
    + change (DayFromYear (1969 + 1)) with 0. lia.
    + pose proof (DayFromYear_before (S (S (Z.to_nat ((- t) / 365)))) 1970) as A.
      rewrite DayFromYear_1970 in A.
      replace (1969 - Z.of_nat (S (Z.to_nat (- t / 365))))
        with (1970 - Z.of_nat (S (S (Z.to_nat (- t / 365))))) by lia.
      assert (- t < 365 * Z.of_nat (S (S (Z.to_nat (- t / 365))))).
      { rewrite !Nat2Z.inj_succ, Z2Nat.id by (apply Z.div_pos; lia).
        Z.div_mod_to_equations; lia. }
      lia.
Qed.

(** The year is determined by the interval of days it spans. *)
Lemma YearFromTime_unique t y :
  DayFromYear y <= t < DayFromYear (y + 1) -> YearFromTime t = y.
Proof.
  intros Hy. pose proof (YearFromTime_spec t) as Hs.
  destruct (Z.lt_trichotomy (YearFromTime t) y) as [Hlt|[Heq|Hgt]]; [|exact Heq|].
  - pose proof (DayFromYear_mono (YearFromTime t + 1) y). lia.
  - pose proof (DayFromYear_mono (y + 1) (YearFromTime t)). lia.
Qed.

Lemma DayWithinYear_range t :
  0 <= DayWithinYear t < DaysInYear (YearFromTime t).
Proof.
  unfold DayWithinYear. pose proof (YearFromTime_spec t) as H.
  rewrite DayFromYear_succ in H. lia.
Qed.

Lemma InLeapYear_cases t :
  (InLeapYear t = 0 /\ DaysInYear (YearFromTime t) = 365) \/
  (InLeapYear t = 1 /\ DaysInYear (YearFromTime t) = 366).
Proof.
  unfold InLeapYear.
  destruct (DaysInYear_cases (YearFromTime t)) as [H|H]; rewrite H; simpl; auto.
Qed.

Ltac split_ifs :=
  repeat match goal with
         | |- context [ ?a <? ?b ] => destruct (Z.ltb_spec a b)
         | |- context [ ?a =? ?b ] => destruct (Z.eqb_spec a b)
         end.

Lemma MonthFromTime_range t : 0 <= MonthFromTime t <= 11.
Proof. unfold MonthFromTime. split_ifs; lia. Qed.

(** The start of the month and the day of the month add up to the day
    within the year. *)
Lemma month_start_DateFromTime t :
  month_start (MonthFromTime t) (InLeapYear t) + DateFromTime t - 1
  = DayWithinYear t.
Proof.
  unfold DateFromTime, month_start.
  pose proof (MonthFromTime_range t).
  remember (MonthFromTime t) as m eqn:Hm.
  unfold MonthFromTime in Hm.
  pose proof (DayWithinYear_range t) as Hd.
  destruct (InLeapYear_cases t) as [[Hl Hy]|[Hl Hy]]; rewrite Hl in *;
    rewrite Hy in Hd; clear Hl Hy;
    remember (DayWithinYear t) as d; clear Heqd;
    repeat match type of Hm with
           | context [ ?a <? ?b ] => destruct (Z.ltb_spec a b)
           end; subst m; simpl; lia.
Qed.

Lemma MakeDay_of_fields t :
  MakeDay (YearFromTime t) (MonthFromTime t) (DateFromTime t) = t.
Proof.
  unfold MakeDay. pose proof (MonthFromTime_range t) as Hm.
  rewrite Z.div_small, Z.mod_small, Z.add_0_r by lia.
  fold (InLeapYear t).
  pose proof (month_start_DateFromTime t). unfold DayWithinYear in *. lia.
Qed.

(** Replacing the day of the month moves a day by the difference between
    the new and the current day of the month. *)
Lemma MakeDay_shift d n :
  MakeDay (YearFromTime d) (MonthFromTime d) n = d - DateFromTime d + n.
Proof.
  pose proof (MakeDay_of_fields d) as H.
  unfold MakeDay in *. lia.
Qed.

Lemma MakeDay_same_month d d' n :
  YearFromTime d' = YearFromTime d -> MonthFromTime d' = MonthFromTime d ->
  MakeDay (YearFromTime d') (MonthFromTime d') n = d - DateFromTime d + n.
Proof.
  intros Hy Hm. rewrite Hy, Hm. apply MakeDay_shift.
Qed.

Lemma Day_MakeDate day time :
  0 <= time < msPerDay -> Day (MakeDate day time) = day.
Proof.
  unfold Day, MakeDate, msPerDay. intros H.
  Z.div_mod_to_equations. lia.
Qed.

Lemma TimeWithinDay_range t : 0 <= TimeWithinDay t < msPerDay.
Proof. unfold TimeWithinDay, msPerDay. Z.div_mod_to_equations. lia. Qed.

(** Where the offset never changes, [setDate] lands on the local day it
    asks for. *)
Lemma setDate_local_day tz d n :
  fixed_offset tz ->
  Day (LocalTime tz (setDate tz d n))
  = MakeDay (YearFromTime (Day (LocalTime tz d)))
      (MonthFromTime (Day (LocalTime tz d))) n.
Proof.
  intros [offset Hfix]. unfold setDate, LocalTime, UTC.
  rewrite !Hfix.
  match goal with
  | |- Day (?x - offset + offset) = _ => replace (x - offset + offset) with x by lia
  end.
  apply Day_MakeDate, TimeWithinDay_range.
Qed.

End Calendar.

(** ** Decimal rendering *)

Section Rendering.
Import Js JsDate ClickView.

Lemma digits_small fuel n acc :
  0 <= n < 10 -> digits (S fuel) n acc = String (digit n) acc.
Proof.
  intros H. simpl. rewrite Z.div_small, Z.mod_small by lia. reflexivity.
Qed.

Lemma digits_step fuel n acc :
  10 <= n ->
  digits (S fuel) n acc = digits fuel (n / 10) (String (digit (n mod 10)) acc).
Proof.
  intros H. simpl.
  destruct (Z.eqb_spec (n / 10) 0) as [E|E]; [|reflexivity].
  exfalso. Z.div_mod_to_equations. lia.
Qed.

Lemma String_of_number_1 n :
  0 <= n < 10 -> String_of_number n = String (digit n) "".
Proof.
  intros H. unfold String_of_number.
  destruct (Z.ltb_spec n 0); [lia|]. apply digits_small. exact H.
Qed.

(** The digit characters of [String(n)] are the decimal digits. *)
Lemma digit_decimal k : 0 <= k < 10 -> digit k = decimal k.
Proof.
  intros H.
  assert (k = 0 \/ k = 1 \/ k = 2 \/ k = 3 \/ k = 4 \/ k = 5 \/ k = 6
          \/ k = 7 \/ k = 8 \/ k = 9) as C by lia.
  repeat (destruct C as [C|C]; [subst k; reflexivity|]). subst k. reflexivity.
Qed.

Lemma String_of_number_2 n :
  10 <= n < 100 -> String_of_number n = two_digits n.
Proof.
  intros H. unfold String_of_number, two_digits.
  destruct (Z.ltb_spec n 0); [lia|].
  replace (Z.to_nat n) with (S (Z.to_nat n - 1)) by lia.
  rewrite digits_step by lia.
  rewrite digits_small by (Z.div_mod_to_equations; lia).
  rewrite !digit_decimal by (Z.div_mod_to_equations; lia). reflexivity.
Qed.

Lemma tens_of_hundred n : 0 <= n -> (n / 10) mod 10 = (n mod 100) / 10.
Proof. intros. Z.div_mod_to_equations. lia. Qed.

Lemma units_of_hundred n : 0 <= n -> n mod 10 = (n mod 100) mod 10.
Proof. intros. Z.div_mod_to_equations. lia. Qed.

Lemma div_10_10 n : 0 <= n -> n / 10 / 10 = n / 100.
Proof. intros. Z.div_mod_to_equations. lia. Qed.

Lemma String_of_number_4 n :
  1000 <= n < 10000 ->
  String_of_number n = (two_digits (n / 100) +:+ two_digits (n mod 100))%string.
Proof.
  intros H. unfold String_of_number, two_digits.
  destruct (Z.ltb_spec n 0); [lia|].
  replace (Z.to_nat n) with (S (S (S (Z.to_nat n - 3)))) by lia.
  assert (10 <= n / 10) by (Z.div_mod_to_equations; lia).
  assert (10 <= n / 10 / 10) by (Z.div_mod_to_equations; lia).
  assert (0 <= n / 10 / 10 / 10 < 10) by (Z.div_mod_to_equations; lia).
  do 3 (rewrite digits_step by lia).
  rewrite digits_small by lia.
  rewrite !digit_decimal by (Z.div_mod_to_equations; lia).
  rewrite (div_10_10 n), (tens_of_hundred n), (units_of_hundred n) by lia.
  reflexivity.
Qed.

Lemma padStart_2 n :
  0 <= n < 100 -> padStart (String_of_number n) 2 "0" = two_digits n.
Proof.
  intros H. destruct (Z.lt_ge_cases n 10) as [Hs|Hb].
  - rewrite String_of_number_1 by lia. unfold padStart, two_digits. simpl.
    rewrite Z.div_small, Z.mod_small, digit_decimal by lia. reflexivity.
  - rewrite String_of_number_2 by lia. reflexivity.
Qed.

Lemma is_digit_digit k : 0 <= k < 10 -> is_digit (decimal k) = true.
Proof.
  intros H.
  assert (k = 0 \/ k = 1 \/ k = 2 \/ k = 3 \/ k = 4 \/ k = 5 \/ k = 6
          \/ k = 7 \/ k = 8 \/ k = 9) as C by lia.
  repeat (destruct C as [C|C]; [subst k; reflexivity|]). subst k. reflexivity.
Qed.

Lemma is_yyyy_mm_dd_render y m d :
  0 <= y < 10000 -> 0 <= m < 100 -> 0 <= d < 100 ->
  is_yyyy_mm_dd (yyyy_mm_dd y m d) = true.
Proof.
  intros Hy Hm Hd. unfold yyyy_mm_dd, two_digits.
  cbv [String.append is_yyyy_mm_dd].
  rewrite !is_digit_digit by (Z.div_mod_to_equations; lia). reflexivity.
Qed.

Lemma DateFromTime_range t :
  1 <= DateFromTime t <= days_in_month (YearFromTime t) (MonthFromTime t + 1).
Proof.
  pose proof (month_start_DateFromTime t) as E.
  unfold DateFromTime, month_start, days_in_month in *.
  remember (MonthFromTime t) as m eqn:Hm.
  unfold MonthFromTime in Hm.
  pose proof (DayWithinYear_range t) as Hd.
  destruct (InLeapYear_cases t) as [[Hl Hy]|[Hl Hy]]; rewrite Hl in *;
    rewrite Hy in *; clear Hl Hy;
    remember (DayWithinYear t) as dd; clear Heqdd;
    repeat match type of Hm with
           | context [ ?a <? ?b ] => destruct (Z.ltb_spec a b)
           end; subst m; simpl; lia.
Qed.

Lemma YearFromTime_between lo hi t :
  DayFromYear lo <= t < DayFromYear hi -> lo <= YearFromTime t < hi.
Proof.
  intros H. pose proof (YearFromTime_spec t) as S.
  split.
  - destruct (Z.le_gt_cases lo (YearFromTime t)) as [|L]; [assumption|].
    pose proof (DayFromYear_mono (YearFromTime t + 1) lo). lia.
  - destruct (Z.le_gt_cases hi (YearFromTime t)) as [L|]; [|assumption].
    pose proof (DayFromYear_mono hi (YearFromTime t) L). lia.
Qed.

Lemma days_in_month_le_31 y m : days_in_month y m <= 31.
Proof.
  unfold days_in_month.
  destruct (m =? 2); [destruct (DaysInYear y =? 366); lia|].
  destruct ((m =? 4) || (m =? 6) || (m =? 9) || (m =? 11)); lia.
Qed.

(** In the years 1000 to 9999 the template literal is the zero-padded
    YYYY-MM-DD text of the local calendar date. *)
Lemma format_date_render tz t :
  DayFromYear 1000 <= local_day tz t < DayFromYear 10000 ->
  format_date tz t
  = yyyy_mm_dd (YearFromTime (local_day tz t))
      (MonthFromTime (local_day tz t) + 1) (DateFromTime (local_day tz t)).
Proof.
  intros H. unfold format_date, yyyy_mm_dd, getFullYear, getMonth, getDate.
  fold (local_day tz t).
  pose proof (YearFromTime_between 1000 10000 _ H).
  pose proof (MonthFromTime_range (local_day tz t)).
  pose proof (DateFromTime_range (local_day tz t)) as D.
  pose proof (days_in_month_le_31 (YearFromTime (local_day tz t))
                (MonthFromTime (local_day tz t) + 1)).
  rewrite String_of_number_4 by lia.
  rewrite !padStart_2 by lia.
  reflexivity.
Qed.

Lemma loop_unfold tz now today n : forall i dates,
  loop tz now today n i dates
  = dates ++ ((fun j => loop_body tz today (now (S j)) (Z.of_nat j)) <$> seq i n).
Proof.
  induction n as [|n IH]; intros i dates; simpl.
  - rewrite app_nil_r. reflexivity.
  - rewrite IH, <- app_assoc. reflexivity.
Qed.

End Rendering.

(** ** The generated list of dates *)

Section Last90Days.
Import Js JsDate ClickView.

(** A calendar date is recovered from its day number: [day_number] is
    injective on the dates of the calendar. *)
Lemma fields_of_day_number y m d :
  valid_date y m d ->
  YearFromTime (day_number y m d) = y /\
  MonthFromTime (day_number y m d) + 1 = m /\
  DateFromTime (day_number y m d) = d.
Proof.
  intros [Hm Hd]. unfold day_number, MakeDay.
  rewrite Z.div_small, Z.mod_small, Z.add_0_r by lia.
  set (leap := if DaysInYear y =? 366 then 1 else 0).
  set (t := DayFromYear y + month_start (m - 1) leap + d - 1).
  assert (0 <= month_start (m - 1) leap + d - 1 < DaysInYear y) as Hin.
  { unfold month_start, days_in_month, leap in *.
    assert (m = 1 \/ m = 2 \/ m = 3 \/ m = 4 \/ m = 5 \/ m = 6 \/ m = 7
            \/ m = 8 \/ m = 9 \/ m = 10 \/ m = 11 \/ m = 12) as C by lia.
    destruct (DaysInYear_cases y) as [E|E]; rewrite E in *; simpl in *;
      repeat (destruct C as [C|C]; [subst m; simpl in *; lia|]);
      subst m; simpl in *; lia. }
  assert (YearFromTime t = y) as HY.
  { apply YearFromTime_unique. rewrite DayFromYear_succ. unfold t. lia. }
  assert (DayWithinYear t = month_start (m - 1) leap + d - 1) as HD.
  { unfold DayWithinYear. rewrite HY. unfold t. lia. }
  assert (InLeapYear t = leap) as HL.
  { unfold InLeapYear. rewrite HY. reflexivity. }
  split; [exact HY|].
  assert (MonthFromTime t + 1 = m) as HM.
  { unfold MonthFromTime. rewrite HD, HL.
    unfold month_start, days_in_month, leap in *.
    assert (m = 1 \/ m = 2 \/ m = 3 \/ m = 4 \/ m = 5 \/ m = 6 \/ m = 7
            \/ m = 8 \/ m = 9 \/ m = 10 \/ m = 11 \/ m = 12) as C by lia.
    destruct (DaysInYear_cases y) as [E|E]; rewrite E in *; simpl in *;
      repeat (destruct C as [C|C];
              [subst m; simpl in *;
               repeat match goal with
                      | |- context [ ?a <? ?b ] => destruct (Z.ltb_spec a b)
                      end; lia|]);
      subst m; simpl in *;
      repeat match goal with
             | |- context [ ?a <? ?b ] => destruct (Z.ltb_spec a b)
             end; lia. }
  split; [exact HM|].
  pose proof (month_start_DateFromTime t) as E.
  rewrite HD, HL in E. replace (MonthFromTime t) with (m - 1) in E by lia. lia.
Qed.

Lemma generated_entry tz (now : nat -> Date) i :
  (i < 90)%nat ->
  generateLast90DaysDates tz now !! i
  = Some (loop_body tz (now 0%nat) (now (S i)) (Z.of_nat i)).
Proof.
  intros Hi. unfold generateLast90DaysDates. rewrite loop_unfold, app_nil_l.
  rewrite list_lookup_fmap, lookup_seq_lt by exact Hi. reflexivity.
Qed.

Lemma generateLast90DaysDates_length tz now :
  length (generateLast90DaysDates tz now) = 90%nat.
Proof.
  unfold generateLast90DaysDates. rewrite loop_unfold, app_nil_l.
  rewrite length_fmap, length_seq. reflexivity.
Qed.

(** The entry at index [i], by the calendar fields of its day, when the
    offset of local time is fixed and every clock read of the call falls in
    the month of the first. *)
Lemma generated_date_text tz (now : nat -> Date) i :
  fixed_offset tz ->
  (forall k, (k <= 90)%nat ->
     getFullYear tz (now k) = getFullYear tz (now 0%nat) /\
     getMonth tz (now k) = getMonth tz (now 0%nat)) ->
  DayFromYear 1000 + 89 <= local_day tz (now 0%nat) < DayFromYear 10000 ->
  (i < 90)%nat ->
  let t := local_day tz (now 0%nat) - Z.of_nat i in
  generateLast90DaysDates tz now !! i
  = Some (yyyy_mm_dd (YearFromTime t) (MonthFromTime t + 1) (DateFromTime t)).
Proof.
  intros Hfix Hclock Hrange Hi t.
  rewrite generated_entry by exact Hi. f_equal. unfold loop_body.
  destruct (Hclock (S i)) as [Ey Em]; [lia|].
  unfold getFullYear, getMonth, getDate in *.
  assert (local_day tz
            (setDate tz (now (S i))
               (DateFromTime (Day (LocalTime tz (now 0%nat))) - Z.of_nat i)) = t)
    as Hday.
  { unfold local_day at 1. rewrite (setDate_local_day tz _ _ Hfix).
    rewrite (MakeDay_same_month (Day (LocalTime tz (now 0%nat)))) by assumption.
    unfold t, local_day. lia. }
  rewrite format_date_render; rewrite Hday; [reflexivity|unfold t; lia].
Qed.

(** Where the offset of local time is fixed, within one calendar month of
    clock reads and in the years 1000 to 9999, [generateLast90DaysDates]
    returns 90 strings; the string at index [i] is the zero-padded
    YYYY-MM-DD text of the calendar date whose day number is today's minus
    [i], so the first is today and each next one is one day earlier. *)
Lemma generateLast90DaysDates_within_a_month tz (now : nat -> Date) :
  fixed_offset tz ->
  (forall k, (k <= 90)%nat ->
     getFullYear tz (now k) = getFullYear tz (now 0%nat) /\
     getMonth tz (now k) = getMonth tz (now 0%nat)) ->
  DayFromYear 1000 + 89 <= local_day tz (now 0%nat) < DayFromYear 10000 ->
  length (generateLast90DaysDates tz now) = 90%nat /\
  forall i, (i < 90)%nat ->
    exists y m d,
      valid_date y m d /\
      day_number y m d = local_day tz (now 0%nat) - Z.of_nat i /\
      generateLast90DaysDates tz now !! i = Some (yyyy_mm_dd y m d) /\
      is_yyyy_mm_dd (yyyy_mm_dd y m d) = true.
Proof.
  intros Hfix Hclock Hrange. split; [apply generateLast90DaysDates_length|].
  intros i Hi.
  set (t := local_day tz (now 0%nat) - Z.of_nat i).
  assert (DayFromYear 1000 <= t < DayFromYear 10000) as Ht by (unfold t; lia).
  pose proof (YearFromTime_between 1000 10000 t Ht) as HY.
  pose proof (MonthFromTime_range t) as HM.
  pose proof (DateFromTime_range t) as HD.
  pose proof (days_in_month_le_31 (YearFromTime t) (MonthFromTime t + 1)).
  exists (YearFromTime t), (MonthFromTime t + 1), (DateFromTime t).
  split; [split; lia|]. split.
  { unfold day_number. replace (MonthFromTime t + 1 - 1) with (MonthFromTime t) by lia.
    apply MakeDay_of_fields. }
  split; [apply generated_date_text; assumption|].
  apply is_yyyy_mm_dd_render; lia.
Qed.

(** Noon of 2 November 2026, UTC; the list starts there and ends 89 days
    earlier. *)
Example generateLast90DaysDates_sample :
  let noon := MakeDate (day_number 2026 11 2) 43200000 in
  let dates := generateLast90DaysDates utc (fun _ => noon) in
  dates !! 0%nat = Some "2026-11-02"%string /\
  dates !! 1%nat = Some "2026-11-01"%string /\
  dates !! 2%nat = Some "2026-10-31"%string /\
  dates !! 89%nat = Some "2026-08-05"%string.
Proof. vm_compute. repeat split. Qed.

(** C9 at its failing input.  [today] is read in the last millisecond of
    31 January 2027 and the [new Date()] of every iteration after midnight,
    on 1 February (UTC).  The day of the month of [today] is then set on a
    date of February: the list starts with 3 March 2027, a day that has not
    come yet, instead of today; today's date is at index 31, and the list
    ends 58 days before today instead of 89. *)
Theorem generateLast90DaysDates_across_month_boundary :
  let today := MakeDate (day_number 2027 1 31) (msPerDay - 1) in
  let midnight := MakeDate (day_number 2027 2 1) 0 in
  let now k := match k with O => today | S _ => midnight end in
  let dates := generateLast90DaysDates utc now in
  midnight = today + 1 /\
  format_date utc today = "2027-01-31"%string /\
  dates !! 0%nat = Some "2027-03-03"%string /\
  dates !! 1%nat = Some "2027-03-02"%string /\
  dates !! 31%nat = Some "2027-01-31"%string /\
  dates !! 89%nat = Some "2026-12-04"%string.
Proof. vm_compute. repeat split. Qed.

(** A time zone that skips a day.  In Pacific/Apia local time went from
    29 December 2011 straight to 31 December.  With noon of 5 January 2012
    as the time of every clock read, [setDate(-1)] asks for noon of
    30 December, a local time that does not exist, and lands on
    31 December: that date is in the list twice and 30 December is
    missing. *)
Example generateLast90DaysDates_in_apia :
  let noon := UTC apia_2011 (MakeDate (day_number 2012 1 5) 43200000) in
  let dates := generateLast90DaysDates apia_2011 (fun _ => noon) in
  dates !! 0%nat = Some "2012-01-05"%string /\
  dates !! 5%nat = Some "2011-12-31"%string /\
  dates !! 6%nat = Some "2011-12-31"%string /\
  dates !! 7%nat = Some "2011-12-29"%string.
Proof. vm_compute. repeat split. Qed.

End Last90Days.

(** ** The capture listener *)

Section ListenerProofs.
Import Js QueryTool.

Variable parse_url : string -> option (list (string * string)).

Lemma truthy_nonempty s : truthy s = true <-> s <> ""%string.
Proof.
  unfold truthy. destruct (String.eqb_spec s ""); simpl; split; congruence.
Qed.

Lemma truthy_opt_some o :
  truthy_opt o = true <-> exists s, o = Some s /\ s <> ""%string.
Proof.
  destruct o as [s|]; simpl.
  - rewrite truthy_nonempty. split.
    + intros H. exists s. auto.
    + intros (s' & E & H). congruence.
  - split; [discriminate|]. intros (s' & E & _). discriminate.
Qed.

(** What the handler does with a non-empty code. *)
Lemma handler_with_code sid req_url params code w :
  parse_url req_url = Some params ->
  OAuth2.searchParams_get "code" params = Some code ->
  code <> ""%string ->
  handler parse_url sid req_url w
  = Some (setTimeout_close 1000 sid
            (resolveAuthCodePromise sid code
               (emit (http_response 200 "text/html" success_page) w))).
Proof.
  intros Hp Hc Hne. unfold handler. rewrite Hp, Hc. simpl.
  apply truthy_nonempty in Hne. rewrite Hne. reflexivity.
Qed.

(** What the handler does without a usable code. *)
Lemma handler_without_code sid req_url params w :
  parse_url req_url = Some params ->
  truthy_opt (OAuth2.searchParams_get "code" params) = false ->
  handler parse_url sid req_url w
  = Some (emit (http_response 400 "text/html" failure_page) w).
Proof.
  intros Hp Hc. unfold handler. rewrite Hp, Hc. reflexivity.
Qed.

Lemma resolve_pending sid code w :
  promises w !! sid = Some None ->
  promises (resolveAuthCodePromise sid code w) !! sid = Some (Some code).
Proof.
  intros H. unfold resolveAuthCodePromise. rewrite H. simpl.
  apply list_lookup_insert_eq. apply lookup_lt_is_Some. eauto.
Qed.

(** A settled promise keeps its value. *)
Lemma resolve_settled sid sid' code code' w :
  promises w !! sid = Some (Some code) ->
  promises (resolveAuthCodePromise sid' code' w) !! sid = Some (Some code).
Proof.
  intros H. unfold resolveAuthCodePromise.
  destruct (promises w !! sid') as [[c|]|] eqn:E; try exact H.
  simpl. destruct (decide (sid = sid')) as [->|Hne].
  - congruence.
  - rewrite list_lookup_insert_ne by congruence. exact H.
Qed.

Lemma server_close_not_owner sid w : port_owner (server_close sid w) <> Some sid.
Proof.
  unfold server_close. destruct (port_owner w) as [owner|] eqn:E.
  - destruct (Nat.eqb_spec owner sid); simpl; congruence.
  - congruence.
Qed.

Lemma server_close_keeps_free sid sid' w :
  port_owner w <> Some sid -> port_owner (server_close sid' w) <> Some sid.
Proof.
  intros H. unfold server_close. destruct (port_owner w) as [owner|] eqn:E.
  - destruct (Nat.eqb_spec owner sid'); simpl; congruence.
  - congruence.
Qed.

Lemma close_all_closes sid (due : list (Z * nat)) w :
  (exists t, In t due /\ snd t = sid) ->
  port_owner (fold_right (fun t w => server_close (snd t) w) w due) <> Some sid.
Proof.
  induction due as [|t due IH]; intros (t' & Hin & Ht).
  - destruct Hin.
  - simpl. destruct (decide (snd t = sid)) as [E|E].
    + rewrite E. apply server_close_not_owner.
    + apply server_close_keeps_free. apply IH.
      destruct Hin as [->|Hin]; [congruence|]. eauto.
Qed.

(** Once a timer that closes [sid] is due, [sid] no longer holds the port. *)
Lemma elapse_closes sid due ms w :
  In (due, sid) (timers w) -> due <= clock w + Z.max 0 ms ->
  port_owner (elapse ms w) <> Some sid.
Proof.
  intros Hin Hdue. unfold elapse, fire_timers. apply close_all_closes.
  exists (due, sid). split; [|reflexivity].
  apply list_elem_of_In, list_elem_of_filter. split.
  - simpl. exact Hdue.
  - apply list_elem_of_In. exact Hin.
Qed.

End ListenerProofs.

(** Tactics that unfold the pieces of the script and split on their tests. *)
Import QueryTool.

Ltac unfold_flow :=
  unfold on_api, on_token, on_retry, refresh_section, customer_section,
    login_section, save_config, main_menu, ask_retry, ask, code_received,
    listAccessibleCustomers, listAccessibleCustomers_resume, runGaqlQuery,
    runGaqlQuery_resume, listConversionActions, listConversionActions_resume,
    updateConversionActionStatus, updateConversionActionStatus_resume,
    createThirdPartyAppAnalyticsLink, thirdParty_catch, report_error,
    using_ids, instructions, log in *.

Ltac crunch := unfold_flow; repeat (simpl; case_match); simpl.

(** Split on a test that has no test inside it. *)
Ltac case_if :=
  match goal with
  | |- context [ if ?b then _ else _ ] =>
      lazymatch b with
      | context [ if _ then _ else _ ] => fail
      | _ => destruct b eqn:?
      end
  end.

Ltac crunch_if := unfold_flow; repeat (simpl; case_if); simpl.

(** ** Frames: what each piece of the script leaves alone *)

Section Frames.
Import Js QueryTool.

Variable parse_url : string -> option (list (string * string)).

Lemma same_but_out_refl w : same_but_out w w.
Proof. repeat split. Qed.

Lemma same_but_out_trans w1 w2 w3 :
  same_but_out w1 w2 -> same_but_out w2 w3 -> same_but_out w1 w3.
Proof.
  unfold same_but_out. intros (?&?&?&?&?) (?&?&?&?&?).
  repeat split; congruence.
Qed.

Lemma customer_section_frame w : same_but_out w (snd (customer_section w)).
Proof. crunch; repeat split. Qed.

Lemma main_menu_frame w : same_but_out w (snd (main_menu w)).
Proof. crunch; repeat split. Qed.

Lemma on_api_frame ph r w : same_but_out w (snd (on_api ph r w)).
Proof. destruct ph; crunch; repeat split. Qed.

Lemma kept_refl w : kept w w.
Proof. intros sid code H. exact H. Qed.

Lemma kept_trans w1 w2 w3 : kept w1 w2 -> kept w2 w3 -> kept w1 w3.
Proof. unfold kept. eauto. Qed.

Lemma kept_same_promises w w' : promises w' = promises w -> kept w w'.
Proof. intros E sid code H. rewrite E. exact H. Qed.

Lemma kept_frame w w' : same_but_out w w' -> kept w w'.
Proof. intros (_&_&E&_). apply kept_same_promises. exact E. Qed.

Lemma close_all_frame (due : list (Z * nat)) w :
  let w' := fold_right (fun t w => server_close (snd t) w) w due in
  config w' = config w /\ clock w' = clock w /\ promises w' = promises w /\
  timers w' = timers w /\ out w' = out w.
Proof.
  induction due as [|t due IH]; simpl; [repeat split|].
  destruct IH as (?&?&?&?&?).
  unfold server_close. repeat case_match; simpl; repeat split; assumption.
Qed.

Lemma elapse_frame ms w :
  config (elapse ms w) = config w /\ promises (elapse ms w) = promises w /\
  out (elapse ms w) = out w.
Proof.
  unfold elapse, fire_timers.
  match goal with
  | |- context [ fold_right ?f ?w0 ?l ] =>
      destruct (close_all_frame l w0) as (?&?&?&?&?)
  end.
  repeat split; assumption.
Qed.

Lemma prompt_required_frame fields : forall w,
  same_but_out w (snd (prompt_required fields w)).
Proof.
  induction fields as [|field rest IH]; intros w; simpl.
  - crunch; repeat split.
  - case_match; [crunch; repeat split|apply IH].
Qed.

(** The listener of a new attempt binds the port when it is free. *)
Lemma generateAuthUrl_bound w :
  port_owner w = None ->
  exists w',
    generateAuthUrl w = (P_AwaitCode (length (promises w)), w') /\
    port_owner w' = Some (length (promises w)) /\
    promises w' = promises w ++ [None] /\
    config w' = config w /\ clock w' = clock w /\ timers w' = timers w /\
    In (console_log_url (authorizeUrl (config w))) (out w').
Proof.
  intros H. unfold generateAuthUrl. crunch; [congruence|].
  eexists; split; [reflexivity|]. simpl. repeat split; auto.
  do 6 right. left. reflexivity.
Qed.

(** It fails when a server of the process still holds the port. *)
Lemma generateAuthUrl_busy w sid :
  port_owner w = Some sid ->
  terminal (fst (generateAuthUrl w)) = true /\
  port_owner (snd (generateAuthUrl w)) = Some sid.
Proof.
  intros H. unfold generateAuthUrl. crunch; [|congruence].
  split; [reflexivity|congruence].
Qed.

Lemma generateAuthUrl_frame w :
  config (snd (generateAuthUrl w)) = config w /\
  promises (snd (generateAuthUrl w)) = promises w ++ [None].
Proof. unfold generateAuthUrl. crunch; repeat split. Qed.

Lemma generateAuthUrl_kept w : kept w (snd (generateAuthUrl w)).
Proof.
  intros sid code H. destruct (generateAuthUrl_frame w) as [_ E].
  rewrite E. apply lookup_app_l_Some. exact H.
Qed.

Lemma resolve_frame sid code w :
  let w' := resolveAuthCodePromise sid code w in
  config w' = config w /\ port_owner w' = port_owner w /\
  clock w' = clock w /\ timers w' = timers w /\ out w' = out w.
Proof.
  unfold resolveAuthCodePromise. repeat case_match; simpl; repeat split.
Qed.

Lemma handler_frame sid req_url w w' :
  handler parse_url sid req_url w = Some w' ->
  config w' = config w /\ kept w w' /\ port_owner w' = port_owner w /\
  clock w' = clock w.
Proof.
  unfold handler. intros H. repeat case_match; try discriminate;
    injection H as <-; simpl; repeat split; try apply kept_refl;
    try (intros s c Hs; apply resolve_settled; exact Hs);
    try (apply kept_same_promises; reflexivity);
    match goal with
    | |- context [ resolveAuthCodePromise ?s ?c ?w0 ] =>
        destruct (resolve_frame s c w0) as (?&?&?&?&?); simpl in *; assumption
    end.
Qed.

Lemma deliver_frame req_url ph w :
  config (snd (deliver parse_url req_url ph w)) = config w /\
  kept w (snd (deliver parse_url req_url ph w)).
Proof.
  unfold deliver. destruct (port_owner w) as [sid|]; [|split; [reflexivity|apply kept_refl]].
  destruct (handler parse_url sid req_url w) as [w'|] eqn:E;
    [|split; [reflexivity|apply kept_refl]].
  destruct (handler_frame _ _ _ _ E) as (Hc & Hk & _).
  destruct ph; try (split; assumption).
  repeat case_match; simpl; split; assumption.
Qed.

Lemma on_token_kept r w : kept w (snd (on_token r w)).
Proof. apply kept_same_promises. destruct r; crunch; reflexivity. Qed.

Lemma on_line_kept ph answer w : kept w (snd (on_line ph answer w)).
Proof.
  destruct ph; simpl; try apply kept_refl; unfold on_retry;
    repeat case_match;
    try apply generateAuthUrl_kept;
    try (apply kept_same_promises; crunch; reflexivity).
  eapply kept_trans; [|apply kept_frame, prompt_required_frame].
  apply kept_same_promises. reflexivity.
Qed.

(** No turn of the event loop changes a settled promise. *)
Lemma step_kept st ev : kept (snd st) (snd (step parse_url st ev)).
Proof.
  destruct st as [ph w]. unfold step.
  destruct (terminal ph); [apply kept_refl|].
  destruct ev as [req_url|ms|answer|r|r]; simpl.
  - apply deliver_frame.
  - apply kept_same_promises. apply elapse_frame.
  - apply on_line_kept.
  - destruct ph; try apply kept_refl. apply on_token_kept.
  - apply kept_frame, on_api_frame.
Qed.

Lemma run_kept events : forall st, kept (snd st) (snd (run parse_url st events)).
Proof.
  induction events as [|ev events IH]; intros st; simpl.
  - apply kept_refl.
  - eapply kept_trans; [apply step_kept|apply IH].
Qed.

End Frames.

(** ** The redirect requests *)

Section Capture.
Import Js QueryTool.

Variable parse_url : string -> option (list (string * string)).

Lemma deliver_to_owner sid req_url w w' :
  port_owner w = Some sid ->
  handler parse_url sid req_url w = Some w' ->
  step parse_url (P_AwaitCode sid, w) (EvRequest req_url)
  = match promises w' !! sid with
    | Some (Some authCode) => code_received authCode w'
    | _ => (P_AwaitCode sid, w')
    end.
Proof.
  intros Ho Hh. unfold step. simpl. unfold deliver. rewrite Ho, Hh. reflexivity.
Qed.

(** The world after the handler has served a request with a non-empty
    code to a listener whose promise is pending. *)
Lemma code_request_effects sid req_url params code w :
  parse_url req_url = Some params ->
  OAuth2.searchParams_get "code" params = Some code ->
  code <> ""%string ->
  promises w !! sid = Some None ->
  exists w',
    handler parse_url sid req_url w = Some w' /\
    out w' = http_response 200 "text/html" success_page :: out w /\
    promises w' !! sid = Some (Some code) /\
    timers w' = (clock w + 1000, sid) :: timers w /\
    port_owner w' = port_owner w /\ clock w' = clock w /\
    config w' = config w.
Proof.
  intros Hp Hc Hne Hpend.
  pose proof (handler_with_code parse_url sid req_url params code w Hp Hc Hne) as Hh.
  eexists. split; [exact Hh|].
  set (w1 := emit (http_response 200 "text/html" success_page) w) in *.
  assert (promises w1 !! sid = Some None) as Hpend1 by exact Hpend.
  destruct (resolve_frame sid code w1) as (Ec & Eo & Ek & Et & Eout).
  pose proof (resolve_pending sid code w1 Hpend1) as Hres.
  simpl. rewrite Eout, Et, Ek, Eo, Ec. repeat split. exact Hres.
Qed.

(** The code that awaits the promise resumes with the code it holds. *)
Lemma code_request_resumes sid req_url code w w' :
  port_owner w = Some sid ->
  handler parse_url sid req_url w = Some w' ->
  promises w' !! sid = Some (Some code) ->
  step parse_url (P_AwaitCode sid, w) (EvRequest req_url)
  = code_received code w'.
Proof.
  intros Ho Hh Hres. rewrite (deliver_to_owner _ _ _ _ Ho Hh), Hres. reflexivity.
Qed.

(** For a target that the URL constructor accepts: a request whose [code]
    parameter is a non-empty string, handled while the promise of the
    listener is pending, is answered with status 200
    and the HTML success page; the promise is resolved with that code and
    keeps it whatever happens later; the code that awaits the promise resumes
    with that code; the close of the listener is scheduled 1000 ms ahead, the
    listener stays bound meanwhile and is closed once that time has passed. *)
Lemma request_with_code_resolves sid req_url params code w :
  parse_url req_url = Some params ->
  OAuth2.searchParams_get "code" params = Some code ->
  code <> ""%string ->
  promises w !! sid = Some None ->
  exists w',
    handler parse_url sid req_url w = Some w' /\
    out w' = http_response 200 "text/html" success_page :: out w /\
    promises w' !! sid = Some (Some code) /\
    (forall ph events,
       promises (snd (run parse_url (ph, w') events)) !! sid = Some (Some code)) /\
    (port_owner w = Some sid ->
     fst (step parse_url (P_AwaitCode sid, w) (EvRequest req_url))
     = P_AwaitToken code) /\
    timers w' = (clock w + 1000, sid) :: timers w /\
    port_owner w' = port_owner w /\
    (forall ms, 1000 <= ms -> port_owner (elapse ms w') <> Some sid).
Proof.
  intros Hp Hc Hne Hpend.
  destruct (code_request_effects sid req_url params code w Hp Hc Hne Hpend)
    as (w' & Hh & Hout & Hres & Htimers & Howner & Hclock & _).
  exists w'. split; [exact Hh|]. split; [exact Hout|]. split; [exact Hres|].
  split; [|split; [|split; [exact Htimers|split; [exact Howner|]]]].
  - intros ph events.
    apply (run_kept parse_url events (ph, w')). exact Hres.
  - intros Ho. rewrite (code_request_resumes _ _ _ _ _ Ho Hh Hres). reflexivity.
  - intros ms Hms. apply (elapse_closes sid (clock w + 1000)).
    + rewrite Htimers. left. reflexivity.
    + rewrite Hclock. lia.
Qed.

(** The handler answers 400 and changes nothing else whenever the [code]
    parameter is missing or empty. *)
Lemma request_rejected sid req_url params w :
  parse_url req_url = Some params ->
  truthy_opt (OAuth2.searchParams_get "code" params) = false ->
  handler parse_url sid req_url w
  = Some (emit (http_response 400 "text/html" failure_page) w) /\
  (port_owner w = Some sid -> promises w !! sid = Some None ->
   step parse_url (P_AwaitCode sid, w) (EvRequest req_url)
   = (P_AwaitCode sid, emit (http_response 400 "text/html" failure_page) w)).
Proof.
  intros Hp Hc.
  pose proof (handler_without_code parse_url sid req_url params w Hp Hc) as Hh.
  split; [exact Hh|]. intros Ho Hpend.
  rewrite (deliver_to_owner _ _ _ _ Ho Hh). simpl. rewrite Hpend.
  reflexivity.
Qed.

(** For a target that the URL constructor accepts: a request without a
    [code] parameter is answered with status 400 and the HTML failure page; the promise, the listener and the timers are left
    as they were, so the script keeps waiting; a later request with a
    non-empty code is answered with 200 and resolves the promise with its
    code. *)
Lemma request_without_code_rejected sid req_url params w :
  parse_url req_url = Some params ->
  OAuth2.searchParams_get "code" params = None ->
  exists w',
    handler parse_url sid req_url w = Some w' /\
    out w' = http_response 400 "text/html" failure_page :: out w /\
    promises w' = promises w /\ port_owner w' = port_owner w /\
    timers w' = timers w /\ config w' = config w /\
    (port_owner w = Some sid -> promises w !! sid = Some None ->
     step parse_url (P_AwaitCode sid, w) (EvRequest req_url)
     = (P_AwaitCode sid, w')) /\
    (forall req_url2 params2 code2,
       parse_url req_url2 = Some params2 ->
       OAuth2.searchParams_get "code" params2 = Some code2 ->
       code2 <> ""%string ->
       port_owner w = Some sid -> promises w !! sid = Some None ->
       exists w'',
         handler parse_url sid req_url2 w' = Some w'' /\
         out w'' = http_response 200 "text/html" success_page :: out w' /\
         promises w'' !! sid = Some (Some code2) /\
         fst (step parse_url (P_AwaitCode sid, w') (EvRequest req_url2))
         = P_AwaitToken code2).
Proof.
  intros Hp Hc.
  destruct (request_rejected sid req_url params w Hp) as [Hh Hs].
  { rewrite Hc. reflexivity. }
  eexists. split; [exact Hh|]. repeat split; try exact Hs.
  intros req_url2 params2 code2 Hp2 Hc2 Hne Ho Hpend.
  destruct (code_request_effects sid req_url2 params2 code2
              (emit (http_response 400 "text/html" failure_page) w)
              Hp2 Hc2 Hne Hpend)
    as (w'' & Hh2 & Hout & Hres & _).
  exists w''. repeat split; try assumption.
  rewrite (code_request_resumes _ _ code2 _ w''); [reflexivity|exact Ho|exact Hh2|exact Hres].
Qed.

(** For a target that the URL constructor accepts: a request whose [code]
    parameter is present but empty is treated as one without a code: status 400, the HTML failure page, and the
    promise, the listener and the timers are left as they were. *)
Lemma request_with_empty_code_rejected sid req_url params w :
  parse_url req_url = Some params ->
  OAuth2.searchParams_get "code" params = Some ""%string ->
  exists w',
    handler parse_url sid req_url w = Some w' /\
    out w' = http_response 400 "text/html" failure_page :: out w /\
    promises w' = promises w /\ port_owner w' = port_owner w /\
    timers w' = timers w /\ config w' = config w /\
    (port_owner w = Some sid -> promises w !! sid = Some None ->
     step parse_url (P_AwaitCode sid, w) (EvRequest req_url)
     = (P_AwaitCode sid, w')).
Proof.
  intros Hp Hc.
  destruct (request_rejected sid req_url params w Hp) as [Hh Hs].
  { rewrite Hc. reflexivity. }
  eexists. split; [exact Hh|]. repeat split; try exact Hs.
Qed.

End Capture.

(** ** Release of the port and retry *)

Section Retry.
Import Js QueryTool.

Variable parse_url : string -> option (list (string * string)).

Lemma close_all_owner (due : list (Z * nat)) w :
  let w' := fold_right (fun t w => server_close (snd t) w) w due in
  port_owner w' = port_owner w \/ port_owner w' = None.
Proof.
  induction due as [|t due IH]; simpl; [left; reflexivity|].
  simpl in IH.
  set (w0 := fold_right (fun t w => server_close (snd t) w) w due) in *.
  unfold server_close. destruct (port_owner w0) as [owner|] eqn:E.
  - destruct (Nat.eqb owner (snd t)); simpl; [right; reflexivity|].
    rewrite E. exact IH.
  - rewrite E. exact IH.
Qed.

Lemma elapse_owner ms w :
  port_owner (elapse ms w) = port_owner w \/ port_owner (elapse ms w) = None.
Proof.
  unfold elapse, fire_timers.
  match goal with
  | |- context [ fold_right ?f ?w0 ?l ] => apply (close_all_owner l w0)
  end.
Qed.

(** After a failed exchange the retry question is asked and nothing but the
    console has changed. *)
Lemma on_token_failed r w :
  exchange_failed r ->
  fst (on_token r w) = P_AskRetry /\ same_but_out w (snd (on_token r w)).
Proof.
  intros H. destruct r as [refresh|e]; simpl in *.
  - rewrite H. split; [reflexivity|repeat split].
  - split; [reflexivity|repeat split].
Qed.

(** A retry answered once the close of the old listener is due binds a new
    listener. *)
Lemma retry_after_close sid due ms answer w :
  port_owner w = Some sid -> In (due, sid) (timers w) ->
  due <= clock w + Z.max 0 ms ->
  is_yes (toLowerCase answer) = true ->
  exists w',
    run parse_url (P_AskRetry, w) [EvElapse ms; EvLine answer]
    = (P_AwaitCode (length (promises w)), w') /\
    port_owner w' = Some (length (promises w)) /\
    promises w' = promises w ++ [None] /\
    config w' = config w.
Proof.
  intros Ho Hin Hdue Hyes. simpl.
  unfold on_retry. rewrite Hyes.
  assert (port_owner (elapse ms w) = None) as Hfree.
  { pose proof (elapse_closes sid due ms w Hin Hdue) as Hne.
    destruct (elapse_owner ms w) as [E|E]; [congruence|exact E]. }
  destruct (generateAuthUrl_bound (elapse ms w) Hfree)
    as (w' & Hg & Hp & Hpr & Hc & _).
  destruct (elapse_frame ms w) as (Ec & Ep & _).
  rewrite Ep in *. rewrite Ec in *.
  exists w'. repeat split; assumption.
Qed.

End Retry.

(** ** The token exchange *)

Section Exchange.
Import Js QueryTool.

Variable parse_url : string -> option (list (string * string)).

(** Declining the retry resumes [promptForMissingConfig] after its call of
    [generateAuthUrl]: the next thing asked is the customer id (or the login
    customer id, or the menu), never the manual refresh token. *)
Lemma declined_retry_continues answer w :
  is_yes (toLowerCase answer) = false ->
  step parse_url (P_AskRetry, w) (EvLine answer) = customer_section w /\
  fst (customer_section w) <> P_AskManual /\
  config (snd (customer_section w)) = config w.
Proof.
  intros Hno. unfold step. simpl. unfold on_retry. rewrite Hno.
  split; [reflexivity|]. split.
  - unfold customer_section, login_section, save_config, main_menu, ask.
    repeat case_match; simpl; discriminate.
  - apply customer_section_frame.
Qed.

End Exchange.

(** ** Runs of the script on concrete inputs *)

Section Scenarios.
Import Js QueryTool.

(** The sample state waits for the redirect on a bound listener whose
    promise is pending. *)
Lemma awaiting_redirect_state :
  awaiting_redirect
  = run plain_parse_url (main (initial_world sample_env)) [EvLine "yes"] /\
  fst awaiting_redirect = P_AwaitCode 0 /\
  port_owner (snd awaiting_redirect) = Some 0%nat /\
  promises (snd awaiting_redirect) = [None] /\
  refresh_token (config (snd awaiting_redirect)) = ""%string.
Proof. vm_compute. repeat split. Qed.

Lemma request_with_code_resolves_witness :
  plain_parse_url "/?code=ABC123" = Some [("code", "ABC123")]%string /\
  exists w',
    handler plain_parse_url 0 "/?code=ABC123" (snd awaiting_redirect) = Some w' /\
    promises w' !! 0%nat = Some (Some "ABC123"%string).
Proof.
  split; [reflexivity|].
  destruct (request_with_code_resolves plain_parse_url 0 "/?code=ABC123"
              [("code", "ABC123")]%string "ABC123" (snd awaiting_redirect))
    as (w' & Hh & _ & Hres & _); [reflexivity|reflexivity|discriminate|reflexivity|].
  exists w'. split; assumption.
Defined.

Lemma request_without_code_rejected_witness :
  plain_parse_url "/?error=access_denied"
  = Some [("error", "access_denied")]%string /\
  exists w',
    handler plain_parse_url 0 "/?error=access_denied" (snd awaiting_redirect)
    = Some w' /\
    promises w' = promises (snd awaiting_redirect).
Proof.
  split; [reflexivity|].
  destruct (request_without_code_rejected plain_parse_url 0
              "/?error=access_denied" [("error", "access_denied")]%string
              (snd awaiting_redirect))
    as (w' & Hh & _ & Hp & _); [reflexivity|reflexivity|].
  exists w'. split; assumption.
Defined.

Lemma request_with_empty_code_rejected_witness :
  plain_parse_url "/?code=" = Some [("code", "")]%string /\
  exists w',
    handler plain_parse_url 0 "/?code=" (snd awaiting_redirect) = Some w' /\
    promises w' = promises (snd awaiting_redirect).
Proof.
  split; [reflexivity|].
  destruct (request_with_empty_code_rejected plain_parse_url 0 "/?code="
              [("code", "")]%string (snd awaiting_redirect))
    as (w' & Hh & _ & Hp & _); [reflexivity|reflexivity|].
  exists w'. split; assumption.
Defined.

(** The end-to-end scenarios of the redirect: a code is captured and
    exchanged for the refresh token R1; a redirect without a code is answered
    with 400 and a second, correct one still succeeds. *)
Example redirect_scenarios :
  (let st := run plain_parse_url awaiting_redirect
               [EvRequest "/?code=ABC123";
                EvToken (token_response (Some "R1"%string))] in
   refresh_token (config (snd st)) = "R1"%string) /\
  (let st := run plain_parse_url awaiting_redirect [EvRequest "/"] in
   fst st = P_AwaitCode 0 /\
   promises (snd st) = [None] /\
   fst (run plain_parse_url st [EvRequest "/?code=ABC123"])
   = P_AwaitToken "ABC123").
Proof. vm_compute. repeat split. Qed.

(** C1 at its failing input.  The target [//?code=ABC123] carries a
    non-empty code, but its two slashes announce a host that is missing, and
    [new URL] throws inside the handler: the request gets no response, the
    promise stays pending, no close is scheduled and the exception ends the
    process, so that the redirect that follows is not served either.  The
    same code in the target [/?code=ABC123] is answered with 200 and the
    success page, resolves the promise and schedules the close. *)
Theorem request_with_code_on_unparsed_target :
  plain_parse_url "//?code=ABC123" = None /\
  (let st := step plain_parse_url awaiting_redirect (EvRequest "//?code=ABC123") in
   fst st = P_Crashed "TypeError: Invalid URL" /\
   out (snd st) = out (snd awaiting_redirect) /\
   promises (snd st) = [None] /\ timers (snd st) = [] /\
   run plain_parse_url st [EvRequest "/?code=ABC123"] = st) /\
  (let st := step plain_parse_url awaiting_redirect (EvRequest "/?code=ABC123") in
   fst st = P_AwaitToken "ABC123" /\
   out (snd st)
   = console_log (LF +:+ "Authorization code received! Exchanging for refresh token...")
       :: http_response 200 "text/html" success_page
       :: out (snd awaiting_redirect) /\
   String.index 0 "<h1>Authentication Successful</h1>" success_page <> None /\
   promises (snd st) = [Some "ABC123"%string] /\
   timers (snd st) = [(clock (snd awaiting_redirect) + 1000, 0%nat)]).
Proof. vm_compute. repeat split; discriminate. Qed.

(** C2 at its failing input.  The target [//] has no [code] parameter, and
    [new URL] throws on it: the request is not answered with 400, the
    exception ends the process, and the correct redirect that follows gets
    no answer and resolves nothing.  After the target [/], which has no
    code either, the listener answers 400, stays open, and the correct
    redirect succeeds. *)
Theorem request_without_code_on_unparsed_target :
  plain_parse_url "//" = None /\
  (let st := run plain_parse_url awaiting_redirect
               [EvRequest "//"; EvRequest "/?code=ABC123"] in
   fst st = P_Crashed "TypeError: Invalid URL" /\
   out (snd st) = out (snd awaiting_redirect) /\
   promises (snd st) = [None]) /\
  (let st := run plain_parse_url awaiting_redirect [EvRequest "/"] in
   fst st = P_AwaitCode 0 /\
   out (snd st)
   = http_response 400 "text/html" failure_page :: out (snd awaiting_redirect) /\
   String.index 0 "<h1>Authentication Failed</h1>" failure_page <> None /\
   promises (snd st) = [None] /\
   let st' := run plain_parse_url st [EvRequest "/?code=ABC123"] in
   fst st' = P_AwaitToken "ABC123" /\
   promises (snd st') = [Some "ABC123"%string]).
Proof. vm_compute. repeat split; discriminate. Qed.

(** C10 at its failing input.  The target [//?code=] carries a [code]
    parameter that is empty, and [new URL] throws on it: the request is not
    answered with 400 and the exception ends the process.  The same empty
    code in the target [/?code=] is answered with 400 and leaves the script
    waiting with its promise pending. *)
Theorem request_with_empty_code_on_unparsed_target :
  plain_parse_url "//?code=" = None /\
  (let st := step plain_parse_url awaiting_redirect (EvRequest "//?code=") in
   fst st = P_Crashed "TypeError: Invalid URL" /\
   out (snd st) = out (snd awaiting_redirect) /\
   promises (snd st) = [None]) /\
  (plain_parse_url "/?code=" = Some [("code", "")]%string /\
   let st := step plain_parse_url awaiting_redirect (EvRequest "/?code=") in
   fst st = P_AwaitCode 0 /\
   out (snd st)
   = http_response 400 "text/html" failure_page :: out (snd awaiting_redirect) /\
   String.index 0 "<p>No authorization code was received.</p>" failure_page
   <> None /\
   promises (snd st) = [None]).
Proof. vm_compute. repeat split; discriminate. Qed.

(** What the parser does with escapes, a fragment and a host: [+] and [%XX]
    are decoded in names and values, the query ends at the first [#], and a
    target with a host is read like one without. *)
Example plain_parse_url_samples :
  plain_parse_url "/?code=4%2F0A+b&scope=x" = Some [("code", "4/0A b"); ("scope", "x")]%string /\
  plain_parse_url "/cb?state=1&code=ABC#code=no" = Some [("state", "1"); ("code", "ABC")]%string /\
  plain_parse_url "//localhost:8080/?code=ABC" = Some [("code", "ABC")]%string /\
  plain_parse_url "///?code=ABC" = None /\
  plain_parse_url "//:8080/?code=ABC" = None.
Proof. vm_compute. repeat split. Qed.

(** C3 fails as stated: after a successful exchange the authorization step
    is over (the script asks for the customer id) while the listener still
    holds the port; and a retry confirmed right after a failed exchange ends
    the process on the taken port. *)
Lemma port_still_bound_when_step_completes :
  (let st := run plain_parse_url awaiting_redirect
               [EvRequest "/?code=ABC123";
                EvToken (token_response (Some "R1"%string))] in
   fst st = P_AskCustomerId /\ port_owner (snd st) = Some 0%nat) /\
  (let st := run plain_parse_url awaiting_redirect
               [EvRequest "/?code=ABC123";
                EvToken (token_response None);
                EvLine "yes"] in
   fst st = P_Crashed "listen EADDRINUSE: address already in use :::8080" /\
   port_owner (snd st) = Some 0%nat).
Proof. vm_compute. repeat split. Qed.

(** C5 at its failing input.  The exchange returns no refresh token and the
    operator answers [no] to the retry question: the script asks for the
    customer id next, not for a refresh token; with the remaining questions
    answered it reports that authentication completed and shows the menu
    while the refresh token is empty, and the first API call is made with
    it. *)
Example declined_retry_skips_manual_entry :
  let st := run plain_parse_url awaiting_redirect
              [EvRequest "/?code=ABC123";
               EvToken (token_response None);
               EvLine "no"] in
  fst st = P_AskCustomerId /\
  refresh_token (config (snd st)) = ""%string /\
  let st' := run plain_parse_url st [EvLine "1234567890"; EvLine "no"] in
  fst st' = P_Menu /\
  refresh_token (config (snd st')) = ""%string /\
  In (console_log (LF +:+ "✅ Authentication completed successfully!"))
    (out (snd st')) /\
  ~ In (question "Please enter your refresh token manually: ") (out (snd st')) /\
  let st'' := run plain_parse_url st' [EvLine "1"] in
  fst st'' = P_ListCustomers /\
  cust_refresh_token (createCustomerInstance (config (snd st''))) = ""%string.
Proof.
  vm_compute. repeat split; auto 30.
  intros H. repeat (destruct H as [H|H]; [discriminate H|]). exact H.
Qed.

End Scenarios.

(** ** Credentials after the setup *)

Section Credentials.
Import Js QueryTool.

Variable parse_url : string -> option (list (string * string)).

Lemma config_get_set_eq k v c : config_get k (config_set k v c) = v.
Proof. destruct k; reflexivity. Qed.

Lemma config_get_set_ne k k' v c :
  k <> k' -> config_get k (config_set k' v c) = config_get k c.
Proof. intros H. destruct k, k'; try congruence; reflexivity. Qed.

Lemma key_eq_dec (k k' : Key) : {k = k'} + {k <> k'}.
Proof. decide equality. Qed.

Lemma required_ready_get c :
  required_ready c <->
  (forall k, In k requiredFields -> config_get k c <> ""%string).
Proof.
  unfold required_ready, requiredFields. split.
  - intros (H1 & H2 & H3) k [<-|[<-|[<-|[]]]]; assumption.
  - intros H. repeat split.
    + apply (H K_developer_token). simpl. auto.
    + apply (H K_client_id). simpl. auto.
    + apply (H K_client_secret). simpl. auto.
Qed.

Lemma customer_section_inv w :
  required_ready (config w) -> refresh_token (config w) <> ""%string ->
  credentials_inv (customer_section w).
Proof. intros Hr Ht. unfold credentials_inv. crunch_if; split; assumption. Qed.

Lemma generateAuthUrl_inv w :
  required_ready (config w) -> credentials_inv (generateAuthUrl w).
Proof.
  intros Hr. unfold credentials_inv, generateAuthUrl.
  destruct (port_owner _); simpl; [exact I|exact Hr].
Qed.

Lemma refresh_section_inv w :
  required_ready (config w) -> credentials_inv (refresh_section w).
Proof.
  intros Hr. unfold refresh_section.
  destruct (truthy (refresh_token (config w))) eqn:E; simpl.
  - apply customer_section_inv; [exact Hr|]. apply truthy_nonempty. exact E.
  - exact Hr.
Qed.

Lemma prompt_required_inv rest : forall w,
  (forall k, In k requiredFields -> ~ In k rest ->
             config_get k (config w) <> ""%string) ->
  credentials_inv (prompt_required rest w).
Proof.
  induction rest as [|field rest IH]; intros w H; simpl.
  - apply refresh_section_inv, required_ready_get. intros k Hk.
    apply H; [exact Hk|]. intros [].
  - destruct (truthy (config_get field (config w))) eqn:E; simpl.
    + apply IH. intros k Hk Hnot.
      destruct (key_eq_dec k field) as [->|Hne].
      * apply truthy_nonempty. exact E.
      * apply H; [exact Hk|]. intros [Heq|Hin]; [congruence|contradiction].
    + exact H.
Qed.

(** The invariant depends on the phase and the configuration only. *)
Lemma credentials_inv_config ph w w' :
  config w' = config w -> credentials_inv (ph, w) -> credentials_inv (ph, w').
Proof. unfold credentials_inv. simpl. intros ->. auto. Qed.

Lemma credentials_inv_required ph w :
  credentials_inv (ph, w) ->
  match ph with P_Field _ _ | P_Crashed _ => True | _ => required_ready (config w) end.
Proof. unfold credentials_inv. destruct ph; simpl; tauto. Qed.

Lemma on_line_inv ph answer w :
  credentials_inv (ph, w) -> event_ok (ph, w) (EvLine answer) ->
  credentials_inv (on_line ph answer w).
Proof.
  intros Hinv [Hcred Hretry]. simpl in Hcred, Hretry.
  destruct ph; simpl; try exact Hinv.
  { (* a required field is answered *)
    apply prompt_required_inv. intros k Hk Hnot. simpl.
    destruct (key_eq_dec k field) as [->|Hne].
    + rewrite config_get_set_eq. apply Hcred. reflexivity.
    + rewrite config_get_set_ne by exact Hne.
      apply Hinv; [exact Hk|]. intros [Heq|Hin]; [congruence|contradiction]. }
  { (* generate an authorization URL? *)
    destruct (is_yes (toLowerCase answer)).
    + apply generateAuthUrl_inv. exact Hinv.
    + exact Hinv. }
  { (* retry? *)
    unfold on_retry. rewrite Hretry by reflexivity.
    apply generateAuthUrl_inv. exact Hinv. }
  { (* manual refresh token *)
    apply customer_section_inv; simpl.
    + exact Hinv.
    + apply Hcred. reflexivity. }
  (* the remaining questions do not touch the credentials *)
  all: destruct Hinv as [Hr Ht]; unfold credentials_inv;
    crunch_if; split; assumption.
Qed.

Lemma on_token_inv authCode r w :
  credentials_inv (P_AwaitToken authCode, w) -> credentials_inv (on_token r w).
Proof.
  intros Hinv. unfold credentials_inv in Hinv. simpl in Hinv.
  destruct r as [refresh|e]; simpl.
  - destruct (truthy_opt refresh) eqn:E.
    + apply truthy_opt_some in E. destruct E as (s & -> & Hs).
      apply customer_section_inv; simpl; [exact Hinv|exact Hs].
    + exact Hinv.
  - exact Hinv.
Qed.

Lemma on_api_inv ph r w :
  credentials_inv (ph, w) -> credentials_inv (on_api ph r w).
Proof.
  intros Hinv. unfold credentials_inv in *.
  destruct ph; simpl in *; try exact Hinv;
    try destruct r; crunch_if; assumption.
Qed.

Lemma deliver_inv req_url ph w :
  credentials_inv (ph, w) ->
  credentials_inv (deliver parse_url req_url ph w).
Proof.
  intros Hinv. unfold deliver.
  destruct (port_owner w) as [sid|]; [|exact Hinv].
  destruct (handler parse_url sid req_url w) as [w'|] eqn:E; [|exact I].
  destruct (handler_frame _ _ _ _ _ E) as (Hc & _).
  destruct ph;
    try match goal with
        | |- credentials_inv (?p, _) =>
            apply (credentials_inv_config p w w' Hc); exact Hinv
        end.
  destruct (promises w' !! server) as [[authCode|]|].
  - unfold credentials_inv in *. simpl in *. rewrite Hc. exact Hinv.
  - apply (credentials_inv_config _ w w' Hc); exact Hinv.
  - apply (credentials_inv_config _ w w' Hc); exact Hinv.
Qed.

(** Every turn of the event loop keeps the invariant, as long as the
    operator behaves. *)
Lemma step_inv st ev :
  credentials_inv st -> event_ok st ev ->
  credentials_inv (step parse_url st ev).
Proof.
  destruct st as [ph w]. intros Hinv Hok. unfold step.
  destruct (terminal ph) eqn:T; [exact Hinv|].
  destruct ev as [req_url|ms|answer|r|r].
  - apply deliver_inv. exact Hinv.
  - apply (credentials_inv_config ph w); [apply elapse_frame|exact Hinv].
  - apply on_line_inv; assumption.
  - destruct ph; try exact Hinv. eapply on_token_inv. exact Hinv.
  - apply on_api_inv. exact Hinv.
Qed.

Lemma run_inv events : forall st,
  credentials_inv st -> run_ok parse_url st events ->
  credentials_inv (run parse_url st events).
Proof.
  induction events as [|ev events IH]; intros st Hinv Hok; simpl.
  - exact Hinv.
  - destruct Hok as [Hev Hrest]. apply IH; [apply step_inv; assumption|exact Hrest].
Qed.

Lemma main_inv env : credentials_inv (main (initial_world env)).
Proof.
  unfold main, promptForMissingConfig. apply prompt_required_inv.
  intros k Hk Hnot. contradiction.
Qed.

(** C6, as amended.  In a run of the script from its start in which the
    operator gives no empty answer to a credential prompt and does not
    decline the retry of the authorization step, the developer token, the
    client id, the client secret and the refresh token are non-empty at every
    control point of the menu loop, so the client and the customer of every
    API call are built from non-empty credentials. *)
Theorem setup_leaves_credentials_ready env events :
  run_ok parse_url (main (initial_world env)) events ->
  let st := run parse_url (main (initial_world env)) events in
  post_setup (fst st) = true ->
  let client := initializeClient (config (snd st)) in
  let customer := createCustomerInstance (config (snd st)) in
  api_developer_token client <> ""%string /\
  api_client_id client <> ""%string /\
  api_client_secret client <> ""%string /\
  cust_refresh_token customer <> ""%string.
Proof.
  intros Hok st Hpost client customer.
  pose proof (run_inv events _ (main_inv env) Hok) as Hinv.
  fold st in Hinv. destruct st as [ph w]. unfold credentials_inv in Hinv.
  simpl in *.
  destruct ph; simpl in Hpost; try discriminate;
    destruct Hinv as ((H1 & H2 & H3) & H4); repeat split; assumption.
Qed.

End Credentials.

(** ** Errors of API calls *)

Section ApiErrors.
Import Js QueryTool.

Variable parse_url : string -> option (list (string * string)).





End ApiErrors.

(** ** The authorization URL *)

Section AuthorizationUrl.
Import Js QueryTool.

(** C7 fails as stated: the archived playground asks the provider to show
    the code to the operator (out-of-band) instead of redirecting to a local
    listener. *)
Lemma archive_redirect_is_out_of_band :
  OAuth2.searchParams_get "redirect_uri"
    (OAuth2.searchParams (Archive.authorizeUrl "client-1" "secret-1"))
  = Some "urn:ietf:wg:oauth:2.0:oob"%string /\
  OAuth2.searchParams_get "redirect_uri"
    (OAuth2.searchParams (Archive.authorizeUrl "client-1" "secret-1"))
  <> Some redirect_target.
Proof. split; [reflexivity|]. vm_compute. discriminate. Qed.

(** C7, as amended.  The URL that [generateAuthUrl] of googleAdsQueryTool.ts
    and clickViewFeb2025.ts prints carries the client id of the
    configuration, the redirect target [http://localhost:8080] (the port of
    the listener that the same call binds), the adwords scope,
    [access_type=offline] and [prompt=consent].  The URL of the archived
    playground carries the same client id, scope, access type and prompt,
    with the out-of-band redirect target. *)
Theorem authorization_url_parameters c w cid secret :
  let q := OAuth2.searchParams (authorizeUrl c) in
  let qa := OAuth2.searchParams (Archive.authorizeUrl cid secret) in
  (OAuth2.searchParams_get "client_id" q = Some (client_id c) /\
   OAuth2.searchParams_get "redirect_uri" q = Some "http://localhost:8080"%string /\
   redirect_target = ("http://localhost:" +:+ String_of_number port)%string /\
   OAuth2.searchParams_get "scope" q
   = Some "https://www.googleapis.com/auth/adwords"%string /\
   OAuth2.searchParams_get "access_type" q = Some "offline"%string /\
   OAuth2.searchParams_get "prompt" q = Some "consent"%string) /\
  In (console_log_url (authorizeUrl (config w))) (out (snd (generateAuthUrl w))) /\
  (OAuth2.searchParams_get "client_id" qa = Some cid /\
   OAuth2.searchParams_get "redirect_uri" qa
   = Some "urn:ietf:wg:oauth:2.0:oob"%string /\
   OAuth2.searchParams_get "scope" qa
   = Some "https://www.googleapis.com/auth/adwords"%string /\
   OAuth2.searchParams_get "access_type" qa = Some "offline"%string /\
   OAuth2.searchParams_get "prompt" qa = Some "consent"%string).
Proof.
  simpl. split; [repeat split|]. split; [|repeat split].
  unfold generateAuthUrl, instructions, log. repeat case_match; simpl; auto 10.
Qed.

End AuthorizationUrl.

(** ** Setup on concrete inputs *)

Section SetupScenarios.
Import Js QueryTool.

(** C6 fails as stated: an empty answer to the developer-token question is
    stored as it is, the setup completes, and the first API call is made
    with an empty developer token. *)
Lemma empty_answer_reaches_api_call :
  let st := run plain_parse_url
              (main (initial_world env_without_developer_token))
              [EvLine ""; EvLine "1"] in
  fst st = P_ListCustomers /\
  api_phase (fst st) = true /\
  api_developer_token (initializeClient (config (snd st))) = ""%string.
Proof. vm_compute. repeat split. Qed.

Lemma setup_leaves_credentials_ready_witness :
  let events :=
    [EvLine "no"; EvLine "refresh-1"; EvLine "1234567890"; EvLine "no";
     EvLine "1"]%string in
  let st := run plain_parse_url (main (initial_world sample_env)) events in
  run_ok plain_parse_url (main (initial_world sample_env)) events /\
  fst st = P_ListCustomers /\
  cust_refresh_token (createCustomerInstance (config (snd st))) <> ""%string.
Proof.
  intros events st.
  assert (run_ok plain_parse_url (main (initial_world sample_env)) events) as Hok.
  { vm_compute. repeat split; intros; discriminate. }
  split; [exact Hok|]. split; [reflexivity|].
  destruct (setup_leaves_credentials_ready plain_parse_url sample_env events Hok)
    as (_ & _ & _ & H); [reflexivity|exact H].
Defined.


End SetupScenarios.

(** ** Whole runs: what the configuration keeps *)

Section Presets.
Import Js QueryTool Runs.

Variable parse_url : string -> option (list (string * string)).

Lemma truthy_empty s : truthy s = false <-> s = ""%string.
Proof.
  unfold truthy. destruct (String.eqb_spec s ""); simpl; split; congruence.
Qed.

Lemma negb_truthy_empty s : negb (truthy s) = true -> s = ""%string.
Proof. intros H. apply truthy_empty. destruct (truthy s); [discriminate|reflexivity]. Qed.

Section Kept.
Variable c0 : GoogleAdsConfig.

Lemma keeps_set k v w :
  keeps c0 w -> config_get k (config w) = ""%string ->
  keeps c0 (set_config (config_set k v (config w)) w).
Proof.
  intros Hk He k' Hk'. simpl.
  destruct (key_eq_dec k' k) as [->|Hne].
  - exfalso. apply Hk'. rewrite <- (Hk k Hk'). exact He.
  - rewrite config_get_set_ne by exact Hne. apply Hk. exact Hk'.
Qed.

Lemma save_config_preset w : keeps c0 w -> preset_inv c0 (save_config w).
Proof. intros Hk. split; [exact Hk|exact I]. Qed.

Lemma login_section_preset w : keeps c0 w -> preset_inv c0 (login_section w).
Proof.
  intros Hk. unfold login_section.
  destruct (negb (truthy (login_customer_id (config w)))) eqn:E.
  - split; [exact Hk|]. simpl. apply negb_truthy_empty. exact E.
  - apply save_config_preset. exact Hk.
Qed.

Lemma customer_section_preset w : keeps c0 w -> preset_inv c0 (customer_section w).
Proof.
  intros Hk. unfold customer_section.
  destruct (negb (truthy (customer_id (config w)))) eqn:E.
  - split; [exact Hk|]. simpl. apply negb_truthy_empty. exact E.
  - apply login_section_preset. exact Hk.
Qed.

Lemma generateAuthUrl_preset w :
  keeps c0 w -> refresh_token (config w) = ""%string ->
  preset_inv c0 (generateAuthUrl w).
Proof.
  intros Hk He. unfold generateAuthUrl.
  destruct (port_owner _); (split; [exact Hk|]); simpl; [exact I|exact He].
Qed.

Lemma refresh_section_preset w : keeps c0 w -> preset_inv c0 (refresh_section w).
Proof.
  intros Hk. unfold refresh_section.
  destruct (negb (truthy (refresh_token (config w)))) eqn:E.
  - split; [exact Hk|]. simpl. apply negb_truthy_empty. exact E.
  - apply customer_section_preset. exact Hk.
Qed.

Lemma prompt_required_preset rest : forall w,
  keeps c0 w -> preset_inv c0 (prompt_required rest w).
Proof.
  induction rest as [|field rest IH]; intros w Hk; simpl.
  - apply refresh_section_preset. exact Hk.
  - destruct (negb (truthy (config_get field (config w)))) eqn:E.
    + split; [exact Hk|]. simpl. apply negb_truthy_empty. exact E.
    + apply IH. exact Hk.
Qed.

Lemma on_line_preset ph answer w :
  preset_inv c0 (ph, w) -> preset_inv c0 (on_line ph answer w).
Proof.
  intros [Hk Hph]. simpl in Hk, Hph. fold (keeps c0 w) in Hk.
  destruct ph; simpl; try (split; assumption).
  { apply prompt_required_preset. apply keeps_set; assumption. }
  { destruct (is_yes (toLowerCase answer)).
    - apply generateAuthUrl_preset; assumption.
    - split; assumption. }
  { unfold on_retry. destruct (is_yes (toLowerCase answer)).
    - apply generateAuthUrl_preset; assumption.
    - apply customer_section_preset. exact Hk. }
  { apply customer_section_preset. apply (keeps_set K_refresh_token); assumption. }
  { apply login_section_preset. apply (keeps_set K_customer_id); assumption. }
  { destruct (is_yes (toLowerCase answer)).
    - split; assumption.
    - apply save_config_preset. exact Hk. }
  { apply save_config_preset. apply (keeps_set K_login_customer_id); assumption. }
  all: unfold preset_inv; crunch_if; split; try exact I; exact Hk.
Qed.

Lemma on_token_preset authCode r w :
  preset_inv c0 (P_AwaitToken authCode, w) -> preset_inv c0 (on_token r w).
Proof.
  intros [Hk Hph]. simpl in Hk, Hph. fold (keeps c0 w) in Hk.
  destruct r as [refresh|e]; simpl.
  - destruct (truthy_opt refresh).
    + apply customer_section_preset. apply (keeps_set K_refresh_token); assumption.
    + split; assumption.
  - split; assumption.
Qed.

Lemma preset_inv_config ph w w' :
  config w' = config w -> preset_inv c0 (ph, w) -> preset_inv c0 (ph, w').
Proof. unfold preset_inv. simpl. intros ->. auto. Qed.

Lemma on_api_preset ph r w :
  preset_inv c0 (ph, w) -> preset_inv c0 (on_api ph r w).
Proof.
  intros [Hk Hph]. simpl in Hk, Hph.
  destruct ph; simpl; try (split; assumption);
    try destruct r; unfold preset_inv; crunch_if; split; try exact I; exact Hk.
Qed.

Lemma deliver_preset req_url ph w :
  preset_inv c0 (ph, w) -> preset_inv c0 (deliver parse_url req_url ph w).
Proof.
  intros Hinv. unfold deliver.
  destruct (port_owner w) as [sid|]; [|exact Hinv].
  destruct (handler parse_url sid req_url w) as [w'|] eqn:E.
  2: { destruct Hinv as [Hk _]. split; [exact Hk|exact I]. }
  destruct (handler_frame _ _ _ _ _ E) as (Hc & _).
  destruct ph;
    try match goal with
        | |- preset_inv _ (?p, _) =>
            apply (preset_inv_config p w w' Hc); exact Hinv
        end.
  destruct (promises w' !! server) as [[authCode|]|].
  - unfold preset_inv in *. simpl in *. rewrite Hc. exact Hinv.
  - apply (preset_inv_config _ w w' Hc); exact Hinv.
  - apply (preset_inv_config _ w w' Hc); exact Hinv.
Qed.

Lemma step_preset st ev :
  preset_inv c0 st -> preset_inv c0 (step parse_url st ev).
Proof.
  destruct st as [ph w]. intros Hinv. unfold step.
  destruct (terminal ph) eqn:T; [exact Hinv|].
  destruct ev as [req_url|ms|answer|r|r].
  - apply deliver_preset. exact Hinv.
  - apply (preset_inv_config ph w); [apply elapse_frame|exact Hinv].
  - apply on_line_preset. exact Hinv.
  - destruct ph; try exact Hinv. eapply on_token_preset. exact Hinv.
  - apply on_api_preset. exact Hinv.
Qed.

Lemma run_preset events : forall st,
  preset_inv c0 st -> preset_inv c0 (run parse_url st events).
Proof.
  induction events as [|ev events IH]; intros st Hinv; simpl.
  - exact Hinv.
  - apply IH, step_preset. exact Hinv.
Qed.

End Kept.

(** X1.  A value that the environment provides is never overwritten: after
    any sequence of events the configuration still holds, under every key
    that started non-empty, the value it started with. *)
Theorem preset_values_are_kept env events k :
  config_get k (default_config env) <> ""%string ->
  config_get k (config (snd (run parse_url (main (initial_world env)) events)))
  = config_get k (default_config env).
Proof.
  intros Hk.
  assert (preset_inv (default_config env) (main (initial_world env))) as H0.
  { unfold main, promptForMissingConfig. apply prompt_required_preset.
    intros k' _. reflexivity. }
  destruct (run_preset (default_config env) events _ H0) as [Hkeep _].
  apply Hkeep. exact Hk.
Qed.

End Presets.

Section RunsOfTheMenu.
Import Js QueryTool Runs.

Variable parse_url : string -> option (list (string * string)).

Lemma run_cons st ev events :
  run parse_url st (ev :: events) = run parse_url (step parse_url st ev) events.
Proof. reflexivity. Qed.

Lemma run_terminal events : forall ph w,
  terminal ph = true -> run parse_url (ph, w) events = (ph, w).
Proof.
  induction events as [|ev events IH]; intros ph w T; simpl; [reflexivity|].
  rewrite T. apply IH. exact T.
Qed.

(** One turn of the menu loop stays in the menu loop or ends the script, and
    leaves the configuration alone. *)
Lemma step_post_setup ph w ev :
  post_setup ph = true ->
  let st := step parse_url (ph, w) ev in
  (post_setup (fst st) = true \/ terminal (fst st) = true) /\
  config (snd st) = config w.
Proof.
  intros Hp. unfold step.
  destruct (terminal ph) eqn:T; [destruct ph; discriminate|].
  destruct ev as [req_url|ms|answer|r|r].
  - destruct (deliver_frame parse_url req_url ph w) as [Hc _].
    split; [|exact Hc]. unfold deliver.
    destruct (port_owner w); [|left; exact Hp].
    destruct (handler parse_url _ req_url w); [|right; reflexivity].
    destruct ph; try discriminate Hp; left; reflexivity.
  - split; [left; exact Hp|apply elapse_frame].
  - destruct ph; try discriminate Hp; simpl;
      crunch_if; split; auto.
  - destruct ph; try discriminate Hp; simpl; split; auto.
  - destruct ph; try discriminate Hp; simpl;
      try destruct r; crunch_if; split; auto.
Qed.

(** X2.  Once the setup is over, nothing changes the configuration any
    more: whatever the operator types, whatever the API calls return and
    whatever requests arrive during the menu loop, the configuration is the
    one the setup left, and the script is in the menu loop or has ended. *)
Theorem menu_loop_keeps_config events : forall ph w,
  post_setup ph = true ->
  let st := run parse_url (ph, w) events in
  config (snd st) = config w /\
  (post_setup (fst st) = true \/ terminal (fst st) = true).
Proof.
  induction events as [|ev events IH]; intros ph w Hp.
  - split; [reflexivity|left; exact Hp].
  - rewrite run_cons.
    destruct (step_post_setup ph w ev Hp) as [[Hpost|Hterm] Hc];
      destruct (step parse_url (ph, w) ev) as [ph' w']; cbn [fst snd] in *.
    + destruct (IH ph' w' Hpost) as [Hc' Hph']. split; [congruence|exact Hph'].
    + rewrite (run_terminal events ph' w' Hterm). cbn [fst snd].
      split; [exact Hc|right; exact Hterm].
Qed.

Lemma Phase_exited_dec (ph : Phase) : {ph = P_Exited} + {ph <> P_Exited}.
Proof. destruct ph; (left; reflexivity) || (right; discriminate). Qed.

Lemma prompt_required_goes_on rest : forall w,
  fst (prompt_required rest w) <> P_Exited.
Proof.
  induction rest as [|f rest IH]; intros w; simpl.
  - crunch_if; discriminate.
  - destruct (negb (truthy _)); [simpl; discriminate|apply IH].
Qed.

(** A turn that ends the script normally is the choice 6 at the menu. *)
Lemma step_exits ph w ev :
  fst (step parse_url (ph, w) ev) = P_Exited ->
  ph = P_Exited \/ (ph = P_Menu /\ ev = EvLine "6").
Proof.
  unfold step. destruct (terminal ph) eqn:T.
  { simpl. intros ->. left. reflexivity. }
  destruct ev as [req_url|ms|answer|r|r].
  - unfold deliver. destruct (port_owner w); [|simpl; intros ->; discriminate T].
    destruct (handler parse_url _ req_url w); [|discriminate].
    destruct ph; try (simpl; discriminate).
    repeat case_match; simpl; discriminate.
  - simpl. intros ->. discriminate T.
  - destruct ph; try (simpl; discriminate);
      try solve [simpl; unfold on_retry; crunch_if;
                 try unfold generateAuthUrl;
                 try destruct (port_owner _); simpl; discriminate].
    + simpl. intros E. destruct (prompt_required_goes_on _ _ E).
    + simpl.
      destruct (String.eqb_spec answer "1"); [simpl; discriminate|].
      destruct (String.eqb_spec answer "2"); [simpl; discriminate|].
      destruct (String.eqb_spec answer "3"); [simpl; discriminate|].
      destruct (String.eqb_spec answer "4"); [simpl; discriminate|].
      destruct (String.eqb_spec answer "5"); [simpl; discriminate|].
      destruct (String.eqb_spec answer "6"); [|simpl; discriminate].
      subst answer. intros _. right. split; reflexivity.
  - destruct ph; try discriminate T; try (simpl; discriminate).
    destruct r; crunch_if; discriminate.
  - destruct ph; try discriminate T; try (simpl; discriminate);
      destruct r; crunch_if; discriminate.
Qed.

(** X3.  The script ends normally only by the operator's own choice: a run
    that has reached the exit consists of events that lead to the menu, the
    line 6 typed there, and events that are ignored afterwards. *)
Theorem exit_only_by_choice events : forall st,
  fst st <> P_Exited ->
  fst (run parse_url st events) = P_Exited ->
  exists before after,
    events = before ++ EvLine "6" :: after /\
    fst (run parse_url st before) = P_Menu.
Proof.
  induction events as [|ev events IH]; intros st Hne Hex.
  - contradiction.
  - rewrite run_cons in Hex. destruct st as [ph w].
    pose proof (step_exits ph w ev) as Hs.
    destruct (step parse_url (ph, w) ev) as [ph' w'] eqn:E.
    destruct (Phase_exited_dec ph') as [Hx|Hx].
    + subst ph'.
      destruct (Hs eq_refl) as [->|[-> ->]]; [contradiction|].
      exists [], events. split; reflexivity.
    + destruct (IH (ph', w') Hx Hex) as (before & after & -> & Hm).
      exists (ev :: before), after. split; [reflexivity|].
      rewrite run_cons, E. exact Hm.
Qed.

End RunsOfTheMenu.

(** ** Whole runs: the listener, its promise and its timer *)

Section ListenerRuns.
Import Js QueryTool Runs.

Variable parse_url : string -> option (list (string * string)).

(** A new attempt keeps the servers in order and waits on its own server. *)
Lemma generateAuthUrl_listener w :
  servers_ok w -> listener_inv (generateAuthUrl w).
Proof.
  intros (HA & HB & HC).
  destruct (port_owner w) as [owner|] eqn:Ho.
  { destruct (generateAuthUrl_busy w owner Ho) as [Hterm _].
    intros T. congruence. }
  destruct (generateAuthUrl_bound w Ho) as (w' & -> & Ho' & Hp' & _ & Hk' & Ht' & _).
  intros _. unfold servers_ok. simpl. rewrite Ho', Hp', Ht'.
  split; [split; [|split]|].
  - intros sid [= <-]. rewrite length_app. simpl. lia.
  - intros due sid Hin. destruct (HB due sid Hin) as [code Hc].
    exists code. apply lookup_app_l_Some. exact Hc.
  - intros sid code [= <-] Hl. rewrite lookup_app_r in Hl by lia.
    rewrite Nat.sub_diag in Hl. discriminate Hl.
  - split; [reflexivity|]. rewrite lookup_app_r by lia.
    rewrite Nat.sub_diag. reflexivity.
Qed.

Lemma prompt_required_listener rest : forall w,
  servers_ok w -> no_pending_owner w ->
  listener_inv (prompt_required rest w).
Proof.
  induction rest as [|field rest IH]; intros w Hs Hn; simpl.
  - unfold listener_inv. crunch_if; intros _; split; assumption.
  - destruct (negb (truthy _)); [|apply IH; assumption].
    intros _. split; assumption.
Qed.

Lemma customer_section_listener w :
  servers_ok w -> no_pending_owner w -> listener_inv (customer_section w).
Proof.
  intros Hs Hn. unfold listener_inv. crunch_if; intros _; split; assumption.
Qed.

Lemma on_line_listener ph answer w :
  listener_inv (ph, w) -> terminal ph = false ->
  listener_inv (on_line ph answer w).
Proof.
  intros Hinv T. destruct (Hinv T) as [Hs Hd]. simpl in Hs, Hd.
  destruct ph; simpl; try exact Hinv.
  { apply prompt_required_listener; assumption. }
  { destruct (is_yes _); [apply generateAuthUrl_listener; exact Hs|].
    intros _. split; assumption. }
  { unfold on_retry. destruct (is_yes _).
    - apply generateAuthUrl_listener; exact Hs.
    - apply customer_section_listener; assumption. }
  all: unfold listener_inv; crunch_if; intros _; split; assumption.
Qed.

Lemma on_token_listener authCode r w :
  listener_inv (P_AwaitToken authCode, w) -> listener_inv (on_token r w).
Proof.
  intros Hinv. destruct (Hinv eq_refl) as [Hs [_ Hn]]. simpl in Hs, Hn.
  destruct r as [refresh|e]; simpl.
  - destruct (truthy_opt refresh).
    + apply customer_section_listener; assumption.
    + intros _. split; assumption.
  - intros _. split; assumption.
Qed.

Lemma on_api_listener ph r w :
  listener_inv (ph, w) -> terminal ph = false ->
  listener_inv (on_api ph r w).
Proof.
  intros Hinv T. destruct (Hinv T) as [Hs Hd]. simpl in Hs, Hd.
  destruct ph; simpl; try exact Hinv;
    try destruct r; unfold listener_inv; crunch_if; intros _; split; assumption.
Qed.

(** The world after the handler has answered 200. *)
Lemma resolve_lookup (sid : nat) code w :
  (sid < length (promises w))%nat ->
  exists held,
    promises (resolveAuthCodePromise sid code w) !! sid = Some (Some held) /\
    (promises w !! sid = Some None -> held = code) /\
    (forall c, promises w !! sid = Some (Some c) -> held = c) /\
    length (promises (resolveAuthCodePromise sid code w)) = length (promises w) /\
    (forall c, promises w !! sid = Some (Some c) ->
               promises (resolveAuthCodePromise sid code w) = promises w).
Proof.
  intros Hlt. unfold resolveAuthCodePromise.
  destruct (promises w !! sid) as [[c|]|] eqn:E.
  - exists c. repeat split; congruence.
  - exists code. simpl. rewrite list_lookup_insert_eq by exact Hlt.
    rewrite length_insert. repeat split; congruence.
  - apply lookup_lt_is_Some in Hlt. rewrite E in Hlt. destruct Hlt; discriminate.
Qed.

Lemma deliver_listener req_url ph w :
  listener_inv (ph, w) -> terminal ph = false ->
  listener_inv (deliver parse_url req_url ph w).
Proof.
  intros Hinv T.
  unfold deliver. destruct (port_owner w) as [sid|] eqn:Ho; [|exact Hinv].
  unfold handler. destruct (parse_url req_url) as [params|]; [|discriminate].
  destruct (Hinv T) as [(HA & HB & HC) Hd]. simpl in HA, HB, HC, Hd.
  destruct (truthy_opt _) eqn:Ecode.
  2: { (* 400: only the console changes *)
    destruct ph; try exact Hinv.
    destruct Hd as [Hown Hpend]. simpl. rewrite Hpend. exact Hinv. }
  (* 200 *)
  set (code := default ""%string (OAuth2.searchParams_get "code" params)).
  set (w1 := emit (http_response 200 "text/html" success_page) w).
  assert (sid < length (promises w1))%nat as Hlt.
  { simpl. pose proof (HA sid Ho). lia. }
  destruct (resolve_lookup sid code w1 Hlt)
    as (held & Hheld & Hnew & Hold & Hlen & Hsame).
  destruct (resolve_frame sid code w1) as (_ & Eo & Ek & Et & _).
  set (w2 := resolveAuthCodePromise sid code w1) in *.
  simpl in Eo, Ek, Et, Hlen.
  assert (servers_ok (setTimeout_close 1000 sid w2)) as Hs'.
  { split; [|split]; simpl.
    - intros s. rewrite Eo, Hlen. apply HA.
    - intros due s [[= <- <-]|Hin].
      + exists held. exact Hheld.
      + rewrite Et in Hin. destruct (HB due s Hin) as [c Hc].
        exists c. apply resolve_settled. exact Hc.
    - intros s c. rewrite Eo, Ho. intros [= <-] _.
      exists (clock w2 + 1000). split; [left; reflexivity|lia]. }
  assert (no_pending_owner (setTimeout_close 1000 sid w2)) as Hn'.
  { intros s. simpl. rewrite Eo, Ho. intros [= <-]. rewrite Hheld. discriminate. }
  destruct ph; try (intros _; split; assumption).
  - (* waiting for the code *)
    destruct Hd as [Hown Hpend]. assert (server = sid) as -> by congruence.
    simpl. rewrite Hheld. rewrite (Hnew Hpend).
    intros _. split; [exact Hs'|]. simpl. split; [|exact Hn'].
    exists sid. split.
    + rewrite Hlen. apply HA. exact Ho.
    + rewrite Hheld, (Hnew Hpend). reflexivity.
  - (* exchanging *)
    destruct Hd as [(s0 & Hs0 & Hc0) Hn].
    intros _. split; [exact Hs'|]. simpl. split; [|exact Hn'].
    assert (s0 = sid) as -> by (pose proof (HA sid Ho); lia).
    exists sid. split.
    + rewrite Hlen. exact Hs0.
    + rewrite Hheld, (Hold _ Hc0). reflexivity.
Qed.

(** What is left once the due timers have fired. *)
Lemma close_all_owner_cases (due : list (Z * nat)) w :
  let w' := fold_right (fun t w => server_close (snd t) w) w due in
  port_owner w' = port_owner w \/
  (port_owner w' = None /\ exists t, In t due /\ port_owner w = Some (snd t)).
Proof.
  induction due as [|t due IH]; simpl; [left; reflexivity|].
  simpl in IH.
  set (w0 := fold_right (fun t w => server_close (snd t) w) w due) in *.
  unfold server_close. destruct (port_owner w0) as [owner|] eqn:E.
  - destruct (Nat.eqb_spec owner (snd t)) as [->|Hne]; simpl.
    + right. split; [reflexivity|]. destruct IH as [IH|[IH _]]; [|discriminate].
      exists t. split; [left; reflexivity|]. congruence.
    + rewrite E. destruct IH as [IH|[IH _]]; [left; exact IH|discriminate].
  - rewrite E. destruct IH as [IH|(_ & t' & Hin & Ht')].
    + left. exact IH.
    + right. split; [reflexivity|]. exists t'. split; [right; exact Hin|exact Ht'].
Qed.

Lemma elapse_world ms w :
  let w' := elapse ms w in
  promises w' = promises w /\ clock w' = clock w + Z.max 0 ms /\
  (forall t, In t (timers w') <-> In t (timers w) /\ ~ fst t <= clock w') /\
  (port_owner w' = port_owner w \/
   (port_owner w' = None /\
    exists t, In t (timers w) /\ port_owner w = Some (snd t))) /\
  (forall sid due, port_owner w' = Some sid -> In (due, sid) (timers w) ->
                   ~ due <= clock w').
Proof.
  unfold elapse, fire_timers.
  set (w0 := set_clock (clock w + Z.max 0 ms) w).
  set (due := filter (fun t => fst t <= clock w0) (timers w0)).
  set (rest := filter (fun t => ~ fst t <= clock w0) (timers w0)).
  destruct (close_all_frame due (set_timers rest w0)) as (Hc & Hk & Hp & Ht & _).
  simpl in Hc, Hk, Hp, Ht. simpl.
  split; [exact Hp|]. split; [exact Hk|]. split; [|split].
  - intros t. rewrite Ht, Hk. unfold rest.
    rewrite <- !list_elem_of_In, list_elem_of_filter. simpl. tauto.
  - destruct (close_all_owner_cases due (set_timers rest w0)) as [H|(H & t & Hin & Ht')].
    + left. exact H.
    + right. split; [exact H|]. exists t. split; [|exact Ht'].
      unfold due in Hin. apply list_elem_of_In, list_elem_of_filter in Hin.
      apply list_elem_of_In. apply Hin.
  - intros sid d Ho Hin Hdue. rewrite Hk in Hdue.
    apply (close_all_closes sid due (set_timers rest w0)); [|exact Ho].
    exists (d, sid). split; [|reflexivity].
    unfold due. apply list_elem_of_In, list_elem_of_filter. split.
    + simpl. exact Hdue.
    + apply list_elem_of_In. exact Hin.
Qed.

Lemma elapse_listener ms ph w :
  listener_inv (ph, w) -> terminal ph = false ->
  listener_inv (ph, elapse ms w).
Proof.
  intros Hinv T. destruct (Hinv T) as [(HA & HB & HC) Hd]. simpl in *.
  destruct (elapse_world ms w) as (Hp & Hk & Ht & Ho & Hdue).
  assert (forall sid, port_owner (elapse ms w) = Some sid ->
                      port_owner w = Some sid) as Hown.
  { intros sid H. destruct Ho as [Ho|[Ho _]]; congruence. }
  intros _. simpl. split; [split; [|split]|].
  - intros sid H. rewrite Hp. apply HA, Hown, H.
  - intros due sid Hin. rewrite Hp. apply Ht in Hin. apply (HB due sid), Hin.
  - intros sid code H Hl. rewrite Hp in Hl.
    destruct (HC sid code (Hown sid H) Hl) as (due & Hin & Hle).
    exists due. split.
    + apply Ht. split; [exact Hin|]. apply (Hdue sid due H Hin).
    + rewrite Hk. lia.
  - assert (no_pending_owner w -> no_pending_owner (elapse ms w)) as Hn.
    { intros Hn sid H. rewrite Hp. apply Hn, Hown, H. }
    destruct ph; try (apply Hn; exact Hd).
    + destruct Hd as [Hw Hpend]. rewrite Hp. split; [|exact Hpend].
      destruct Ho as [Ho|(_ & t & Hin & Ht')]; [congruence|].
      destruct t as [due sid]. simpl in Ht'.
      destruct (HB due sid Hin) as [c Hc]. congruence.
    + destruct Hd as [Hex Hno]. rewrite Hp. split; [exact Hex|apply Hn, Hno].
Qed.

Lemma step_listener st ev :
  listener_inv st -> listener_inv (step parse_url st ev).
Proof.
  destruct st as [ph w]. intros Hinv. unfold step.
  destruct (terminal ph) eqn:T; [exact Hinv|].
  destruct ev as [req_url|ms|answer|r|r].
  - apply deliver_listener; assumption.
  - apply elapse_listener; assumption.
  - apply on_line_listener; assumption.
  - destruct ph; try exact Hinv. eapply on_token_listener. exact Hinv.
  - apply on_api_listener; assumption.
Qed.

Lemma run_listener events : forall st,
  listener_inv st -> listener_inv (run parse_url st events).
Proof.
  induction events as [|ev events IH]; intros st Hinv; simpl.
  - exact Hinv.
  - apply IH, step_listener. exact Hinv.
Qed.

Lemma main_listener env : listener_inv (main (initial_world env)).
Proof.
  unfold main, promptForMissingConfig. apply prompt_required_listener.
  - split; [|split]; simpl.
    + discriminate.
    + intros due sid [].
    + discriminate.
  - intros sid. simpl. discriminate.
Qed.

End ListenerRuns.

(** ** Whole runs: what the operator can rely on *)

Section RunFacts.
Import Js QueryTool Runs.

Variable parse_url : string -> option (list (string * string)).

Lemma run_snoc st events ev :
  run parse_url st (events ++ [ev])
  = step parse_url (run parse_url st events) ev.
Proof. unfold run. rewrite fold_left_app. reflexivity. Qed.

(** X4.  The script never waits for a redirect that cannot arrive: whenever
    a run from the start of the script is suspended on the promise of a
    server, that server is the one bound to the port and its promise is
    pending, so the next request that brings a non-empty code resumes the
    script with that code. *)
Theorem waiting_listener_is_bound env events sid :
  fst (run parse_url (main (initial_world env)) events) = P_AwaitCode sid ->
  let st := run parse_url (main (initial_world env)) events in
  port_owner (snd st) = Some sid /\
  promises (snd st) !! sid = Some None /\
  forall req_url params code,
    parse_url req_url = Some params ->
    OAuth2.searchParams_get "code" params = Some code ->
    code <> ""%string ->
    fst (step parse_url st (EvRequest req_url)) = P_AwaitToken code.
Proof.
  intros Hph st.
  pose proof (run_listener parse_url events _ (main_listener env)) as Hinv.
  fold st in Hinv, Hph. destruct st as [ph w]. simpl in Hph. subst ph.
  destruct (Hinv eq_refl) as [_ [Ho Hpend]]. simpl in Ho, Hpend.
  split; [exact Ho|]. split; [exact Hpend|].
  intros req_url params code Hp Hc Hne.
  destruct (code_request_effects parse_url sid req_url params code w
              Hp Hc Hne Hpend) as (w' & Hh & _ & Hres & _).
  rewrite (code_request_resumes parse_url sid req_url code w w' Ho Hh Hres).
  reflexivity.
Qed.

(** A second without anything else happening frees the port, unless the
    script waits for a redirect. *)
Lemma idle_second_frees_port ph w ms :
  listener_inv (ph, w) -> terminal ph = false ->
  (forall sid, ph <> P_AwaitCode sid) -> 1000 <= ms ->
  port_owner (elapse ms w) = None.
Proof.
  intros Hinv T Hnot Hms.
  destruct (Hinv T) as [(HA & HB & HC) Hd]. simpl in HA, HB, HC, Hd.
  assert (no_pending_owner w) as Hn.
  { destruct ph; try exact Hd; [destruct (Hnot server eq_refl)|apply Hd]. }
  destruct (port_owner (elapse ms w)) as [sid|] eqn:Ho; [|reflexivity].
  exfalso.
  assert (port_owner w = Some sid) as Hw.
  { destruct (elapse_owner ms w) as [E|E]; congruence. }
  pose proof (HA sid Hw) as Hlen.
  destruct (promises w !! sid) as [[code|]|] eqn:El.
  - destruct (HC sid code Hw El) as (due & Hin & Hle).
    apply (elapse_closes sid due ms w Hin); [lia|exact Ho].
  - apply (Hn sid Hw). exact El.
  - apply lookup_ge_None in El. lia.
Qed.

(** X5.  Outside the wait for a redirect the port is held for at most one
    more second: in any run from the start of the script, once 1000 ms pass
    while the script is running and not suspended on a redirect, no server
    of the script is bound to the port. *)
Theorem port_free_one_second_after_capture env events ms :
  1000 <= ms ->
  let st := run parse_url (main (initial_world env)) (events ++ [EvElapse ms]) in
  terminal (fst st) = false ->
  (forall sid, fst st <> P_AwaitCode sid) ->
  port_owner (snd st) = None.
Proof.
  intros Hms st. unfold st. rewrite run_snoc.
  pose proof (run_listener parse_url events _ (main_listener env)) as Hinv.
  destruct (run parse_url (main (initial_world env)) events) as [ph w].
  unfold step. destruct (terminal ph) eqn:T; [simpl; congruence|].
  simpl. intros _ Hnot.
  apply (idle_second_frees_port ph); assumption.
Qed.

(** X6.  The code that is exchanged is the one the listener of the current
    attempt captured: whenever a run from the start of the script is
    suspended on [getToken] for a code, the promise of the newest server
    holds that code, and it still holds it after any further events. *)
Theorem exchanged_code_is_the_captured_one env events authCode :
  fst (run parse_url (main (initial_world env)) events) = P_AwaitToken authCode ->
  let st := run parse_url (main (initial_world env)) events in
  exists sid,
    S sid = length (promises (snd st)) /\
    promises (snd st) !! sid = Some (Some authCode) /\
    forall more,
      promises (snd (run parse_url st more)) !! sid = Some (Some authCode).
Proof.
  intros Hph st.
  pose proof (run_listener parse_url events _ (main_listener env)) as Hinv.
  fold st in Hinv, Hph. destruct st as [ph w] eqn:Est. simpl in Hph. subst ph.
  destruct (Hinv eq_refl) as [_ [(sid & Hlen & Hheld) _]]. simpl in Hlen, Hheld.
  exists sid. split; [exact Hlen|]. split; [exact Hheld|].
  intros more. apply (run_kept parse_url more (P_AwaitToken authCode, w)).
  exact Hheld.
Qed.

(** X7.  With all six values in the environment the script asks nothing
    before the menu: [main] runs straight through the setup, writes the
    [.env] file from the values of the environment and shows the menu. *)
Theorem complete_env_skips_setup env :
  complete_env env ->
  let st := main (initial_world env) in
  fst st = P_Menu /\
  config (snd st) = default_config env /\
  questions (out (snd st)) = [(LF +:+ "Select an option (1-6): ")%string] /\
  In (writeFileSync ".env" (envContent (default_config env))) (out (snd st)) /\
  port_owner (snd st) = None.
Proof.
  intros H. unfold main, promptForMissingConfig, requiredFields.
  pose proof (H K_developer_token) as H1. pose proof (H K_client_id) as H2.
  pose proof (H K_client_secret) as H3. pose proof (H K_refresh_token) as H4.
  pose proof (H K_customer_id) as H5. pose proof (H K_login_customer_id) as H6.
  unfold prompt_required, refresh_section, customer_section, login_section.
  simpl. rewrite H1, H2, H3, H4, H5, H6. simpl.
  repeat split. do 12 right. left. reflexivity.
Qed.

(** X8.  A retry that the operator confirms a second or more after the
    previous event never fails on the port: in any run from the start of the
    script that has waited at least 1000 ms at the retry question, the
    answer yes starts a new attempt, with a new server bound to the port and
    a pending promise. *)
Theorem retry_after_a_second_binds env events ms answer :
  1000 <= ms ->
  fst (run parse_url (main (initial_world env)) (events ++ [EvElapse ms]))
  = P_AskRetry ->
  is_yes (toLowerCase answer) = true ->
  let st :=
    run parse_url (main (initial_world env))
      (events ++ [EvElapse ms; EvLine answer]) in
  exists sid,
    fst st = P_AwaitCode sid /\ port_owner (snd st) = Some sid /\
    promises (snd st) !! sid = Some None.
Proof.
  intros Hms Hph Hyes st. unfold st.
  replace (events ++ [EvElapse ms; EvLine answer])
    with ((events ++ [EvElapse ms]) ++ [EvLine answer])
    by (rewrite <- app_assoc; reflexivity).
  rewrite run_snoc. rewrite run_snoc in Hph |- *.
  pose proof (run_listener parse_url events _ (main_listener env)) as Hinv.
  destruct (run parse_url (main (initial_world env)) events) as [ph w].
  unfold step at 2. unfold step in Hph.
  destruct (terminal ph) eqn:T.
  { simpl in Hph. subst ph. discriminate T. }
  simpl in Hph. subst ph.
  assert (port_owner (elapse ms w) = None) as Hfree.
  { apply (idle_second_frees_port P_AskRetry); try assumption. discriminate. }
  unfold step. simpl. unfold on_retry. rewrite Hyes.
  destruct (generateAuthUrl_bound (elapse ms w) Hfree)
    as (w' & -> & Ho & Hp & _).
  exists (length (promises (elapse ms w))). simpl.
  split; [reflexivity|]. split; [exact Ho|].
  rewrite Hp, lookup_app_r by lia. rewrite Nat.sub_diag. reflexivity.
Qed.

Lemma prompt_required_port rest : forall w,
  port_owner (snd (prompt_required rest w)) = port_owner w.
Proof. intros w. apply prompt_required_frame. Qed.

(** Only the first questions lead to the first questions, and they leave
    the port alone. *)
Lemma step_early ph w ev :
  early (fst (step parse_url (ph, w) ev)) = true ->
  early ph = true /\
  (port_owner w = None -> port_owner (snd (step parse_url (ph, w) ev)) = None).
Proof.
  unfold step. destruct (terminal ph) eqn:T.
  { simpl. intros H. split; [exact H|auto]. }
  destruct ev as [req_url|ms|answer|r|r].
  - unfold deliver. destruct (port_owner w) as [sid|] eqn:Ho.
    2: { simpl. intros H. split; [exact H|]. intros _. exact Ho. }
    destruct (handler parse_url sid req_url w); [|discriminate].
    destruct ph; try (simpl; discriminate); try (simpl; intros _; split; [reflexivity|discriminate]).
    repeat case_match; simpl; discriminate.
  - simpl. intros H. split; [exact H|]. intros Ho.
    destruct (elapse_owner ms w) as [E|E]; congruence.
  - destruct ph; try discriminate T; try (simpl; discriminate);
      try solve [simpl; unfold on_retry; crunch_if;
                 try unfold generateAuthUrl;
                 try destruct (port_owner _); simpl; discriminate].
    simpl. intros _. split; [reflexivity|]. intros Ho.
    rewrite prompt_required_port. exact Ho.
  - destruct ph; try discriminate T; try (simpl; discriminate).
    + simpl. intros _. split; [reflexivity|auto].
    + simpl. intros _. split; [reflexivity|auto].
    + destruct r; crunch_if; discriminate.
  - destruct ph; try discriminate T; try (simpl; discriminate);
      try (simpl; intros _; split; [reflexivity|auto]);
      destruct r; crunch_if; discriminate.
Qed.

Lemma run_early events : forall st,
  (early (fst st) = true -> port_owner (snd st) = None) ->
  early (fst (run parse_url st events)) = true ->
  port_owner (snd (run parse_url st events)) = None.
Proof.
  induction events as [|ev events IH]; intros st H; [exact H|].
  change (run parse_url st (ev :: events))
    with (run parse_url (step parse_url st ev) events).
  apply IH. destruct st as [ph w]. intros He.
  destruct (step_early ph w ev He) as [Hph Hport]. apply Hport, H, Hph.
Qed.

(** The offer of an authorization URL is made while the port is free. *)
Lemma run_asks_generate_free env events :
  fst (run parse_url (main (initial_world env)) events) = P_AskGenerate ->
  port_owner (snd (run parse_url (main (initial_world env)) events)) = None.
Proof.
  intros H. apply run_early; [|rewrite H; reflexivity].
  intros _. unfold main, promptForMissingConfig.
  rewrite prompt_required_port. reflexivity.
Qed.

(** X9.  The script never stands in the way of its own first attempt, and
    at a retry its own listener holds the port for at most one more second.
    In any run from the start of the script, no listener of the script is
    bound while the first offer of the authorization URL is pending; and
    while the retry question is pending, a listener of the script that is
    still bound has served its code and has its close pending, due within
    1000 ms. *)
Theorem own_listener_at_the_questions env events :
  let st := run parse_url (main (initial_world env)) events in
  (fst st = P_AskGenerate -> port_owner (snd st) = None) /\
  (fst st = P_AskRetry ->
   forall sid, port_owner (snd st) = Some sid ->
     exists code due,
       promises (snd st) !! sid = Some (Some code) /\
       In (due, sid) (timers (snd st)) /\ due <= clock (snd st) + 1000).
Proof.
  intros st. split; [apply run_asks_generate_free|].
  intros Hph sid Ho.
  pose proof (run_listener parse_url events _ (main_listener env)) as Hinv.
  fold st in Hinv. unfold listener_inv in Hinv. rewrite Hph in Hinv.
  destruct (Hinv eq_refl) as [(Hnew & _ & Hdue) Hpend].
  assert (exists code, promises (snd st) !! sid = Some (Some code)) as [code Hc].
  { pose proof (Hnew sid Ho) as Hlen. pose proof (Hpend sid Ho) as Hnp.
    destruct (promises (snd st) !! sid) as [[code|]|] eqn:E.
    - exists code. reflexivity.
    - exfalso. apply Hnp. reflexivity.
    - apply lookup_ge_None in E. lia. }
  destruct (Hdue sid code Ho Hc) as (due & Hin & Hd).
  exists code, due. repeat split; assumption.
Qed.

End RunFacts.

(** ** Whole runs on concrete inputs *)

Section RunScenarios.
Import Js QueryTool Runs.

Lemma preset_values_are_kept_witness :
  config_get K_client_id (default_config sample_env) <> ""%string /\
  client_id
    (config (snd (run plain_parse_url (main (initial_world sample_env))
                    [EvLine "no"; EvLine "refresh-1"])))
  = "client-1"%string.
Proof.
  split; [discriminate|].
  apply (preset_values_are_kept plain_parse_url sample_env
           [EvLine "no"; EvLine "refresh-1"] K_client_id).
  discriminate.
Defined.

Lemma menu_loop_keeps_config_witness :
  post_setup P_Menu = true /\
  config (snd (run plain_parse_url (P_Menu, initial_world sample_env)
                 [EvLine "2"; EvLine "SELECT campaign.id FROM campaign";
                  EvApi (api_error true "UNAUTHENTICATED")]))
  = config (initial_world sample_env).
Proof.
  split; [reflexivity|].
  apply (menu_loop_keeps_config plain_parse_url
           [EvLine "2"; EvLine "SELECT campaign.id FROM campaign";
            EvApi (api_error true "UNAUTHENTICATED")]
           P_Menu (initial_world sample_env)).
  reflexivity.
Defined.

Lemma exit_only_by_choice_witness :
  exists before after,
    [EvLine "9"; EvLine "6"; EvLine "1"] = before ++ EvLine "6" :: after /\
    fst (run plain_parse_url (P_Menu, initial_world sample_env) before) = P_Menu.
Proof.
  apply (exit_only_by_choice plain_parse_url
           [EvLine "9"; EvLine "6"; EvLine "1"]
           (P_Menu, initial_world sample_env)).
  - discriminate.
  - vm_compute. reflexivity.
Defined.

Lemma waiting_listener_is_bound_witness :
  fst (run plain_parse_url (main (initial_world sample_env)) [EvLine "yes"])
  = P_AwaitCode 0 /\
  port_owner
    (snd (run plain_parse_url (main (initial_world sample_env)) [EvLine "yes"]))
  = Some 0%nat.
Proof.
  assert (fst (run plain_parse_url (main (initial_world sample_env))
                 [EvLine "yes"]) = P_AwaitCode 0) as H
    by (vm_compute; reflexivity).
  split; [exact H|].
  apply (waiting_listener_is_bound plain_parse_url sample_env [EvLine "yes"] 0 H).
Defined.

Lemma port_free_one_second_after_capture_witness :
  let events :=
    [EvLine "yes"; EvRequest "/?code=ABC123";
     EvToken (token_response (Some "R1"%string))] in
  port_owner
    (snd (run plain_parse_url (main (initial_world sample_env)) events))
  = Some 0%nat /\
  port_owner
    (snd (run plain_parse_url (main (initial_world sample_env))
            (events ++ [EvElapse 1000])))
  = None.
Proof.
  intros events. split; [vm_compute; reflexivity|].
  apply (port_free_one_second_after_capture plain_parse_url sample_env events 1000).
  - lia.
  - vm_compute. reflexivity.
  - intros sid. vm_compute. discriminate.
Defined.

Lemma exchanged_code_is_the_captured_one_witness :
  let events := [EvLine "yes"; EvRequest "/?code=ABC123";
                 EvRequest "/?code=OTHER"] in
  fst (run plain_parse_url (main (initial_world sample_env)) events)
  = P_AwaitToken "ABC123" /\
  exists sid,
    promises (snd (run plain_parse_url (main (initial_world sample_env)) events))
    !! sid = Some (Some "ABC123"%string).
Proof.
  intros events.
  assert (fst (run plain_parse_url (main (initial_world sample_env)) events)
          = P_AwaitToken "ABC123") as H by (vm_compute; reflexivity).
  split; [exact H|].
  destruct (exchanged_code_is_the_captured_one plain_parse_url sample_env
              events "ABC123" H) as (sid & _ & Hheld & _).
  exists sid. exact Hheld.
Defined.

Lemma complete_env_skips_setup_witness :
  complete_env (fun _ => Some "value"%string) /\
  fst (main (initial_world (fun _ => Some "value"%string))) = P_Menu.
Proof.
  assert (complete_env (fun _ => Some "value"%string)) as H
    by (intros k; reflexivity).
  split; [exact H|].
  apply (complete_env_skips_setup (fun _ => Some "value"%string) H).
Defined.

Lemma retry_after_a_second_binds_witness :
  let events :=
    [EvLine "yes"; EvRequest "/?code=ABC123"; EvToken (token_response None)] in
  exists sid,
    fst (run plain_parse_url (main (initial_world sample_env))
           (events ++ [EvElapse 1000; EvLine "YES"])) = P_AwaitCode sid /\
    port_owner
      (snd (run plain_parse_url (main (initial_world sample_env))
              (events ++ [EvElapse 1000; EvLine "YES"]))) = Some sid.
Proof.
  intros events.
  destruct (retry_after_a_second_binds plain_parse_url sample_env events 1000 "YES")
    as (sid & Hph & Ho & _).
  - lia.
  - vm_compute. reflexivity.
  - vm_compute. reflexivity.
  - exists sid. split; [exact Hph|exact Ho].
Defined.

Lemma own_listener_at_the_questions_witness :
  let events :=
    [EvLine "yes"; EvRequest "/?code=ABC123"; EvToken (token_response None)] in
  let st := run plain_parse_url (main (initial_world sample_env)) events in
  fst st = P_AskRetry /\ port_owner (snd st) = Some 0%nat /\
  exists code due,
    promises (snd st) !! 0%nat = Some (Some code) /\
    In (due, 0%nat) (timers (snd st)) /\ due <= clock (snd st) + 1000.
Proof.
  intros events st.
  assert (fst st = P_AskRetry) as Hph by (vm_compute; reflexivity).
  assert (port_owner (snd st) = Some 0%nat) as Ho by (vm_compute; reflexivity).
  split; [exact Hph|]. split; [exact Ho|].
  destruct (own_listener_at_the_questions plain_parse_url sample_env events)
    as [_ H].
  exact (H Hph 0%nat Ho).
Defined.

End RunScenarios.

(** ** The release of the port *)

Section Release.
Import Js QueryTool Runs.

Variable parse_url : string -> option (list (string * string)).

Lemma handler_timers sid req_url w w' :
  handler parse_url sid req_url w = Some w' ->
  forall t, In t (timers w) -> In t (timers w').
Proof.
  unfold handler. destruct (parse_url req_url) as [params|]; [|discriminate].
  destruct (truthy_opt _).
  - intros [= <-] t Ht. simpl. right.
    match goal with
    | |- In t (timers (resolveAuthCodePromise ?s ?c ?w1)) =>
        destruct (resolve_frame s c w1) as (_ & _ & _ & Et & _)
    end.
    rewrite Et. exact Ht.
  - intros [= <-] t Ht. exact Ht.
Qed.

Lemma closes_by_same D w w' :
  port_owner w' = port_owner w -> timers w' = timers w -> clock w' = clock w ->
  closes_by D w -> closes_by D w'.
Proof.
  intros Ho Ht Hc H sid Hs. rewrite Ho in Hs.
  destruct (H sid Hs) as (due & Hin & Hd).
  exists due. rewrite Ht, Hc. split; assumption.
Qed.

Lemma deliver_closes_by D req_url ph w :
  closes_by D w -> closes_by D (snd (deliver parse_url req_url ph w)).
Proof.
  intros H. unfold deliver.
  destruct (port_owner w) as [owner|] eqn:Ho; [|exact H].
  destruct (handler parse_url owner req_url w) as [w'|] eqn:Hh; [|exact H].
  destruct (handler_frame parse_url _ _ _ _ Hh) as (_ & _ & Ho' & Hc').
  assert (closes_by D w') as H'.
  { intros sid Hs. rewrite Ho', Ho in Hs.
    destruct (H sid) as (due & Hin & Hd); [rewrite Ho; exact Hs|].
    exists due. split; [eapply handler_timers; eassumption|].
    rewrite Hc'. exact Hd. }
  destruct ph; try exact H'.
  repeat case_match; exact H'.
Qed.

Lemma elapse_closes_by D ms w : closes_by D w -> closes_by D (elapse ms w).
Proof.
  intros H sid Hs.
  destruct (elapse_world ms w) as (_ & Hc & Ht & Ho & Hnd).
  assert (port_owner w = Some sid) as Hw.
  { destruct Ho as [E|[E _]]; congruence. }
  destruct (H sid Hw) as (due & Hin & Hd).
  pose proof (Hnd sid due Hs Hin) as Hnot.
  exists due. split.
  - apply Ht. split; [exact Hin|exact Hnot].
  - lia.
Qed.

(** An answer or a settled call leaves the port, the timers and the clock
    alone, unless it starts a new attempt. *)
Lemma step_quiet ph w ev :
  match ev with EvRequest _ | EvElapse _ => False | _ => True end ->
  let st' := step parse_url (ph, w) ev in
  (exists s, fst st' = P_AwaitCode s) \/
  (port_owner (snd st') = port_owner w /\ timers (snd st') = timers w /\
   clock (snd st') = clock w).
Proof.
  intros Hev. unfold step.
  destruct (terminal ph) eqn:T; [right; repeat split|].
  destruct ev as [req_url|ms|answer|r|r]; try contradiction.
  - destruct ph; try discriminate T;
      try (simpl; right; repeat split; fail).
    1: { right. simpl.
         match goal with
         | |- context [ prompt_required ?l ?w0 ] =>
             destruct (prompt_required_frame l w0) as (_ & Hc & _ & Ho & Ht)
         end.
         simpl in *. repeat split; assumption. }
    all: simpl; unfold on_retry, generateAuthUrl; crunch;
      first [left; eexists; reflexivity | right; repeat split; congruence].
  - destruct ph; try (simpl; right; repeat split; fail).
    destruct r; crunch; right; repeat split.
  - destruct (on_api_frame ph r w) as (_ & Hc & _ & Ho & Ht).
    right. repeat split; assumption.
Qed.

Lemma step_closes_by D st ev :
  closes_by D (snd st) ->
  (forall s, fst (step parse_url st ev) <> P_AwaitCode s) ->
  closes_by D (snd (step parse_url st ev)).
Proof.
  destruct st as [ph w]. intros H Hno.
  destruct ev as [req_url|ms|answer|r|r].
  1: { unfold step. destruct (terminal ph); [exact H|].
       apply deliver_closes_by. exact H. }
  1: { unfold step. destruct (terminal ph); [exact H|].
       apply elapse_closes_by. exact H. }
  all: match goal with
       | |- closes_by ?d (snd (step parse_url _ ?e)) =>
           destruct (step_quiet ph w e I) as [[s Hs]|(Ho & Ht & Hc)];
             [exfalso; exact (Hno s Hs)
             |exact (closes_by_same d w _ Ho Ht Hc H)]
       end.
Qed.

Lemma run_closes_by D events : forall st,
  closes_by D (snd st) ->
  (forall k s, fst (run parse_url st (take k events)) <> P_AwaitCode s) ->
  closes_by D (snd (run parse_url st events)).
Proof.
  induction events as [|ev events IH]; intros st H Hno; [exact H|].
  rewrite run_cons. apply IH.
  - apply step_closes_by; [exact H|].
    intros s. exact (Hno 1%nat s).
  - intros k s. exact (Hno (S k) s).
Qed.

(** C3, as amended.  The listener is not released before the capture step
    goes on.  A request that brings a code makes the script proceed to the
    exchange with the listener still bound and schedules its close 1000 ms
    ahead; a request without a code leaves the listener bound and the
    script waiting.  The timer releases the port: whatever happens after the
    request that brought the code, as long as no new attempt is started,
    once the clock is 1000 ms past that request the port is free, and a
    retry that the operator confirms then binds a new listener with a
    pending promise. *)
Theorem listener_released_by_timer sid req_url params code w :
  parse_url req_url = Some params ->
  OAuth2.searchParams_get "code" params = Some code ->
  code <> ""%string ->
  port_owner w = Some sid ->
  promises w !! sid = Some None ->
  let st1 := step parse_url (P_AwaitCode sid, w) (EvRequest req_url) in
  (fst st1 = P_AwaitToken code /\
   port_owner (snd st1) = Some sid /\
   In (clock w + 1000, sid) (timers (snd st1)) /\
   clock (snd st1) = clock w) /\
  (forall req_url' params',
     parse_url req_url' = Some params' ->
     truthy_opt (OAuth2.searchParams_get "code" params') = false ->
     let st := step parse_url (P_AwaitCode sid, w) (EvRequest req_url') in
     fst st = P_AwaitCode sid /\ port_owner (snd st) = Some sid /\
     promises (snd st) !! sid = Some None) /\
  (forall after,
     (forall k s, fst (run parse_url st1 (take k after)) <> P_AwaitCode s) ->
     clock w + 1000 <= clock (snd (run parse_url st1 after)) ->
     port_owner (snd (run parse_url st1 after)) = None /\
     forall answer,
       fst (run parse_url st1 after) = P_AskRetry ->
       is_yes (toLowerCase answer) = true ->
       exists new w',
         step parse_url (run parse_url st1 after) (EvLine answer)
         = (P_AwaitCode new, w') /\
         new <> sid /\ port_owner w' = Some new /\
         promises w' !! new = Some None).
Proof.
  intros Hp Hc Hne Ho Hpend st1.
  destruct (code_request_effects parse_url sid req_url params code w
              Hp Hc Hne Hpend)
    as (w' & Hh & Hout & Hres & Htimers & Howner & Hclock & _).
  assert (st1 = code_received code w') as E1.
  { unfold st1. apply code_request_resumes; assumption. }
  assert (closes_by (clock w + 1000) (snd st1)) as Hinv.
  { rewrite E1. intros s Hs. simpl in Hs. rewrite Howner, Ho in Hs.
    injection Hs as <-. exists (clock w + 1000). simpl.
    rewrite Htimers, Hclock. split; [left; reflexivity|lia]. }
  split; [|split].
  - rewrite E1. simpl. rewrite Howner, Htimers, Hclock.
    repeat split; [exact Ho|left; reflexivity].
  - intros req_url' params' Hp' Hc'.
    destruct (request_rejected parse_url sid req_url' params' w Hp' Hc')
      as [_ Hs].
    cbv zeta. rewrite (Hs Ho Hpend). cbn [fst snd emit promises port_owner].
    repeat split; assumption.
  - intros after Hno Hlate.
    pose proof (run_closes_by _ after st1 Hinv Hno) as Hfin.
    assert (port_owner (snd (run parse_url st1 after)) = None) as Hfree.
    { destruct (port_owner (snd (run parse_url st1 after))) as [s|] eqn:Es;
        [|reflexivity].
      destruct (Hfin s Es) as (due & _ & Hd). lia. }
    split; [exact Hfree|].
    intros answer Hph Hyes.
    pose proof (run_kept parse_url after st1 sid code) as Hkept.
    destruct (run parse_url st1 after) as [ph2 w2]. simpl in *. subst ph2.
    unfold step. simpl. unfold on_retry. rewrite Hyes.
    destruct (generateAuthUrl_bound w2 Hfree) as (w3 & Hg & Ho3 & Hp3 & _).
    exists (length (promises w2)), w3.
    assert (sid < length (promises w2))%nat as Hlt.
    { eapply lookup_lt_Some. apply Hkept. rewrite E1. simpl. exact Hres. }
    split; [exact Hg|]. split; [lia|]. split; [exact Ho3|].
    rewrite Hp3, lookup_app_r by lia. rewrite Nat.sub_diag. reflexivity.
Qed.

Lemma step_offer_passed ph w ev :
  offer_passed ph = true ->
  offer_passed (fst (step parse_url (ph, w) ev)) = true.
Proof.
  intros Hp. unfold step.
  destruct (terminal ph) eqn:T; [exact Hp|].
  destruct ev as [req_url|ms|answer|r|r].
  - unfold deliver. repeat case_match; try exact Hp; reflexivity.
  - exact Hp.
  - destruct ph; try discriminate Hp; try exact Hp;
      simpl; unfold on_retry, generateAuthUrl; crunch; reflexivity.
  - destruct ph; try exact Hp. destruct r; crunch; reflexivity.
  - destruct ph; try discriminate Hp; try exact Hp;
      simpl; try destruct r; crunch; reflexivity.
Qed.

Lemma run_offer_passed events : forall ph w,
  offer_passed ph = true ->
  offer_passed (fst (run parse_url (ph, w) events)) = true.
Proof.
  induction events as [|ev events IH]; intros ph w Hp; [exact Hp|].
  rewrite run_cons.
  pose proof (step_offer_passed ph w ev Hp) as H.
  destruct (step parse_url (ph, w) ev) as [ph' w']. apply IH. exact H.
Qed.

(** C4.  When the exchange brings no refresh token, the exchange step asks
    the retry question and changes nothing but the console: every field of
    the configuration is as before.  That is all the caller is offered:
    whatever follows, the script never asks for a manually entered refresh
    token any more, and an operator who declines the retry is asked for the
    customer id (or for what comes after it) with the configuration
    unchanged. *)
Theorem failed_exchange_offers_no_manual_entry authCode r w :
  exchange_failed r ->
  let st := step parse_url (P_AwaitToken authCode, w) (EvToken r) in
  fst st = P_AskRetry /\
  (forall k, config_get k (config (snd st)) = config_get k (config w)) /\
  (exists said,
     out (snd st)
     = question "Would you like to try again? (yes/no): " :: said :: out w) /\
  (forall more, fst (run parse_url st more) <> P_AskManual) /\
  (forall answer,
     is_yes (toLowerCase answer) = false ->
     let st' := step parse_url st (EvLine answer) in
     In (fst st') [P_AskCustomerId; P_AskUseLoginId; P_Menu] /\
     config (snd st') = config w).
Proof.
  intros Hfail st.
  assert (st = on_token r w) as E by reflexivity.
  destruct (on_token_failed r w Hfail) as [Hph Hframe].
  rewrite <- E in Hph, Hframe.
  destruct Hframe as (Hc & _).
  split; [exact Hph|]. split; [intros k; rewrite Hc; reflexivity|].
  split.
  { rewrite E. destruct r as [refresh|e]; simpl in *.
    - rewrite Hfail. eexists. reflexivity.
    - eexists. reflexivity. }
  split.
  - intros more Hm.
    pose proof (run_offer_passed more (fst st) (snd st)) as H.
    rewrite <- surjective_pairing, Hm, Hph in H.
    specialize (H eq_refl). discriminate H.
  - intros answer Hno st'.
    destruct st as [ph w1]. simpl in Hph, Hc. subst ph.
    destruct (declined_retry_continues parse_url answer w1 Hno)
      as (Es & _ & Hc').
    unfold st'. rewrite Es. split; [|congruence].
    unfold customer_section, login_section, save_config, main_menu, ask.
    repeat case_match; simpl; auto.
Qed.

End Release.

Section ReleaseScenarios.
Import Js QueryTool Runs.

Lemma listener_released_by_timer_witness :
  let st1 := step plain_parse_url awaiting_redirect (EvRequest "/?code=ABC123") in
  let after := [EvElapse 600; EvToken (token_response None); EvElapse 500] in
  port_owner (snd (run plain_parse_url st1 [EvElapse 600; EvToken (token_response None)]))
  = Some 0%nat /\
  port_owner (snd (run plain_parse_url st1 after)) = None /\
  exists new w',
    step plain_parse_url (run plain_parse_url st1 after) (EvLine "yes")
    = (P_AwaitCode new, w') /\ port_owner w' = Some new.
Proof.
  intros st1 after. split; [vm_compute; reflexivity|].
  destruct (listener_released_by_timer plain_parse_url 0 "/?code=ABC123"
              [("code", "ABC123")]%string "ABC123" (snd awaiting_redirect))
    as (_ & _ & Hrel);
    [reflexivity|reflexivity|discriminate|reflexivity|reflexivity|].
  destruct (Hrel after) as [Hfree Hretry].
  - intros [|[|[|[|k]]]] s; vm_compute; discriminate.
  - vm_compute. discriminate.
  - split; [exact Hfree|].
    destruct (Hretry "yes"%string) as (new & w' & Hs & _ & Ho & _);
      [vm_compute; reflexivity|reflexivity|].
    exists new, w'. split; [exact Hs|exact Ho].
Defined.

Lemma failed_exchange_offers_no_manual_entry_witness :
  let w := snd (step plain_parse_url awaiting_redirect
                  (EvRequest "/?code=ABC123")) in
  let st := step plain_parse_url (P_AwaitToken "ABC123", w)
              (EvToken (token_response None)) in
  exchange_failed (token_response None) /\
  fst st = P_AskRetry /\
  fst (run plain_parse_url st [EvLine "no"]) = P_AskCustomerId /\
  fst (run plain_parse_url st [EvLine "no"]) <> P_AskManual.
Proof.
  intros w st.
  assert (exchange_failed (token_response None)) as Hfail by reflexivity.
  split; [exact Hfail|].
  destruct (failed_exchange_offers_no_manual_entry plain_parse_url "ABC123"
              (token_response None) w Hfail) as (Hph & _ & _ & Hnever & _).
  split; [exact Hph|]. split; [vm_compute; reflexivity|].
  exact (Hnever [EvLine "no"]).
Defined.

End ReleaseScenarios.

(** ** The collection loop of clickViewFeb2025.ts *)

Section CollectorFacts.
Import Js Collector.

Variable Row : Type.
Variable JSON_stringify : list Row -> string.
Variable path_join : string -> string -> string.
Variable cwd : string.

Local Abbreviation iteration := (Collector.iteration Row JSON_stringify path_join cwd).
Local Abbreviation collect := (Collector.collect Row JSON_stringify path_join cwd).
Local Abbreviation filePath := (Collector.filePath path_join cwd).
Local Abbreviation outputDir := (Collector.outputDir path_join cwd).
Local Abbreviation returned := (Collector.returned Row).
Local Abbreviation any_rows := (Collector.any_rows Row).
Local Abbreviation collection := (Collector.collection Row JSON_stringify path_join cwd).

Lemma queries_cons_other e l :
  (forall q, e <> customer_query q) -> queries (e :: l) = queries l.
Proof.
  intros H. unfold queries. simpl. rewrite omap_app. simpl.
  destruct e; try (rewrite app_nil_r; reflexivity). destruct (H gaqlQuery0 eq_refl).
Qed.

Lemma queries_cons_query q l : queries (customer_query q :: l) = queries l ++ [q].
Proof. unfold queries. simpl. rewrite omap_app. reflexivity. Qed.

Lemma mkdirs_cons_other e l :
  (forall d, e <> mkdirSync d) -> mkdirs (e :: l) = mkdirs l.
Proof.
  intros H. unfold mkdirs. simpl.
  destruct e; try reflexivity. destruct (H dir eq_refl).
Qed.

Lemma mkdirs_cons_mkdir d l : mkdirs (mkdirSync d :: l) = S (mkdirs l).
Proof. reflexivity. Qed.

(** What one iteration does. *)
Lemma iteration_effect date (o : Collector.QueryOutcome Row) (st : Collected) :
  let st' := iteration date o st in
  let rows := returned o in
  totalResults st' = (totalResults st + length rows)%nat /\
  queries (effects st') = queries (effects st) ++ [gaqlQuery date] /\
  files st'
  = (if (length rows =? 0)%nat then files st
     else <[ filePath date := JSON_stringify rows ]> (files st)) /\
  dirs st'
  = (if (length rows =? 0)%nat then dirs st else {[ outputDir ]} ∪ dirs st) /\
  mkdirs (effects st')
  = (mkdirs (effects st)
     + (if (length rows =? 0)%nat then 0
        else if decide (outputDir ∈ dirs st) then 0 else 1))%nat.
Proof.
  unfold Collector.iteration, runClickViewQuery, saveResultsToFile.
  destruct o as [results|e]; simpl;
    [destruct (length results =? 0)%nat eqn:E; simpl;
     [|destruct (decide (outputDir ∈ dirs st)) as [Hin|Hout]; simpl]|];
    rewrite ?queries_cons_other, queries_cons_query by discriminate;
    rewrite ?queries_cons_other by discriminate;
    rewrite ?mkdirs_cons_other by discriminate;
    rewrite ?mkdirs_cons_mkdir, ?mkdirs_cons_other by discriminate;
    repeat split; try lia.
  symmetry. apply subseteq_union_1_L. set_solver.
Qed.

Lemma collect_cons date dates k outcome (st : Collected) :
  collect (date :: dates) k outcome st
  = collect dates (S k) outcome (iteration date (outcome k) st).
Proof. reflexivity. Qed.

Lemma collect_totals dates : forall k outcome (st : Collected),
  totalResults (collect dates k outcome st)
  = (totalResults st
     + sum_list ((fun j => length (returned (outcome j))) <$> seq k (length dates)))%nat.
Proof.
  induction dates as [|date dates IH]; intros k outcome st.
  - simpl. lia.
  - rewrite collect_cons, IH.
    destruct (iteration_effect date (outcome k) st) as (Ht & _).
    rewrite Ht. cbn [length seq]. rewrite fmap_cons. cbn [sum_list sum_list_with id].
    apply eq_sym, Nat.add_assoc.
Qed.

(** X10.  The total that the collector prints at the end is the number of
    rows that the queries of this run returned: the count starts at zero
    whatever was counted before, a rejected query counts as no rows, and
    every resolved one counts with all its rows. *)
Theorem collection_reports_total dates outcome (st : Collected) :
  let total :=
    sum_list ((fun j => length (returned (outcome j))) <$> seq 0 (length dates)) in
  totalResults (collection dates outcome st) = total /\
  In (console_log
        ("Total records collected: " +:+ String_of_number (Z.of_nat total)))
     (effects (collection dates outcome st)).
Proof.
  intros total. unfold Collector.collection. cbn [totalResults effects emit].
  rewrite collect_totals. cbn [totalResults]. rewrite Nat.add_0_l.
  split; [reflexivity|]. right. right. left. reflexivity.
Qed.

(** X11.  A failed or empty query does not stop the collection: whatever
    the earlier queries settle with, the loop issues one query per date, in
    the order of the dates, each with the text for its date. *)
Theorem collect_queries_every_date dates : forall k outcome (st : Collected),
  queries (effects (collect dates k outcome st))
  = queries (effects st) ++ (gaqlQuery <$> dates).
Proof.
  induction dates as [|date dates IH]; intros k outcome st.
  - simpl. rewrite app_nil_r. reflexivity.
  - rewrite collect_cons, IH.
    destruct (iteration_effect date (outcome k) st) as (_ & Hq & _).
    rewrite Hq, <- app_assoc. reflexivity.
Qed.

(** X12.  One file per day that has rows.  When the paths of the dates are
    pairwise distinct, after the loop the file of a date holds the rows that
    the query of that date returned, if it returned any; if that query
    failed or returned no rows the file is as it was before; and no other
    file is touched. *)
Theorem collect_files dates : forall k outcome (st : Collected),
  NoDup (filePath <$> dates) ->
  (forall j date,
     dates !! j = Some date ->
     files (collect dates k outcome st) !! filePath date
     = (if (length (returned (outcome (k + j)%nat)) =? 0)%nat
        then files st !! filePath date
        else Some (JSON_stringify (returned (outcome (k + j)%nat))))) /\
  (forall p,
     p ∉ (filePath <$> dates) ->
     files (collect dates k outcome st) !! p = files st !! p).
Proof.
  induction dates as [|date dates IH]; intros k outcome st Hnd.
  - split; [intros j d H; discriminate H|reflexivity].
  - rewrite fmap_cons in Hnd. apply NoDup_cons in Hnd. destruct Hnd as [Hnot Hnd].
    destruct (IH (S k) outcome (iteration date (outcome k) st) Hnd) as [IH1 IH2].
    destruct (iteration_effect date (outcome k) st) as (_ & _ & Hf & _).
    rewrite collect_cons. split.
    + intros [|j] d Hd; simpl in Hd.
      * injection Hd as <-. rewrite (IH2 _ Hnot), Hf.
        replace (k + 0)%nat with k by lia.
        destruct (length (returned (outcome k)) =? 0)%nat; [reflexivity|].
        apply lookup_insert_eq.
      * rewrite (IH1 j d Hd).
        replace (k + S j)%nat with (S k + j)%nat by lia.
        destruct (length (returned (outcome (S k + j)%nat)) =? 0)%nat;
          [|reflexivity].
        rewrite Hf.
        destruct (length (returned (outcome k)) =? 0)%nat; [reflexivity|].
        apply lookup_insert_ne. intros Heq. apply Hnot. rewrite Heq.
        apply list_elem_of_fmap. exists d. split; [reflexivity|].
        apply list_elem_of_lookup. exists j. exact Hd.
    + intros p Hp. rewrite fmap_cons in Hp.
      apply not_elem_of_cons in Hp. destruct Hp as [Hne Hp].
      rewrite (IH2 p Hp), Hf.
      destruct (length (returned (outcome k)) =? 0)%nat; [reflexivity|].
      apply lookup_insert_ne. congruence.
Qed.

(** X13.  The output directory is created at most once and only when
    needed: after the loop it exists if it existed before or some query
    returned rows, and [mkdirSync] was called exactly once if some query
    returned rows and the directory did not exist, and not at all
    otherwise. *)
Theorem collect_directory dates : forall k outcome (st : Collected),
  dirs (collect dates k outcome st)
  = (if any_rows outcome k (length dates) then {[ outputDir ]} ∪ dirs st
     else dirs st) /\
  mkdirs (effects (collect dates k outcome st))
  = (mkdirs (effects st)
     + (if any_rows outcome k (length dates)
        then if decide (outputDir ∈ dirs st) then 0 else 1
        else 0))%nat.
Proof.
  induction dates as [|date dates IH]; intros k outcome st.
  - simpl. split; [reflexivity|lia].
  - rewrite collect_cons.
    destruct (IH (S k) outcome (iteration date (outcome k) st)) as [IHd IHm].
    destruct (iteration_effect date (outcome k) st) as (_ & _ & _ & Hd & Hm).
    rewrite IHd, IHm, Hd, Hm. unfold Collector.any_rows. simpl.
    fold (any_rows outcome (S k) (length dates)).
    destruct (length (returned (outcome k)) =? 0)%nat; simpl.
    + split; [reflexivity|lia].
    + destruct (any_rows outcome (S k) (length dates)).
      * split; [rewrite (assoc_L (∪)), union_idemp_L; reflexivity|].
        destruct (decide (outputDir ∈ {[outputDir]} ∪ dirs st)) as [_|Hn];
          [lia|]. exfalso. apply Hn.
        apply elem_of_union_l, elem_of_singleton_2. reflexivity.
      * split; [reflexivity|lia].
Qed.

End CollectorFacts.

Section CollectorScenarios.
Import Js Collector.

Lemma collect_files_witness :
  let path_join := fun a b : string => (a +:+ "/" +:+ b)%string in
  let outcome j :=
    match j with
    | O => query_resolved nat [7; 8]%nat
    | _ => query_rejected nat "Request failed"%string
    end in
  let final :=
    Collector.collect nat (fun rows => String_of_number (Z.of_nat (length rows)))
      path_join "/work" ["2025-02-01"; "2025-02-02"]%string 0 outcome
      (Build_Collected ∅ ∅ [] 0) in
  files final !! "/work/click_view_data/click_view_2025-02-01.json"%string = Some "2"%string /\
  files final !! "/work/click_view_data/click_view_2025-02-02.json"%string = None.
Proof.
  intros path_join outcome final.
  destruct (collect_files nat (fun rows => String_of_number (Z.of_nat (length rows)))
              path_join "/work" ["2025-02-01"; "2025-02-02"]%string 0 outcome
              (Build_Collected ∅ ∅ [] 0)) as [H _].
  - vm_compute. apply NoDup_cons. split; [|apply NoDup_singleton].
    intros H%list_elem_of_singleton. discriminate H.
  - split.
    + exact (H 0%nat "2025-02-01"%string eq_refl).
    + exact (H 1%nat "2025-02-02"%string eq_refl).
Defined.

End CollectorScenarios.

(** ** The dates of a run are pairwise distinct *)

Section DistinctDates.
Import Js JsDate ClickView.

Lemma decimal_inj a b :
  0 <= a < 10 -> 0 <= b < 10 -> decimal a = decimal b -> a = b.
Proof.
  intros Ha Hb H. rewrite <- !digit_decimal in H by assumption.
  unfold digit in H. apply (f_equal nat_of_ascii) in H.
  rewrite !nat_ascii_embedding in H by lia. lia.
Qed.

Lemma div_mod_10_eq a b : a / 10 = b / 10 -> a mod 10 = b mod 10 -> a = b.
Proof.
  intros Hq Hr. rewrite (Z_div_mod_eq_full a 10), (Z_div_mod_eq_full b 10).
  rewrite Hq, Hr. reflexivity.
Qed.

Lemma div_mod_100_eq a b : a / 100 = b / 100 -> a mod 100 = b mod 100 -> a = b.
Proof.
  intros Hq Hr. rewrite (Z_div_mod_eq_full a 100), (Z_div_mod_eq_full b 100).
  rewrite Hq, Hr. reflexivity.
Qed.

Lemma digits_eq a b :
  0 <= a < 100 -> 0 <= b < 100 ->
  decimal (a / 10) = decimal (b / 10) ->
  decimal (a mod 10) = decimal (b mod 10) ->
  a = b.
Proof.
  intros Ha Hb Hq Hr. apply div_mod_10_eq.
  - apply decimal_inj; [| |exact Hq]; Z.div_mod_to_equations; lia.
  - apply decimal_inj; [| |exact Hr]; Z.div_mod_to_equations; lia.
Qed.

(** The text determines the date. *)
Lemma yyyy_mm_dd_inj y m d y' m' d' :
  0 <= y < 10000 -> 0 <= m < 100 -> 0 <= d < 100 ->
  0 <= y' < 10000 -> 0 <= m' < 100 -> 0 <= d' < 100 ->
  yyyy_mm_dd y m d = yyyy_mm_dd y' m' d' ->
  y = y' /\ m = m' /\ d = d'.
Proof.
  intros Hy Hm Hd Hy' Hm' Hd' H. unfold yyyy_mm_dd, two_digits in H.
  cbv [String.append] in H.
  injection H as H1 H2 H3 H4 H5 H6 H7 H8.
  split; [|split].
  - apply div_mod_100_eq.
    + apply digits_eq; try assumption; Z.div_mod_to_equations; lia.
    + apply digits_eq; try assumption; Z.div_mod_to_equations; lia.
  - apply digits_eq; assumption.
  - apply digits_eq; assumption.
Qed.

Lemma generated_dates_NoDup tz (now : nat -> Date) :
  fixed_offset tz ->
  (forall k, (k <= 90)%nat ->
     getFullYear tz (now k) = getFullYear tz (now 0%nat) /\
     getMonth tz (now k) = getMonth tz (now 0%nat)) ->
  DayFromYear 1000 + 89 <= local_day tz (now 0%nat) < DayFromYear 10000 ->
  NoDup (generateLast90DaysDates tz now).
Proof.
  intros Hfix Hclock Hrange. apply NoDup_alt. intros i j x Hi Hj.
  pose proof (generateLast90DaysDates_length tz now) as Hlen.
  assert (i < 90)%nat as Li by (rewrite <- Hlen; eapply lookup_lt_Some; exact Hi).
  assert (j < 90)%nat as Lj by (rewrite <- Hlen; eapply lookup_lt_Some; exact Hj).
  rewrite (generated_date_text tz now i Hfix Hclock Hrange Li) in Hi.
  rewrite (generated_date_text tz now j Hfix Hclock Hrange Lj) in Hj.
  set (t := local_day tz (now 0%nat) - Z.of_nat i) in *.
  set (u := local_day tz (now 0%nat) - Z.of_nat j) in *.
  assert (DayFromYear 1000 <= t < DayFromYear 10000) as Ht by (unfold t; lia).
  assert (DayFromYear 1000 <= u < DayFromYear 10000) as Hu by (unfold u; lia).
  pose proof (YearFromTime_between 1000 10000 t Ht).
  pose proof (YearFromTime_between 1000 10000 u Hu).
  pose proof (MonthFromTime_range t). pose proof (MonthFromTime_range u).
  pose proof (DateFromTime_range t). pose proof (DateFromTime_range u).
  pose proof (days_in_month_le_31 (YearFromTime t) (MonthFromTime t + 1)).
  pose proof (days_in_month_le_31 (YearFromTime u) (MonthFromTime u + 1)).
  assert (yyyy_mm_dd (YearFromTime t) (MonthFromTime t + 1) (DateFromTime t)
          = yyyy_mm_dd (YearFromTime u) (MonthFromTime u + 1) (DateFromTime u))
    as E by congruence.
  apply yyyy_mm_dd_inj in E; try lia.
  destruct E as (Ey & Em & Ed).
  assert (t = u) as Etu.
  { rewrite <- (MakeDay_of_fields t), <- (MakeDay_of_fields u).
    rewrite Ey, Ed. replace (MonthFromTime t) with (MonthFromTime u) by lia.
    reflexivity. }
  unfold t, u in Etu. lia.
Qed.

Lemma length_append (a b : string) :
  String.length (a +:+ b) = (String.length a + String.length b)%nat.
Proof.
  induction a as [|c a IH]; [reflexivity|].
  change (String c a +:+ b)%string with (String c (a +:+ b)).
  cbn [String.length]. rewrite IH. reflexivity.
Qed.

Lemma append_inj_r (t a b : string) : (a +:+ t = b +:+ t)%string -> a = b.
Proof.
  revert b. induction a as [|c a IH]; intros [|c' b] H.
  - reflexivity.
  - exfalso. apply (f_equal String.length) in H.
    rewrite !length_append in H. cbn [String.length] in H. lia.
  - exfalso. apply (f_equal String.length) in H.
    rewrite !length_append in H. cbn [String.length] in H. lia.
  - change (String c (a +:+ t) = String c' (b +:+ t)) in H.
    injection H as -> H. f_equal. apply IH. exact H.
Qed.

Lemma fileName_inj d d' : Collector.fileName d = Collector.fileName d' -> d = d'.
Proof.
  unfold Collector.fileName. intros H.
  apply (inj (String.app "click_view_")) in H.
  apply append_inj_r in H. exact H.
Qed.

(** X14.  In a time zone whose offset never changes, within one calendar
    month of clock reads and in the years 1000 to 9999, no date occurs twice
    among the 90 generated ones, so the collector queries no day twice; and
    when [path.join] keeps distinct file names in one directory apart, no
    two days share their output file, so no day's rows overwrite
    another's. *)
Theorem generated_dates_are_distinct tz (now : nat -> Date) :
  fixed_offset tz ->
  (forall k, (k <= 90)%nat ->
     getFullYear tz (now k) = getFullYear tz (now 0%nat) /\
     getMonth tz (now k) = getMonth tz (now 0%nat)) ->
  DayFromYear 1000 + 89 <= local_day tz (now 0%nat) < DayFromYear 10000 ->
  NoDup (generateLast90DaysDates tz now) /\
  forall (path_join : string -> string -> string) (cwd : string),
    (forall dir a b, path_join dir a = path_join dir b -> a = b) ->
    NoDup (Collector.filePath path_join cwd <$> generateLast90DaysDates tz now).
Proof.
  intros Hfix Hclock Hrange.
  pose proof (generated_dates_NoDup tz now Hfix Hclock Hrange) as Hnd.
  split; [exact Hnd|].
  intros path_join cwd Hinj. apply NoDup_fmap_2_strong; [|exact Hnd].
  intros d d' _ _ H. unfold Collector.filePath in H.
  apply Hinj in H. apply fileName_inj. exact H.
Qed.

Lemma generated_dates_are_distinct_witness :
  fixed_offset utc /\
  NoDup (generateLast90DaysDates utc
           (fun _ => MakeDate (day_number 2026 11 2) 43200000)).
Proof.
  assert (fixed_offset utc) as Hfix by (exists 0; intros t isUTC; reflexivity).
  split; [exact Hfix|].
  destruct (generated_dates_are_distinct utc
              (fun _ => MakeDate (day_number 2026 11 2) 43200000) Hfix)
    as [H _].
  - intros k Hk. split; reflexivity.
  - vm_compute. split; [discriminate|reflexivity].
  - exact H.
Defined.

End DistinctDates.

(** ** Resource names *)

Section ResourceNames.
Import Js QueryTool Text.

Lemma split_without_separator sep s :
  has_char sep s = false -> split sep s = [s].
Proof.
  induction s as [|c s IH]; [reflexivity|]. cbn [has_char split].
  intros H. apply orb_false_iff in H. destruct H as [Hc Hs].
  rewrite Hc, (IH Hs). reflexivity.
Qed.

Lemma split_at_separator sep a b :
  has_char sep a = false ->
  split sep (a +:+ String sep b) = a :: split sep b.
Proof.
  induction a as [|c a IH]; intros H.
  - change (("" +:+ String sep b)%string) with (String sep b).
    cbn [split]. rewrite Ascii.eqb_refl. reflexivity.
  - cbn [has_char] in H. apply orb_false_iff in H. destruct H as [Hc Ha].
    change ((String c a +:+ String sep b)%string)
      with (String c (a +:+ String sep b)).
    cbn [split]. rewrite Hc, (IH Ha). reflexivity.
Qed.

Lemma split_nonempty sep s : exists piece pieces, split sep s = piece :: pieces.
Proof.
  induction s as [|c s (piece & pieces & IH)]; [eexists _, _; reflexivity|].
  cbn [split]. destruct (Ascii.eqb c sep); [eexists _, _; reflexivity|].
  rewrite IH. eexists _, _. reflexivity.
Qed.

(** The second piece of a resource name whose first two pieces are
    [collection] and [id]. *)
Lemma customerId_of_pieces collection id rest :
  has_char "/" collection = false -> has_char "/" id = false ->
  customerId_of (collection +:+ String "/" id) = Some id /\
  customerId_of (collection +:+ String "/" (id +:+ String "/" rest)) = Some id.
Proof.
  intros Hc Hi. unfold customerId_of.
  rewrite !split_at_separator by assumption.
  rewrite split_without_separator by assumption.
  split; reflexivity.
Qed.

(** X15.  The customer ID is read back from a resource name.  For a
    customer ID without a slash, the line that the listing prints for the
    resource name [customers/<id>] shows that ID; and the customer ID of
    the resource name that [updateConversionActionStatus] builds is the
    configured customer ID, whatever the conversion action ID is. *)
Theorem customer_id_read_back id :
  has_char "/" id = false ->
  (forall index,
     customer_line ("customers/" +:+ id) index
     = (String_of_number (Z.of_nat index + 1) +:+ ". Customer ID: " +:+ id)%string) /\
  (forall c conversionActionId,
     customer_id c = id ->
     customerId_of (conversionAction_resourceName c conversionActionId) = Some id).
Proof.
  intros Hid. split.
  - intros index. unfold customer_line.
    change ("customers/" +:+ id)%string with ("customers" +:+ String "/" id)%string.
    destruct (customerId_of_pieces "customers" id "" eq_refl Hid) as [-> _].
    reflexivity.
  - intros c conversionActionId <-. unfold conversionAction_resourceName.
    change ("customers/" +:+ customer_id c +:+ "/conversionActions/"
              +:+ conversionActionId)%string
      with ("customers" +:+ String "/"
              (customer_id c +:+ String "/"
                 ("conversionActions/" +:+ conversionActionId)))%string.
    destruct (customerId_of_pieces "customers" (customer_id c)
                ("conversionActions/" +:+ conversionActionId) eq_refl Hid)
      as [_ ->].
    reflexivity.
Qed.

(** X16.  A resource name without a slash has no second piece: the listing
    prints [undefined] for it, and goes on. *)
Theorem resource_name_without_slash resourceName index :
  has_char "/" resourceName = false ->
  customer_line resourceName index
  = (String_of_number (Z.of_nat index + 1) +:+ ". Customer ID: undefined")%string.
Proof.
  intros H. unfold customer_line, customerId_of.
  rewrite split_without_separator by exact H. reflexivity.
Qed.

Lemma customer_id_read_back_witness :
  has_char "/" "1234567890" = false /\
  customer_line "customers/1234567890" 0 = "1. Customer ID: 1234567890"%string.
Proof.
  split; [reflexivity|].
  destruct (customer_id_read_back "1234567890" eq_refl) as [H _].
  exact (H 0%nat).
Defined.

Lemma resource_name_without_slash_witness :
  has_char "/" "1234567890" = false /\
  customer_line "1234567890" 2 = "3. Customer ID: undefined"%string.
Proof.
  split; [reflexivity|].
  exact (resource_name_without_slash "1234567890" 2 eq_refl).
Defined.

End ResourceNames.

(** ** Every operation of the menu comes back to the menu *)

Section MenuOperations.
Import Js QueryTool Runs.

Variable parse_url : string -> option (list (string * string)).

Lemma step_awaited ph w ev :
  post_setup ph = true -> ph <> P_Menu -> awaited (ph, w) ev ->
  let st' := step parse_url (ph, w) ev in
  post_setup (fst st') = true /\
  (events_left (fst st') < events_left ph)%nat /\
  menu_shown st'.
Proof.
  intros Hp Hm Ha. unfold step, menu_shown.
  destruct (terminal ph) eqn:T; [destruct ph; discriminate|].
  destruct ev as [req_url|ms|answer|r|r]; cbn [awaited fst] in Ha;
    try contradiction.
  - destruct Ha as [_ Ha].
    destruct ph; try discriminate Hp; try discriminate Ha;
      try (exfalso; apply Hm; reflexivity);
      simpl; crunch_if;
      (split; [reflexivity|]); (split; [lia|]);
      first [ intros H; discriminate H | intros _; eexists; reflexivity ].
  - destruct ph; try discriminate Ha; simpl;
      try destruct r; crunch_if;
      (split; [reflexivity|]); (split; [lia|]);
      first [ intros H; discriminate H | intros _; eexists; reflexivity ].
Qed.

Lemma step_choice w choice :
  choice <> "6"%string ->
  let st' := step parse_url (P_Menu, w) (EvLine choice) in
  post_setup (fst st') = true /\ (events_left (fst st') <= 5)%nat /\
  menu_shown st'.
Proof.
  intros H6. unfold menu_shown. simpl. crunch_if;
    try (exfalso; apply H6; apply String.eqb_eq; assumption);
    (split; [reflexivity|]); (split; [lia|]);
    first [ intros H; discriminate H | intros _; eexists; reflexivity ].
Qed.

Lemma operation_ends events : forall ph w,
  post_setup ph = true ->
  menu_shown (ph, w) ->
  all_along (step parse_url) awaited (ph, w) events ->
  (events_left ph <= length events)%nat ->
  exists before after,
    events = before ++ after /\ (length before <= events_left ph)%nat /\
    fst (run parse_url (ph, w) before) = P_Menu /\
    menu_shown (run parse_url (ph, w) before).
Proof.
  induction events as [|ev events IH]; intros ph w Hp Hs Hall Hlen.
  - exists [], []. split; [reflexivity|]. split; [simpl; lia|].
    split; [|exact Hs]. simpl in *.
    destruct ph; try discriminate Hp; simpl in Hlen; try lia; try reflexivity.
    destruct before_update; simpl in Hlen; lia.
  - assert (ph = P_Menu \/ ph <> P_Menu) as [->|Hm]
      by (destruct ph; first [left; reflexivity | right; discriminate]).
    + exists [], (ev :: events). split; [reflexivity|]. split; [simpl; lia|].
      split; [reflexivity|exact Hs].
    + destruct Hall as [Ha Hall].
      destruct (step_awaited ph w ev Hp Hm Ha) as (Hp' & Hlt & Hs').
      destruct (step parse_url (ph, w) ev) as [ph' w'] eqn:E.
      cbn [fst snd] in *.
      destruct (IH ph' w' Hp' Hs' Hall) as (before & after & -> & Hb & Hph & Hsh).
      { simpl in Hlen. lia. }
      exists (ev :: before), after. split; [reflexivity|].
      split; [simpl; lia|]. rewrite run_cons, E. split; assumption.
Qed.

(** X17.  No operation of the menu keeps the loop: after any choice other
    than 6, once the script has received the answers and the settlements it
    waits for (five of them are always enough), it is back at the menu with
    the question for the next choice asked. *)
Theorem operation_returns_to_menu w choice events :
  choice <> "6"%string ->
  let st := step parse_url (P_Menu, w) (EvLine choice) in
  all_along (step parse_url) awaited st events ->
  (5 <= length events)%nat ->
  exists before after,
    events = before ++ after /\ (length before <= 5)%nat /\
    fst (run parse_url st before) = P_Menu /\
    exists rest,
      out (snd (run parse_url st before))
      = question (LF +:+ "Select an option (1-6): ") :: rest.
Proof.
  intros H6 st Hall Hlen.
  destruct (step_choice w choice H6) as (Hp & Hle & Hs). fold st in Hp, Hle, Hs.
  destruct st as [ph w'] eqn:E. cbn [fst] in Hp, Hle.
  destruct (operation_ends events ph w' Hp Hs Hall) as (before & after & He & Hb & Hph & Hsh);
    [lia|].
  exists before, after. split; [exact He|]. split; [lia|].
  split; [exact Hph|]. apply Hsh. exact Hph.
Qed.

End MenuOperations.

Section MenuScenarios.
Import Js QueryTool Runs.

Lemma operation_returns_to_menu_witness :
  let st := step plain_parse_url (P_Menu, initial_world sample_env) (EvLine "5") in
  let events :=
    [EvLine "no"; EvLine "8650286658";
     EvApi (api_ok (Build_ApiValue 0 (Some "token"%string) true 200 ""));
     EvApi (api_ok (Build_ApiValue 0 None false 403 ""));
     EvApi (api_ok (Build_ApiValue 0 None false 403 "PERMISSION_DENIED"))] in
  exists before after,
    events = before ++ after /\ (length before <= 5)%nat /\
    fst (run plain_parse_url st before) = P_Menu.
Proof.
  intros st events.
  destruct (operation_returns_to_menu plain_parse_url (initial_world sample_env)
              "5" events) as (before & after & He & Hb & Hph & _).
  - discriminate.
  - vm_compute. repeat split.
  - simpl. lia.
  - exists before, after. split; [exact He|]. split; [exact Hb|exact Hph].
Defined.

End MenuScenarios.

(** ** The menu of the archived playground *)

Section ArchiveMenuFacts.
Import ArchiveMenu.

Lemma count_app {A : Type} (p : A -> bool) (l l' : list A) :
  count p (l ++ l') = (count p l + count p l')%nat.
Proof.
  induction l as [|x l IH]; [reflexivity|].
  simpl. destruct (p x); rewrite IH; reflexivity.
Qed.

Lemma owed_return_to frames : forall st,
  owed (return_to frames st) = count is_again frames.
Proof.
  induction frames as [|[|] frames IH]; intros st.
  - reflexivity.
  - reflexivity.
  - simpl. apply IH.
Qed.

Lemma report_resume_stack op r st : stack (report_resume op r st) = stack st.
Proof.
  destruct r as [rows json|e]; [|reflexivity].
  destruct op; try reflexivity.
  simpl. destruct (0 <? rows)%nat; reflexivity.
Qed.

Lemma runCustomQuery_resume_stack r st :
  stack (runCustomQuery_resume r st) = stack st.
Proof. destruct r; reflexivity. Qed.

Lemma choices_cons st ev events :
  choices st (ev :: events) = choices st [ev] ++ choices (step st ev) events.
Proof.
  simpl. destruct (control st); try reflexivity. destruct ev; reflexivity.
Qed.

Lemma run_crashed events : forall st,
  control st = C_Crashed -> run st events = st.
Proof.
  induction events as [|ev events IH]; intros st H; [reflexivity|].
  simpl. assert (step st ev = st) as -> by (unfold step; rewrite H; reflexivity).
  apply IH. exact H.
Qed.

(** A choice of the menu: Exit pays one, an answer that is no option adds
    one, and everything else leaves the count. *)
Lemma on_choice_owed choice st :
  control st = C_Choice ->
  (owed (on_choice choice st) + exits [choice]
   = owed st + invalid [choice])%nat.
Proof.
  intros Hc. unfold on_choice, exits, invalid, is_exit, is_option, owed.
  rewrite Hc. cbn [count existsb].
  destruct (String.eqb_spec choice "1") as [->|_]; [reflexivity|].
  destruct (String.eqb_spec choice "2") as [->|_]; [reflexivity|].
  destruct (String.eqb_spec choice "3") as [->|_]; [reflexivity|].
  destruct (String.eqb_spec choice "4") as [->|_]; [reflexivity|].
  destruct (String.eqb_spec choice "5") as [->|_]; [reflexivity|].
  destruct (String.eqb_spec choice "6") as [->|_]; [reflexivity|].
  destruct (String.eqb_spec choice "7") as [->|_]; [reflexivity|].
  destruct (String.eqb_spec choice "8") as [->|_].
  - pose proof (owed_return_to (stack st) st) as H. unfold owed in H.
    rewrite H. simpl. lia.
  - simpl. lia.
Qed.

Lemma step_owed st ev :
  control (step st ev) <> C_Crashed ->
  (owed (step st ev) + exits (choices st [ev])
   = owed st + invalid (choices st [ev]))%nat.
Proof.
  intros Hn. unfold step in *. cbn [choices].
  destruct (control st) eqn:Hc; destruct ev as [answer|r|];
    first
      [ apply on_choice_owed; exact Hc
      | unfold exits, invalid; cbn [count];
        destruct (0 <? floating st)%nat;
          [ exfalso; apply Hn; reflexivity
          | unfold owed; rewrite Hc; simpl; lia ]
      | unfold exits, invalid, owed, show_again; rewrite ?Hc; simpl;
        rewrite ?report_resume_stack, ?runCustomQuery_resume_stack; lia ].
Qed.

Lemma run_owed events : forall st,
  control (run st events) <> C_Crashed ->
  (owed (run st events) + exits (choices st events)
   = owed st + invalid (choices st events))%nat.
Proof.
  induction events as [|ev events IH]; intros st Hn.
  - simpl. unfold exits, invalid. simpl. lia.
  - rewrite choices_cons. unfold exits, invalid in *. rewrite !count_app.
    change (run st (ev :: events)) with (run (step st ev) events) in *.
    assert (control (step st ev) <> C_Crashed) as Hs.
    { intros H. apply Hn. rewrite (run_crashed events _ H). exact H. }
    pose proof (step_owed st ev Hs) as H1. unfold exits, invalid in H1.
    pose proof (IH (step st ev) Hn) as H2. lia.
Qed.

(** X18.  Every answer that is no option of the menu has to be paid with a
    further Exit.  In a run of the menu that [main] opens, as long as the
    process has not ended on an unhandled rejection, Exit was chosen at
    most once more than an invalid answer was given, and the menu has
    returned to [main] exactly when it was chosen once more; valid choices
    and the outcome of the queries do not count. *)
Theorem every_invalid_option_costs_an_exit events :
  let st := run main_menu events in
  let chosen := choices main_menu events in
  control st <> C_Crashed ->
  (exits chosen <= S (invalid chosen))%nat /\
  (control st = C_Returned <-> exits chosen = S (invalid chosen)).
Proof.
  intros st chosen Hn.
  pose proof (run_owed events main_menu Hn) as H.
  fold st in H. fold chosen in H.
  change (owed main_menu) with 1%nat in H.
  split; [lia|]. split.
  - intros Hr. unfold owed in H. rewrite Hr in H. lia.
  - intros He. unfold owed in H.
    destruct (control st); try reflexivity; try lia.
    exfalso. apply Hn. reflexivity.
Qed.

End ArchiveMenuFacts.

Section ArchiveMenuScenarios.
Import ArchiveMenu.

Lemma every_invalid_option_costs_an_exit_witness :
  control (run main_menu [Line "9"; Line "8"; Line "1"]) = C_Report Campaigns /\
  exits (choices main_menu [Line "9"; Line "8"; Line "1"]) = 1%nat /\
  (control (run main_menu [Line "9"; Line "8"; Line "1"]) = C_Returned <->
   exits (choices main_menu [Line "9"; Line "8"; Line "1"])
   = S (invalid (choices main_menu [Line "9"; Line "8"; Line "1"]))).
Proof.
  split; [reflexivity|]. split; [reflexivity|].
  apply (every_invalid_option_costs_an_exit [Line "9"; Line "8"; Line "1"]).
  vm_compute. discriminate.
Defined.

(** One invalid answer: the first Exit brings the menu again, the second
    returns to [main]. *)
Example invalid_answer_then_two_exits :
  control (run main_menu [Line "0"; Line "8"]) = C_Choice /\
  control (run main_menu [Line "0"; Line "8"; Line "8"]) = C_Returned /\
  control (run main_menu [Line "1"; Report (rejected "denied"); Line "8"])
  = C_Returned.
Proof. vm_compute. repeat split. Qed.

End ArchiveMenuScenarios.
